(** * cnn-visualizer: the array arithmetic behind the teaching demo

  A shallow embedding of the non-library logic of the repository:
  - [src/utils/cnn-model.ts]: [imageDataToGrid], [preprocessImage] and
    [getConv1Weights];
  - [src/components/CNNDemo/ConvAnimation.tsx]: the convolution replay
    (dimensions, [calculateResult], the output grid cells, the timer, the
    highlighted window and the calculation panel);
  - [src/components/CNNDemo/index.tsx]: the label of [handlePredict], the
    log bookkeeping of [handleStartTraining], the handlers of [CNNDemo] as
    a transition system over its state, and the rendering of the feature
    maps in [generateFeatureMaps].

  JavaScript numbers that carry fractions (pixel intensities divided by
  255, kernel weights, bias, probabilities, the scale factor) are IEEE-754
  binary64 values: Rocq's primitive [float].  Numbers that are array
  indices, sizes, counters and bytes are integers far below 2^53, on which
  the double arithmetic of the source is exact; they are kept in [Z]. *)

From Stdlib Require Import ZArith List Bool Lia Floats Uint63 Sorted.
From Stdlib Require String.
Import ListNotations.
Local Open Scope Z_scope.

(* ================================================================== *)
(** * The fragment of the JavaScript runtime the sources rely on      *)
(* ================================================================== *)

Module JS.

(** A call either returns or throws. *)
Inductive error : Type :=
| TypeError.

Inductive completion (A : Type) : Type :=
| Normal (a : A)
| Throw (e : error).
Arguments Normal {A} a.
Arguments Throw {A} e.

Definition bind {A B : Type} (c : completion A) (k : A -> completion B)
  : completion B :=
  match c with
  | Normal a => k a
  | Throw e => Throw e
  end.

(** [arr[i]] on an array or typed array: [None] is [undefined]. *)
Definition get {A : Type} (arr : list A) (i : Z) : option A :=
  if i <? 0 then None else nth_error arr (Z.to_nat i).

(** [arr[i]] when the index is a number that may be NaN or infinite
    ([None]): such a key names no element. *)
Definition get_at {A : Type} (arr : list A) (i : option Z) : option A :=
  match i with
  | Some k => get arr k
  | None => None
  end.

(** [v[...]] on a value that may be [undefined]: reading a property of
    [undefined] throws a TypeError. *)
Definition defined {A : Type} (v : option A) : completion A :=
  match v with
  | Some a => Normal a
  | None => Throw TypeError
  end.

Definition length {A : Type} (arr : list A) : Z := Z.of_nat (List.length arr).

(** [arr.push(x)]. *)
Definition push {A : Type} (arr : list A) (x : A) : list A := arr ++ [x].

(** [for (let i = 0; i < n; i++) body], threading the variables the body
    assigns; [for_from] runs [count] iterations starting at [i]. *)
Fixpoint for_from {S : Type} (i : Z) (count : nat) (body : Z -> S -> S) (s : S) : S :=
  match count with
  | O => s
  | Datatypes.S k => for_from (i + 1) k body (body i s)
  end.

Definition for_lt {S : Type} (n : Z) (body : Z -> S -> S) (s : S) : S :=
  for_from 0 (Z.to_nat n) body s.

(** The same loop when the body may throw. *)
Fixpoint for_fromM {S : Type} (i : Z) (count : nat)
    (body : Z -> S -> completion S) (s : S) : completion S :=
  match count with
  | O => Normal s
  | Datatypes.S k => bind (body i s) (for_fromM (i + 1) k body)
  end.

Definition for_ltM {S : Type} (n : Z) (body : Z -> S -> completion S) (s : S)
  : completion S :=
  for_fromM 0 (Z.to_nat n) body s.

(** ** Numbers *)

(** An integer as a double (exact below 2^53). *)
Definition of_Z (z : Z) : float :=
  if z <? 0 then PrimFloat.opp (PrimFloat.of_uint63 (Uint63.of_Z (- z)))
  else PrimFloat.of_uint63 (Uint63.of_Z z).

(** ToNumber on a value that may be [undefined]. *)
Definition to_number (v : option float) : float :=
  match v with
  | Some x => x
  | None => PrimFloat.nan
  end.

(** [Math.floor]. *)
Definition Math_floor (f : float) : float :=
  match Prim2SF f with
  | S754_finite s m e =>
      if 0 <=? e then f
      else
        let q := Z.pos m / 2 ^ (- e) in
        if Z.pos m mod 2 ^ (- e) =? 0 then f
        else if s then PrimFloat.opp (of_Z (q + 1)) else of_Z q
  | _ => f
  end.

Definition is_pos_zero (f : float) : bool :=
  match PrimFloat.classify f with PZero => true | _ => false end.
Definition is_neg_zero (f : float) : bool :=
  match PrimFloat.classify f with NZero => true | _ => false end.

(** [Math.max(...args)]: NaN is contagious, +0 beats -0, the empty list
    gives -Infinity. *)
Definition max_step (highest number : float) : float :=
  if PrimFloat.is_nan highest || PrimFloat.is_nan number then PrimFloat.nan
  else if is_pos_zero number && is_neg_zero highest then number
  else if PrimFloat.ltb highest number then number
  else highest.

Definition Math_max (args : list float) : float :=
  fold_left max_step args PrimFloat.neg_infinity.

Definition Math_min (a b : float) : float :=
  if PrimFloat.is_nan a || PrimFloat.is_nan b then PrimFloat.nan
  else if is_neg_zero b && is_pos_zero a then b
  else if PrimFloat.ltb b a then b
  else a.

(** [arr.indexOf(x)] on numbers: strict equality ([===]), first match,
    [-1] when there is none. *)
Fixpoint indexOf_from (arr : list float) (x : float) (k : Z) : Z :=
  match arr with
  | [] => -1
  | y :: rest => if PrimFloat.eqb y x then k else indexOf_from rest x (k + 1)
  end.

Definition indexOf (arr : list float) (x : float) : Z := indexOf_from arr x 0.

End JS.

Notation "x <- c ;; k" := (JS.bind c (fun x => k))
(at level 61, c at next level, right associativity).
Notation "' p <- c ;; k" := (JS.bind c (fun p => k))
(at level 61, p pattern, c at next level, right associativity).

(* ================================================================== *)
(** * ConvAnimation.tsx: the convolution replay                        *)
(* ================================================================== *)

Module ConvAnimation.
Import JS.

Inductive activation : Type :=
| relu
| none.

Record props : Type := {
  inputData : list (list float);
  kernel : list (list float);
  bias : float;
  act : activation
}.

(** The dimensions computed at the top of the component. *)
Record dims : Type := {
  inputH : Z;
  inputW : Z;
  kernelH : Z;
  kernelW : Z;
  outputH : Z;
  outputW : Z;
  totalSteps : Z
}.

(** [inputData[0].length] and [kernel[0].length] throw on an empty array. *)
Definition dimensions (p : props) : completion dims :=
  let inputH := JS.length (inputData p) in
  row0 <- defined (get (inputData p) 0) ;;
  let inputW := JS.length row0 in
  let kernelH := JS.length (kernel p) in
  krow0 <- defined (get (kernel p) 0) ;;
  let kernelW := JS.length krow0 in
  let outputH := inputH - kernelH + 1 in
  let outputW := inputW - kernelW + 1 in
  Normal {| inputH := inputH; inputW := inputW;
            kernelH := kernelH; kernelW := kernelW;
            outputH := outputH; outputW := outputW;
            totalSteps := outputH * outputW |}.

(** [Math.floor(step / outputW)] and [step % outputW].  For a non-zero
    divisor these are the floored quotient and the remainder that takes
    the sign of the dividend; division by zero yields NaN or an infinity,
    which is no array index ([None]). *)
Definition currentY (d : dims) (step : Z) : option Z :=
  if outputW d =? 0 then None else Some (step / outputW d).

Definition currentX (d : dims) (step : Z) : option Z :=
  if outputW d =? 0 then None else Some (Z.rem step (outputW d)).

Definition offset (base : option Z) (i : Z) : option Z :=
  option_map (fun b => b + i) base.

Record detail : Type := {
  d_i : Z;
  d_j : Z;
  d_val : option float;
  d_w : option float
}.

Record result : Type := {
  sum : float;
  preActivation : float;
  final : float;
  details : list detail
}.

Definition activate (a : activation) (s : float) : float :=
  match a with
  | relu => Math_max [PrimFloat.zero; s]
  | none => s
  end.

Definition calculateResult (p : props) (d : dims) (step : Z) : completion result :=
  '(s, ds) <-
    for_ltM (kernelH d) (fun i acc =>
      for_ltM (kernelW d) (fun j '(s, ds) =>
        row <- defined (get_at (inputData p) (offset (currentY d step) i)) ;;
        let val := get_at row (offset (currentX d step) j) in
        krow <- defined (get (kernel p) i) ;;
        let w := get krow j in
        Normal (PrimFloat.add s (PrimFloat.mul (to_number val) (to_number w)),
                push ds {| d_i := i; d_j := j; d_val := val; d_w := w |}))
        acc)
      (PrimFloat.zero, []) ;;
  let s := PrimFloat.add s (bias p) in
  Normal {| sum := s; preActivation := s;
            final := activate (act p) s; details := ds |}.

(** [a < b] and [a === b] for a cell index [a] and the current position
    [b].  (With [outputW = 0] the grid [Array(outputW)] has no cell, so a
    position that is no index is never compared.) *)
Definition lt_num (a : Z) (b : option Z) : bool :=
  match b with Some v => a <? v | None => false end.

Definition eq_num (a : Z) (b : option Z) : bool :=
  match b with Some v => a =? v | None => false end.

Definition isCurrent (d : dims) (step i j : Z) : bool :=
  eq_num i (currentY d step) && eq_num j (currentX d step).

Definition isPast (d : dims) (step i j : Z) : bool :=
  lt_num i (currentY d step)
  || (eq_num i (currentY d step) && lt_num j (currentX d step)).

(** The value shown in output grid cell (i, j): recomputed from scratch
    for the current cell and the cells before it, 0 for the others. *)
Definition cellVal (p : props) (d : dims) (step i j : Z) : completion float :=
  if isPast d step i j || isCurrent d step i j then
    s <- for_ltM (kernelH d) (fun ki s =>
           for_ltM (kernelW d) (fun kj s =>
             row <- defined (get (inputData p) (i + ki)) ;;
             krow <- defined (get (kernel p) ki) ;;
             Normal (PrimFloat.add s
                       (PrimFloat.mul (to_number (get row (j + kj)))
                                      (to_number (get krow kj)))))
             s)
           PrimFloat.zero ;;
    let s := PrimFloat.add s (bias p) in
    Normal (activate (act p) s)
  else Normal PrimFloat.zero.

(** ** The player: [step], [isPlaying], [speed] *)

Record state : Type := {
  step : Z;
  isPlaying : bool;
  speed : Z
}.

Definition initial : state := {| step := 0; isPlaying := false; speed := 500 |}.

(** The updater the interval timer passes to [setStep]. *)
Definition advance (total : Z) (st : state) : state :=
  if total - 1 <=? step st then
    {| step := step st; isPlaying := false; speed := speed st |}
  else
    {| step := step st + 1; isPlaying := isPlaying st; speed := speed st |}.

Definition reset (st : state) : state :=
  {| step := 0; isPlaying := isPlaying st; speed := speed st |}.

Definition togglePlay (st : state) : state :=
  {| step := step st; isPlaying := negb (isPlaying st); speed := speed st |}.

Definition setSpeed (v : Z) (st : state) : state :=
  {| step := step st; isPlaying := isPlaying st; speed := v |}.

Inductive event : Type :=
| Tick
| ClickPlay
| ClickReset
| SelectSpeed (v : Z).

(** The timer only exists while [isPlaying] holds. *)
Inductive transition (total : Z) : state -> event -> state -> Prop :=
| t_tick st : isPlaying st = true -> transition total st Tick (advance total st)
| t_play st : transition total st ClickPlay (togglePlay st)
| t_reset st : transition total st ClickReset (reset st)
| t_speed st v : transition total st (SelectSpeed v) (setSpeed v st).

Inductive reachable (total : Z) : state -> Prop :=
| r_initial : reachable total initial
| r_step st e st' :
    reachable total st -> transition total st e st' -> reachable total st'.

End ConvAnimation.

(* ================================================================== *)
(** * cnn-model.ts: grid extraction and centring                      *)
(* ================================================================== *)

Module CnnModel.
Import JS.

(** The browser's [ImageData]: RGBA bytes, row-major, four per pixel. *)
Record ImageData : Type := {
  width : Z;
  height : Z;
  data : list Z
}.

(** What the type guarantees of a value handed over by the canvas. *)
Definition wf_ImageData (img : ImageData) : Prop :=
  0 <= width img /\ 0 <= height img /\
  JS.length (data img) = 4 * width img * height img /\
  Forall (fun v => 0 <= v <= 255) (data img).

(** [data[idx] / 255]; an index outside the buffer reads [undefined]. *)
Definition normalize (v : option Z) : float :=
  PrimFloat.div (to_number (option_map of_Z v)) (of_Z 255).

Definition imageDataToGrid (imageData : ImageData) (size : Z)
  : completion (list (list float)) :=
  let startX := (width imageData - size) / 2 in
  let startY := (height imageData - size) / 2 in
  Normal
    (for_lt size (fun i grid =>
       let row :=
         for_lt size (fun j row =>
           let x := startX + j in
           let y := startY + i in
           let idx := (y * width imageData + x) * 4 in
           push row (normalize (get (data imageData) idx)))
           [] in
       push grid row)
       []).

(** ** preprocessImage *)

Record bbox : Type := {
  minX : Z;
  minY : Z;
  maxX : Z;
  maxY : Z;
  hasPixels : bool
}.

(** [data[idx] > 50]; [undefined > 50] is false. *)
Definition above_threshold (v : option Z) : bool :=
  match v with
  | Some r => 50 <? r
  | None => false
  end.

Definition scan_pixel (imageData : ImageData) (y x : Z) (b : bbox) : bbox :=
  let idx := (y * width imageData + x) * 4 in
  if above_threshold (get (data imageData) idx) then
    {| minX := if x <? minX b then x else minX b;
       minY := if y <? minY b then y else minY b;
       maxX := if maxX b <? x then x else maxX b;
       maxY := if maxY b <? y then y else maxY b;
       hasPixels := true |}
  else b.

Definition scan (imageData : ImageData) : bbox :=
  for_lt (height imageData) (fun y b =>
    for_lt (width imageData) (fun x b => scan_pixel imageData y x b) b)
    {| minX := width imageData; minY := height imageData;
       maxX := 0; maxY := 0; hasPixels := false |}.

(** *** The canvas *)

Definition pixel : Type := (Z * Z * Z * Z)%type.

Definition black : pixel := (0, 0, 0, 255).

Definition pixel_at (c : ImageData) (x y : Z) : pixel :=
  let idx := (y * width c + x) * 4 in
  let ch k := match get (data c) (idx + k) with Some v => v | None => 0 end in
  (ch 0, ch 1, ch 2, ch 3).

Definition pixel_bytes (p : pixel) : list Z :=
  let '(r, g, b, a) := p in [r; g; b; a].

(** Repaint a bitmap pixel by pixel. *)
Definition paint (c : ImageData) (f : Z -> Z -> pixel -> pixel) : ImageData :=
  {| width := width c;
     height := height c;
     data :=
       for_lt (height c) (fun y acc =>
         for_lt (width c) (fun x acc =>
           acc ++ pixel_bytes (f x y (pixel_at c x y))) acc) [] |}.

(** [document.createElement('canvas')] with [width] and [height] set: a
    transparent black bitmap. *)
Definition createCanvas (w h : Z) : ImageData :=
  {| width := w; height := h; data := repeat 0 (Z.to_nat (4 * w * h)) |}.

(** [ctx.fillStyle = 'black'; ctx.fillRect(x0, y0, w, h)]. *)
Definition fillRect_black (c : ImageData) (x0 y0 w h : Z) : ImageData :=
  paint c (fun x y old =>
    if (x0 <=? x) && (x <? x0 + w) && (y0 <=? y) && (y <? y0 + h)
    then black else old).

(** The parts of the browser the function depends on: whether
    [getContext('2d')] hands out a context for each of the two canvases, and
    how [drawImage] resamples (the smoothing filter is the browser's own):
    [resample src (sx, sy, sw, sh) (dx, dy, dw, dh) x y old] is the colour of
    canvas pixel (x, y) inside the destination rectangle. *)
Record Browser : Type := {
  canvas_context : bool;
  tempCanvas_context : bool;
  resample :
    ImageData -> (Z * Z * Z * Z) -> (float * float * float * float) ->
    Z -> Z -> pixel -> pixel
}.

(** Membership of canvas pixel (x, y) in the destination rectangle. *)
Definition in_dest (dx dy dw dh : float) (x y : Z) : bool :=
  PrimFloat.leb dx (of_Z x) && PrimFloat.ltb (of_Z x) (PrimFloat.add dx dw)
  && PrimFloat.leb dy (of_Z y) && PrimFloat.ltb (of_Z y) (PrimFloat.add dy dh).

(** [ctx.drawImage(src, sx, sy, sw, sh, dx, dy, dw, dh)]: nothing is painted
    when the source rectangle is empty, and only the pixels of the
    destination rectangle change. *)
Definition drawImage (B : Browser) (c src : ImageData)
    (sx sy sw sh : Z) (dx dy dw dh : float) : ImageData :=
  if (sw =? 0) || (sh =? 0) then c
  else
    paint c (fun x y old =>
      if in_dest dx dy dw dh x y
      then resample B src (sx, sy, sw, sh) (dx, dy, dw, dh) x y old
      else old).

Definition preprocessImage (B : Browser) (imageData : ImageData) : ImageData :=
  let b := scan imageData in
  if negb (hasPixels b) then imageData
  else
    let contentWidth := maxX b - minX b + 1 in
    let contentHeight := maxY b - minY b + 1 in
    let scale :=
      Math_min (PrimFloat.div (of_Z 20) (of_Z contentWidth))
               (PrimFloat.div (of_Z 20) (of_Z contentHeight)) in
    let scaledWidth := Math_floor (PrimFloat.mul (of_Z contentWidth) scale) in
    let scaledHeight := Math_floor (PrimFloat.mul (of_Z contentHeight) scale) in
    let canvas := createCanvas 28 28 in
    if negb (canvas_context B) then imageData
    else
      let canvas := fillRect_black canvas 0 0 28 28 in
      (* the temporary canvas holds exactly the input after putImageData *)
      if negb (tempCanvas_context B) then imageData
      else
        let tempCanvas := imageData in
        (* [getImageData(0, 0, 28, 28)] of the 28x28 canvas is its bitmap *)
        let dx :=
          Math_floor (PrimFloat.div (PrimFloat.sub (of_Z 28) scaledWidth) (of_Z 2)) in
        let dy :=
          Math_floor (PrimFloat.div (PrimFloat.sub (of_Z 28) scaledHeight) (of_Z 2)) in
        drawImage B canvas tempCanvas
          (minX b) (minY b) contentWidth contentHeight
          dx dy scaledWidth scaledHeight.

End CnnModel.

(* ================================================================== *)
(** * index.tsx: prediction label and training log                    *)
(* ================================================================== *)

Module CNNDemo.
Import JS.

(** [probabilities.indexOf(Math.max(...probabilities))]. *)
Definition predicted_label (probabilities : list float) : Z :=
  indexOf probabilities (Math_max probabilities).

Record LogEntry : Type := {
  epoch : Z;
  loss : float;
  acc : float
}.

(** The [tf.Logs] object handed to the epoch callback. *)
Record Logs : Type := {
  logs_loss : float;
  logs_acc : float
}.

(** [setLogs(prev => [...prev, { epoch: initialEpoch + epoch, ... }])]. *)
Definition appendLog (initialEpoch : Z) (epoch : Z) (log : Logs)
    (prev : list LogEntry) : list LogEntry :=
  prev ++ [{| epoch := initialEpoch + epoch;
              loss := logs_loss log; acc := logs_acc log |}].

(** [trainModel]: [model.fit] completes its epochs in order and calls the
    epoch callback after each with the run-local index; [delivered] holds
    the [logs] argument of every completed epoch ([None] for [undefined],
    in which case the wrapper skips the caller's callback). *)
Definition trainModel {S : Type} (delivered : list (option Logs))
    (onEpochEnd : Z -> Logs -> S -> S) (s : S) : S :=
  for_lt (JS.length delivered) (fun e s =>
    match get delivered e with
    | Some (Some log) => onEpochEnd e log s
    | _ => s
    end) s.

(** The effect of [handleStartTraining] on [logs]; [ready] says that both
    the model and the data set are present. *)
Definition handleStartTraining (ready : bool) (delivered : list (option Logs))
    (logs : list LogEntry) : list LogEntry :=
  if negb ready then logs
  else
    let initialEpoch := JS.length logs in
    trainModel delivered (appendLog initialEpoch) logs.

(** [handleReset] once confirmed: [setLogs([])]. *)
Definition handleReset (logs : list LogEntry) : list LogEntry := [].

End CNNDemo.

(* ================================================================== *)
(** * Specification-side notions                                      *)
(* ================================================================== *)

Module Spec.
Import JS.

(** The indices 0, 1, ..., n-1. *)
Definition range (n : Z) : list Z := map Z.of_nat (seq 0 (Z.to_nat n)).

(** A grid of [h] rows, each of [w] columns. *)
Definition grid_shape {A : Type} (g : list (list A)) (h w : Z) : Prop :=
  JS.length g = h /\ Forall (fun row => JS.length row = w) g.

(** The entry g[y][x] as a number. *)
Definition entry (g : list (list float)) (y x : Z) : float :=
  match get g y with
  | Some row => to_number (get row x)
  | None => PrimFloat.nan
  end.

(** The products of the window anchored at (y, x) with the kernel, in
    row-major order. *)
Definition window_terms (input ker : list (list float)) (kh kw y x : Z)
  : list float :=
  flat_map (fun i =>
    map (fun j => PrimFloat.mul (entry input (y + i) (x + j)) (entry ker i j))
        (range kw))
    (range kh).

(** bias + sum over the window, the sum taken in row-major order from 0
    (the order matters for doubles). *)
Definition weighted_sum (input ker : list (list float)) (b : float)
    (kh kw y x : Z) : float :=
  PrimFloat.add
    (fold_left PrimFloat.add (window_terms input ker kh kw y x) PrimFloat.zero)
    b.

(** The red channel of pixel (x, y). *)
Definition red (img : CnnModel.ImageData) (x y : Z) : option Z :=
  get (CnnModel.data img) ((y * CnnModel.width img + x) * 4).

(** Pixel (x, y) of the image is foreground: inside the image, red above 50. *)
Definition lit (img : CnnModel.ImageData) (x y : Z) : Prop :=
  0 <= x < CnnModel.width img /\ 0 <= y < CnnModel.height img /\
  exists r, red img x y = Some r /\ 50 < r.

(** (x0, y0)-(x1, y1) is the tight bounding box of the foreground. *)
Definition tight_bbox (img : CnnModel.ImageData) (x0 y0 x1 y1 : Z) : Prop :=
  (forall x y, lit img x y -> x0 <= x <= x1 /\ y0 <= y <= y1) /\
  (exists y, lit img x0 y) /\ (exists y, lit img x1 y) /\
  (exists x, lit img x y0) /\ (exists x, lit img x y1).

(** The epoch indices of a log, in the order of its entries. *)
Definition epochs (logs : list CNNDemo.LogEntry) : list Z :=
  map CNNDemo.epoch logs.

End Spec.

(* ================================================================== *)
(** * The order of doubles, through integer keys                      *)
(* ================================================================== *)

Module FloatOrder.

(** A key for every double that is not NaN: class (-2 for -Infinity, -1
    negative, 0 either zero, 1 positive, 2 for +Infinity), then exponent and
    mantissa, negated for negative numbers.  The comparison of IEEE doubles is
    the lexicographic comparison of their keys. *)
Definition ord (f : spec_float) : option (Z * Z * Z) :=
  match f with
  | S754_nan => None
  | S754_infinity true => Some (-2, 0, 0)
  | S754_infinity false => Some (2, 0, 0)
  | S754_zero _ => Some (0, 0, 0)
  | S754_finite false m e => Some (1, e, Z.pos m)
  | S754_finite true m e => Some (-1, - e, Z.neg m)
  end.

Definition lex (a b : Z * Z * Z) : comparison :=
  let '(a1, a2, a3) := a in
  let '(b1, b2, b3) := b in
  match a1 ?= b1 with
  | Eq => match a2 ?= b2 with
          | Eq => a3 ?= b3
          | c => c
          end
  | c => c
  end.

Definition key (x : float) : option (Z * Z * Z) := ord (Prim2SF x).

Definition cmp_keys (a b : option (Z * Z * Z)) : option comparison :=
  match a, b with
  | Some x, Some y => Some (lex x y)
  | _, _ => None
  end.

(** What [Math.max] has established after consuming [seen]. *)
Definition max_inv (seen : list float) (highest : float) : Prop :=
  exists kh,
    key highest = Some kh /\
    (forall x, In x seen -> exists kx, key x = Some kx /\ lex kx kh <> Gt) /\
    ((seen = [] /\ highest = PrimFloat.neg_infinity) \/
     exists x, In x seen /\ key x = Some kh).

End FloatOrder.

(* ================================================================== *)
(** * Notions for the centring step                                   *)
(* ================================================================== *)

Module Centring.
Import JS Spec CnnModel.

(** The foreground pixels the scan has visited when it stands at (x0, y0). *)
Definition lit_before (img : ImageData) (y0 x0 x y : Z) : Prop :=
  lit img x y /\ (y < y0 \/ (y = y0 /\ x < x0)).

(** The loop invariant of the bounding-box scan, for the set [R] of
    foreground pixels visited so far. *)
Definition scan_inv (img : ImageData) (R : Z -> Z -> Prop) (b : bbox) : Prop :=
  (hasPixels b = false ->
     b = {| minX := width img; minY := height img;
            maxX := 0; maxY := 0; hasPixels := false |} /\
     forall x y, ~ R x y) /\
  (hasPixels b = true ->
     (forall x y, R x y -> minX b <= x <= maxX b /\ minY b <= y <= maxY b) /\
     (exists y, R (minX b) y) /\ (exists y, R (maxX b) y) /\
     (exists x, R x (minY b)) /\ (exists x, R x (maxY b))).

(** The 28x28 canvas after [fillRect]: every pixel opaque black. *)
Definition black_canvas : ImageData :=
  fillRect_black (createCanvas 28 28) 0 0 28 28.

(** The numbers of the centring step, in the words of the specification:
    the uniform scale min(20 / bboxWidth, 20 / bboxHeight), a scaled
    dimension floor(dimension * scale), and a centring offset
    floor((28 - scaledDimension) / 2). *)
Definition fit_scale (bw bh : Z) : float :=
  Math_min (PrimFloat.div (of_Z 20) (of_Z bw)) (PrimFloat.div (of_Z 20) (of_Z bh)).

Definition scaled (dim : Z) (scale : float) : float :=
  Math_floor (PrimFloat.mul (of_Z dim) scale).

Definition centre_offset (scaledDim : float) : float :=
  Math_floor (PrimFloat.div (PrimFloat.sub (of_Z 28) scaledDim) (of_Z 2)).

End Centring.

(* ================================================================== *)
(** * Concrete inputs                                                 *)
(* ================================================================== *)

Module Examples.
Import JS Spec.

(** A 2x2 image whose only foreground pixel is the bottom-right one. *)
Definition tiny : CnnModel.ImageData :=
  {| CnnModel.width := 2; CnnModel.height := 2;
     CnnModel.data := [10; 0; 0; 255;  20; 0; 0; 255;
                       30; 0; 0; 255;  255; 0; 0; 255] |}.

(** A 2x2 image without foreground: no red channel above 50. *)
Definition dim_image : CnnModel.ImageData :=
  {| CnnModel.width := 2; CnnModel.height := 2;
     CnnModel.data := [10; 0; 0; 255;  20; 0; 0; 255;
                       30; 0; 0; 255;  50; 0; 0; 255] |}.

(** A 28x28 image with a single white column, x = 5, over the full height,
    and its transpose, a single white row. *)
Definition thin_stroke : CnnModel.ImageData :=
  {| CnnModel.width := 28; CnnModel.height := 28;
     CnnModel.data :=
       flat_map (fun y =>
         flat_map (fun x =>
           if x =? 5 then [255; 255; 255; 255] else [0; 0; 0; 255])
           (range 28))
         (range 28) |}.

Definition flat_stroke : CnnModel.ImageData :=
  {| CnnModel.width := 28; CnnModel.height := 28;
     CnnModel.data :=
       flat_map (fun y =>
         flat_map (fun x =>
           if y =? 5 then [255; 255; 255; 255] else [0; 0; 0; 255])
           (range 28))
         (range 28) |}.

(** A browser whose resampling would paint white. *)
Definition white_browser : CnnModel.Browser :=
  {| CnnModel.canvas_context := true; CnnModel.tempCanvas_context := true;
     CnnModel.resample := fun _ _ _ _ _ _ => (255, 255, 255, 255) |}.

(** A 3x3 input with a 2x2 kernel: four output positions. *)
Definition small_replay : ConvAnimation.props :=
  {| ConvAnimation.inputData :=
       [[1; 0; 0.5]; [0; 1; 0.25]; [0.5; 0; 1]]%float;
     ConvAnimation.kernel := [[1; -1]; [0.5; 2]]%float;
     ConvAnimation.bias := (-2)%float;
     ConvAnimation.act := ConvAnimation.relu |}.

(** The dimensions the component derives from it. *)
Definition small_dims : ConvAnimation.dims :=
  {| ConvAnimation.inputH := 3; ConvAnimation.inputW := 3;
     ConvAnimation.kernelH := 2; ConvAnimation.kernelW := 2;
     ConvAnimation.outputH := 2; ConvAnimation.outputW := 2;
     ConvAnimation.totalSteps := 4 |}.

(** A probability vector whose maximum occurs twice. *)
Definition tied_probabilities : list float :=
  [0.125; 0.5; 0.125; 0.5]%float.

(** The logs of a full run of five epochs. *)
Definition five_epochs : list (option CNNDemo.Logs) :=
  repeat (Some {| CNNDemo.logs_loss := 0.5%float;
                  CNNDemo.logs_acc := 0.75%float |}) 5.

End Examples.

(* ================================================================== *)
(** * The rest of the replay component                               *)
(* ================================================================== *)

Module ConvAnimationView.
Import JS ConvAnimation.

(** [i >= currentY] and [i < currentY + k] against a position that may be
    no number. *)
Definition ge_num (a : Z) (b : option Z) : bool :=
  match b with Some v => v <=? a | None => false end.

Definition lt_offset (a : Z) (b : option Z) (k : Z) : bool :=
  match b with Some v => a <? v + k | None => false end.

(** The highlight of input cell (i, j). *)
Definition isInWindow (d : dims) (step i j : Z) : bool :=
  ge_num i (currentY d step) && lt_offset i (currentY d step) (kernelH d)
  && ge_num j (currentX d step) && lt_offset j (currentX d step) (kernelW d).

End ConvAnimationView.

Module ReplaySpec.
Import JS Spec ConvAnimation.

(** The kernel positions in the order the loops visit them. *)
Definition positions (kh kw : Z) : list (Z * Z) :=
  flat_map (fun i => map (fun j => (i, j)) (range kw)) (range kh).

(** g[y][x], [None] when the row or the element is missing. *)
Definition cell (g : list (list float)) (y x : Z) : option float :=
  match get g y with
  | Some row => get row x
  | None => None
  end.

(** The line of the calculation panel for kernel position (i, j) with the
    window at (y, x). *)
Definition detail_of (p : props) (y x : Z) (ij : Z * Z) : detail :=
  {| d_i := fst ij; d_j := snd ij;
     d_val := cell (inputData p) (y + fst ij) (x + snd ij);
     d_w := cell (kernel p) (fst ij) (snd ij) |}.

(** The sum of the products listed in the calculation panel. *)
Definition sum_of_details (ds : list detail) : float :=
  fold_left (fun s d =>
    PrimFloat.add s (PrimFloat.mul (to_number (d_val d)) (to_number (d_w d))))
    ds PrimFloat.zero.

(** One iteration of [calculateResult] with the window at (y, x). *)
Definition accumulate (p : props) (y x : Z) (acc : float * list detail)
    (ij : Z * Z) : float * list detail :=
  (PrimFloat.add (fst acc)
     (PrimFloat.mul (to_number (cell (inputData p) (y + fst ij) (x + snd ij)))
                    (to_number (cell (kernel p) (fst ij) (snd ij)))),
   push (snd acc) (detail_of p y x ij)).

End ReplaySpec.

(* ================================================================== *)
(** * The first filter of conv1                                       *)
(* ================================================================== *)

Module Weights.
Import JS.

(** The value returned for the animation: the first filter of conv1. *)
Record Conv1Weights : Type := {
  kernel : list (list (option float));
  bias : option float
}.

(** [getConv1Weights]: [weights] is the result of [layer.getWeights()],
    each tensor given by its [dataSync()] buffer ([None] when the call
    returned nothing). *)
Definition getConv1Weights (weights : option (list (list float)))
  : option Conv1Weights :=
  match weights with
  | None => None
  | Some ws =>
      if JS.length ws <? 2 then None
      else
        match get ws 0, get ws 1 with
        | Some kernelData, Some biasData =>
            Some {| kernel :=
                      for_lt 5 (fun i kernel =>
                        let row :=
                          for_lt 5 (fun j row =>
                            let idx := (i * 5 + j) * 8 in
                            push row (get kernelData idx))
                            [] in
                        push kernel row)
                        [];
                    bias := get biasData 0 |}
        | _, _ => None
        end
  end.

(** The props StructurePanel hands to ConvAnimation: the extracted grid,
    the kernel and the bias; [activation] is left at its default. *)
Definition animation_props (grid : list (list float))
    (k : list (list float)) (b : float) : ConvAnimation.props :=
  {| ConvAnimation.inputData := grid; ConvAnimation.kernel := k;
     ConvAnimation.bias := b; ConvAnimation.act := ConvAnimation.relu |}.

End Weights.

Module WeightsSpec.
Import JS.

(** Element (i, j, c, f) of a tensor of shape [5, 5, 1, 8] in its flat,
    row-major buffer. *)
Definition tensor_at (buffer : list float) (i j c f : Z) : option float :=
  get buffer (((i * 5 + j) * 1 + c) * 8 + f).

(** The (i, j) entry of a kernel as returned by [getConv1Weights]. *)
Definition kernel_entry (k : list (list (option float))) (i j : Z)
  : option float :=
  match get k i with
  | Some row => match get row j with Some v => v | None => None end
  | None => None
  end.

End WeightsSpec.

(* ================================================================== *)
(** * The central box of [preprocessImage]                            *)
(* ================================================================== *)

Module CentralBox.
Import JS Spec Centring CnnModel.

(** For a bounding box of [bw] by [bh]: every canvas column of the
    destination rectangle lies in [4, 24), every row likewise, and the
    longer side is scaled to exactly 20. *)
Definition columns_central (bw bh : Z) : bool :=
  let sw := scaled bw (fit_scale bw bh) in
  let dx := centre_offset sw in
  forallb (fun x =>
    implb (PrimFloat.leb dx (of_Z x) && PrimFloat.ltb (of_Z x) (PrimFloat.add dx sw))
          ((4 <=? x) && (x <? 24)))
    (range 28).

Definition rows_central (bw bh : Z) : bool :=
  let sh := scaled bh (fit_scale bw bh) in
  let dy := centre_offset sh in
  forallb (fun y =>
    implb (PrimFloat.leb dy (of_Z y) && PrimFloat.ltb (of_Z y) (PrimFloat.add dy sh))
          ((4 <=? y) && (y <? 24)))
    (range 28).

Definition long_side_20 (bw bh : Z) : bool :=
  PrimFloat.eqb (scaled (Z.max bw bh) (fit_scale bw bh)) (of_Z 20).

End CentralBox.

(* ================================================================== *)
(** * The state of [CNNDemo] and its handlers                         *)
(* ================================================================== *)

Module App.
Import JS CnnModel CNNDemo Weights.
Set Implicit Arguments.

Section Component.
Variables Model FM : Type.

(** What the component obtains from TensorFlow.js and the canvas: the
    probabilities [predict] returns for a model and an image, the feature
    maps [generateFeatureMaps] renders for them, the empty map [{}], and the
    weight buffers of the model's conv1 layer. *)
Record Library : Type := {
  predict : Model -> ImageData -> list float;
  generateFeatureMaps : Model -> ImageData -> FM;
  noFeatureMaps : FM;
  conv1_buffers : Model -> option (list (list float))
}.

(** The state of [CNNDemo] ([activeLayer] and [trainingProgress] left
    out), with the outstanding [trainModel] call if there is one: the
    [initialEpoch] its callback captured and the epochs [model.fit] has
    completed. *)
Record State : Type := {
  model : option Model;
  data : bool;
  isDataLoading : bool;
  isTraining : bool;
  logs : list LogEntry;
  currentImage : option ImageData;
  prediction : option (Z * list float);
  featureMaps : FM;
  conv1Weights : option Conv1Weights;
  inputGrid : option (list (list float));
  fit : option (Z * Z)
}.

Variable lib : Library.
Variable B : Browser.

(** After the synchronous part of the mount effect, [createModel] having
    returned [newModel]. *)
Definition mounted (newModel : Model) : State :=
  {| model := Some newModel; data := false; isDataLoading := true;
     isTraining := false; logs := []; currentImage := None;
     prediction := None; featureMaps := noFeatureMaps lib;
     conv1Weights := getConv1Weights (conv1_buffers lib newModel);
     inputGrid := None; fit := None |}.

(** The end of [mnistData.load()]: [setData] on success, and
    [setIsDataLoading(false)] either way. *)
Definition dataLoaded (st : State) (ok : bool) : State :=
  {| model := model st; data := if ok then true else data st;
     isDataLoading := false;
     isTraining := isTraining st; logs := logs st;
     currentImage := currentImage st; prediction := prediction st;
     featureMaps := featureMaps st; conv1Weights := conv1Weights st;
     inputGrid := inputGrid st; fit := fit st |}.

Definition handleImageReady (st : State) (imageData : ImageData) : State :=
  {| model := model st; data := data st; isDataLoading := isDataLoading st;
     isTraining := isTraining st; logs := logs st;
     currentImage := Some imageData;
     prediction := None;
     featureMaps := noFeatureMaps lib;
     conv1Weights := conv1Weights st;
     inputGrid :=
       match imageDataToGrid imageData 10 with
       | Normal grid => Some grid
       | Throw _ => inputGrid st
       end;
     fit := fit st |}.

Definition handlePredict (st : State) : State :=
  match model st, currentImage st with
  | Some m, Some img =>
      let processedImage := preprocessImage B img in
      let probabilities := predict lib m processedImage in
      let label := predicted_label probabilities in
      {| model := model st; data := data st; isDataLoading := isDataLoading st;
         isTraining := isTraining st; logs := logs st;
         currentImage := currentImage st;
         prediction := Some (label, probabilities);
         featureMaps := generateFeatureMaps lib m processedImage;
         conv1Weights := conv1Weights st; inputGrid := inputGrid st;
         fit := fit st |}
  | _, _ => st
  end.

(** [handleReset] with the confirmation accepted; [newModel] is what
    [createModel] returns. *)
Definition handleReset (st : State) (newModel : Model) : State :=
  if isTraining st then st
  else
    {| model := Some newModel; data := data st;
       isDataLoading := isDataLoading st; isTraining := isTraining st;
       logs := [];
       currentImage := currentImage st;
       prediction := None;
       featureMaps := noFeatureMaps lib;
       conv1Weights := getConv1Weights (conv1_buffers lib newModel);
       inputGrid := inputGrid st; fit := fit st |}.

(** [handleStartTraining] up to the call of [trainModel]. *)
Definition handleStartTraining (st : State) : State :=
  match model st with
  | Some _ =>
      if data st then
        {| model := model st; data := data st;
           isDataLoading := isDataLoading st; isTraining := true;
           logs := logs st; currentImage := currentImage st;
           prediction := prediction st; featureMaps := featureMaps st;
           conv1Weights := conv1Weights st; inputGrid := inputGrid st;
           fit := Some (JS.length (logs st), 0) |}
      else st
  | None => st
  end.

(** A batch of [model.fit] (5 epochs) has updated the weights in place; the
    batch callback itself changes nothing. *)
Definition onBatchEnd (st : State) (updated : Model) : State :=
  match fit st with
  | Some (initialEpoch, epoch) =>
      if epoch <? 5 then
        {| model := Some updated; data := data st;
           isDataLoading := isDataLoading st; isTraining := isTraining st;
           logs := logs st; currentImage := currentImage st;
           prediction := prediction st; featureMaps := featureMaps st;
           conv1Weights := conv1Weights st; inputGrid := inputGrid st;
           fit := fit st |}
      else st
  | None => st
  end.

(** The epoch callback, with the [logs] argument of [model.fit] ([None]
    for [undefined], which makes [trainModel] skip the caller's callback). *)
Definition onEpochEnd (st : State) (log : option Logs) : State :=
  match fit st, model st with
  | Some (initialEpoch, epoch), Some m =>
      if epoch <? 5 then
        match log with
        | Some l =>
            {| model := model st; data := data st;
               isDataLoading := isDataLoading st; isTraining := isTraining st;
               logs := appendLog initialEpoch epoch l (logs st);
               currentImage := currentImage st;
               prediction := prediction st; featureMaps := featureMaps st;
               conv1Weights := getConv1Weights (conv1_buffers lib m);
               inputGrid := inputGrid st;
               fit := Some (initialEpoch, epoch + 1) |}
        | None =>
            {| model := model st; data := data st;
               isDataLoading := isDataLoading st; isTraining := isTraining st;
               logs := logs st; currentImage := currentImage st;
               prediction := prediction st; featureMaps := featureMaps st;
               conv1Weights := conv1Weights st; inputGrid := inputGrid st;
               fit := Some (initialEpoch, epoch + 1) |}
        end
      else st
  | _, _ => st
  end.

(** [trainModel] has resolved or rejected: the [finally] block. *)
Definition onFitSettled (st : State) : State :=
  match fit st, model st with
  | Some _, Some m =>
      {| model := model st; data := data st;
         isDataLoading := isDataLoading st; isTraining := false;
         logs := logs st; currentImage := currentImage st;
         prediction := prediction st; featureMaps := featureMaps st;
         conv1Weights := getConv1Weights (conv1_buffers lib m);
         inputGrid := inputGrid st; fit := None |}
  | _, _ => st
  end.

(** What can happen to the component, one thing at a time: the end of the
    data download, the user's actions, and the callbacks of a [model.fit]
    under way.  A handler runs to completion before the next event; the
    promises [handlePredict] awaits are already resolved, so nothing comes
    between its steps. *)
Inductive event : Type :=
| DataLoaded (ok : bool)
| ImageReady (imageData : ImageData)
| ClickTrain
| ClickReset (newModel : Model)
| ClickPredict
| BatchEnd (updated : Model)
| EpochEnd (log : option Logs)
| FitSettled.

(** What an event does to the state.  The three panels are rendered only
    once loading is over, the train button is disabled while training and
    the reset button exists only when something has been trained. *)
Definition dispatch (st : State) (e : event) : State :=
  match e with
  | DataLoaded ok => if isDataLoading st then dataLoaded st ok else st
  | ImageReady imageData =>
      if isDataLoading st then st else handleImageReady st imageData
  | ClickTrain =>
      if isDataLoading st || isTraining st then st else handleStartTraining st
  | ClickReset newModel =>
      if isDataLoading st || negb (0 <? JS.length (logs st)) then st
      else handleReset st newModel
  | ClickPredict => if isDataLoading st then st else handlePredict st
  | BatchEnd updated => onBatchEnd st updated
  | EpochEnd log => onEpochEnd st log
  | FitSettled => onFitSettled st
  end.

Definition run (newModel : Model) (events : list event) : State :=
  fold_left dispatch events (mounted newModel).

(** ** What the component keeps true *)

(** The prediction on screen, the feature maps and the animation's grid
    all belong to the current image. *)
Definition paired (st : State) : Prop :=
  match prediction st with
  | Some (label, probabilities) =>
      exists m img,
        currentImage st = Some img /\
        probabilities = predict lib m (preprocessImage B img) /\
        label = predicted_label probabilities /\
        featureMaps st = generateFeatureMaps lib m (preprocessImage B img)
  | None => featureMaps st = noFeatureMaps lib
  end /\
  match currentImage st with
  | Some img =>
      exists grid, inputGrid st = Some grid /\
                   imageDataToGrid img 10 = Normal grid
  | None => inputGrid st = None
  end.

(** The log is numbered 0, 1, ... and an outstanding run continues it. *)
Definition numbered (st : State) : Prop :=
  Spec.epochs (logs st) = Spec.range (JS.length (logs st)) /\
  match fit st with
  | Some (initialEpoch, epoch) =>
      isTraining st = true /\ 0 <= epoch /\
      initialEpoch + epoch = JS.length (logs st)
  | None => True
  end.

(** At rest the kernel shown is the first filter of the current model. *)
Definition kernel_current (st : State) : Prop :=
  fit st = None ->
  exists m, model st = Some m /\
            conv1Weights st = getConv1Weights (conv1_buffers lib m).

(** Every epoch callback of the trace came with logs. *)
Definition with_logs (e : event) : Prop :=
  match e with
  | EpochEnd None => False
  | _ => True
  end.

End Component.
Unset Implicit Arguments.
End App.

(* ================================================================== *)
(** * The rendering of the feature maps                               *)
(* ================================================================== *)

Module FeatureMaps.
Import String.
Import JS.

(** The outcome of code inside a [try] whose [catch] ignores the error. *)
Inductive attempt (A : Type) : Type :=
| Returned (a : A)
| Thrown.
Arguments Returned {A} a.
Arguments Thrown {A}.

(** An activation tensor of shape [1, h, w, filters] with its [dataSync()]
    buffer. *)
Record Activation : Type := {
  act_h : Z;
  act_w : Z;
  act_filters : Z;
  act_data : list float
}.

(** The integer a [Uint8ClampedArray] stores for a number: NaN gives 0, the
    value is clamped to [0, 255] and rounded to the nearest integer, ties to
    even. *)
Definition round_half_even (m : positive) (e : Z) : Z :=
  if 0 <=? e then Z.pos m * 2 ^ e
  else
    let q := Z.pos m / 2 ^ (- e) in
    let r := Z.pos m mod 2 ^ (- e) in
    let half := 2 ^ (- e - 1) in
    if r <? half then q
    else if half <? r then q + 1
    else if Z.even q then q else q + 1.

Definition to_uint8_clamp (f : float) : Z :=
  match Prim2SF f with
  | S754_nan => 0
  | S754_zero _ => 0
  | S754_infinity s => if s then 0 else 255
  | S754_finite s m e => if s then 0 else Z.min (round_half_even m e) 255
  end.

(** [arr[idx] = v] on a typed array: a write outside the buffer is dropped. *)
Fixpoint update_nth {A : Type} (n : nat) (v : A) (l : list A) : list A :=
  match l, n with
  | [], _ => []
  | _ :: rest, O => v :: rest
  | x :: rest, Datatypes.S k => x :: update_nth k v rest
  end.

Definition set_at {A : Type} (l : list A) (idx : Z) (v : A) : list A :=
  if idx <? 0 then l else update_nth (Z.to_nat idx) v l.

(** [val < min] and [val > max] for a value that may be [undefined]. *)
Definition lower (val : option float) (min : float) : float :=
  match val with
  | Some v => if PrimFloat.ltb v min then v else min
  | None => min
  end.

Definition higher (val : option float) (max : float) : float :=
  match val with
  | Some v => if PrimFloat.ltb max v then v else max
  | None => max
  end.

(** The first loop over a filter: its smallest and largest activation. *)
Definition min_max (a : Activation) (f : Z) : float * float :=
  for_lt (act_h a * act_w a) (fun i '(min, max) =>
    let val := get (act_data a) (i * act_filters a + f) in
    (lower val min, higher val max))
    (PrimFloat.infinity, PrimFloat.neg_infinity).

(** The double nearest to 0.00001. *)
Definition epsilon : float := 0x1.4f8b588e368f1p-17%float.

Definition normVal (a : Activation) (f : Z) (min range : float) (i : Z) : float :=
  let val := to_number (get (act_data a) (i * act_filters a + f)) in
  Math_floor
    (PrimFloat.mul (PrimFloat.div (PrimFloat.sub val min) range) (of_Z 255)).

(** The bytes of [imgData] for filter [f] after both loops;
    [createImageData] hands out a zeroed buffer. *)
Definition filterImage (a : Activation) (f : Z) : list Z :=
  let imgData := repeat 0 (Z.to_nat (4 * act_w a * act_h a)) in
  let '(min, max) := min_max a f in
  let range := PrimFloat.add (PrimFloat.sub max min) epsilon in
  for_lt (act_h a * act_w a) (fun i data =>
    let n := to_uint8_clamp (normVal a f min range i) in
    let data := set_at data (i * 4 + 0) n in
    let data := set_at data (i * 4 + 1) n in
    let data := set_at data (i * 4 + 2) n in
    set_at data (i * 4 + 3) 255)
    imgData.

Section Rendering.
Variables Model URL : Type.

(** [getActivation] for a layer name, [canvas.toDataURL()] for a canvas of
    the given width, height and pixels, and whether [getContext('2d')] hands
    out a context. *)
Record Renderer : Type := {
  getActivation : Model -> String.string -> CnnModel.ImageData -> attempt Activation;
  toDataURL : Z -> Z -> list Z -> URL;
  context2d : bool
}.

Variable R : Renderer.

(** The body of the [try] for one layer; [createImageData] throws on an
    empty size. *)
Definition layerMaps (a : Activation) : attempt (list URL) :=
  let numFiltersToShow := Z.min (act_filters a) 8 in
  if (0 <? numFiltersToShow) && context2d R
     && ((act_w a <=? 0) || (act_h a <=? 0))
  then Thrown
  else
    Returned
      (for_lt numFiltersToShow (fun f maps =>
         if context2d R
         then push maps (toDataURL R (act_w a) (act_h a) (filterImage a f))
         else maps)
         []).

Definition layersToVisualize : list String.string :=
  ["conv1"; "pool1"; "conv2"; "pool2"]%string.

Definition generateFeatureMaps (model : Model) (imageData : CnnModel.ImageData)
  : list (String.string * list URL) :=
  fold_left (fun newFeatureMaps layerName =>
    match getActivation R model layerName imageData with
    | Thrown => newFeatureMaps
    | Returned a =>
        match layerMaps a with
        | Thrown => newFeatureMaps
        | Returned maps => newFeatureMaps ++ [(layerName, maps)]
        end
    end)
    layersToVisualize [].

(** Whether a layer ends up in the result. *)
Definition rendered (model : Model) (imageData : CnnModel.ImageData)
    (layerName : String.string) : bool :=
  match getActivation R model layerName imageData with
  | Thrown => false
  | Returned a =>
      match layerMaps a with
      | Thrown => false
      | Returned _ => true
      end
  end.

End Rendering.

Arguments getActivation {Model URL} _ _ _ _.
Arguments toDataURL {Model URL} _ _ _ _.
Arguments context2d {Model URL} _.
Arguments layerMaps {Model URL} R a.
Arguments generateFeatureMaps {Model URL} R model imageData.
Arguments rendered {Model URL} R model imageData layerName.

(** The pixel written for position [i] of a filter: grey and opaque. *)
Definition grey_pixel (a : Activation) (f : Z) (i : Z) : list Z :=
  let '(min, max) := min_max a f in
  let n := to_uint8_clamp
             (normVal a f min (PrimFloat.add (PrimFloat.sub max min) epsilon) i) in
  [n; n; n; 255].

(** The activation of filter [f] at position [i], as the loops read it. *)
Definition sample (a : Activation) (f i : Z) : option float :=
  get (act_data a) (i * act_filters a + f).

(** What the first loop knows after [k] positions: [m] is a number, it is
    on the [side] of every number seen (NaN and missing values are skipped),
    and it is either the start value, all numbers seen being equal to it, or
    one of the values seen. *)
Definition extreme_so_far (side : Z * Z * Z -> Z * Z * Z -> Prop)
    (start : float) (a : Activation) (f k : Z) (m : float) : Prop :=
  exists km, FloatOrder.key m = Some km
    /\ (forall i v kv, 0 <= i < k -> sample a f i = Some v ->
          FloatOrder.key v = Some kv -> side km kv)
    /\ ((m = start
         /\ forall i v kv, 0 <= i < k -> sample a f i = Some v ->
              FloatOrder.key v = Some kv -> FloatOrder.key start = Some kv)
        \/ exists i, 0 <= i < k /\ sample a f i = Some m).

Definition below (a b : Z * Z * Z) : Prop := FloatOrder.lex a b <> Gt.
Definition above (a b : Z * Z * Z) : Prop := FloatOrder.lex b a <> Gt.

End FeatureMaps.

(* ================================================================== *)
(** * More concrete inputs                                            *)
(* ================================================================== *)

Module Scenarios.
Import String.
Import JS Spec.

(** A kernel of two rows over an input of one. *)
Definition tall_kernel_replay : ConvAnimation.props :=
  {| ConvAnimation.inputData := [[1; 2]]%float;
     ConvAnimation.kernel := [[1]; [1]]%float;
     ConvAnimation.bias := 0%float;
     ConvAnimation.act := ConvAnimation.relu |}.

Definition tall_kernel_dims : ConvAnimation.dims :=
  {| ConvAnimation.inputH := 1; ConvAnimation.inputW := 2;
     ConvAnimation.kernelH := 2; ConvAnimation.kernelW := 1;
     ConvAnimation.outputH := 0; ConvAnimation.outputW := 2;
     ConvAnimation.totalSteps := 0 |}.

(** An input whose second row is one cell short. *)
Definition ragged_replay : ConvAnimation.props :=
  {| ConvAnimation.inputData := [[1; 2]; [3]]%float;
     ConvAnimation.kernel := [[1; 1]; [1; 1]]%float;
     ConvAnimation.bias := 0%float;
     ConvAnimation.act := ConvAnimation.relu |}.

Definition ragged_dims : ConvAnimation.dims :=
  {| ConvAnimation.inputH := 2; ConvAnimation.inputW := 2;
     ConvAnimation.kernelH := 2; ConvAnimation.kernelW := 2;
     ConvAnimation.outputH := 1; ConvAnimation.outputW := 1;
     ConvAnimation.totalSteps := 1 |}.

(** A 28x28 image with a white block of 6 columns and 9 rows in its top
    left corner. *)
Definition corner_blob : CnnModel.ImageData :=
  {| CnnModel.width := 28; CnnModel.height := 28;
     CnnModel.data :=
       flat_map (fun y =>
         flat_map (fun x =>
           if (x <? 6) && (y <? 9) then [255; 255; 255; 255]
           else [0; 0; 0; 255])
           (range 28))
         (range 28) |}.

(** The weight buffers of a conv1 layer: kernel [5, 5, 1, 8] and bias [8]. *)
Definition conv1_kernel_buffer : list float := map of_Z (range 200).
Definition conv1_bias_buffer : list float := map of_Z (range 8).

(** A library whose models are numbered: the number stands for the weights. *)
Definition demo_library : App.Library nat nat :=
  {| App.predict := fun _ _ => [0.25; 0.5; 0.25]%float;
     App.generateFeatureMaps := fun m _ => m;
     App.noFeatureMaps := O;
     App.conv1_buffers := fun m =>
       Some [map (fun w => PrimFloat.add w (of_Z (Z.of_nat m)))
               conv1_kernel_buffer;
             conv1_bias_buffer] |}.

Definition epoch_logs : CNNDemo.Logs :=
  {| CNNDemo.logs_loss := 0.5%float; CNNDemo.logs_acc := 0.75%float |}.

(** Load, draw, train two epochs, predict, reset, train again. *)
Definition session : list (App.event nat) :=
  [@App.DataLoaded nat true; @App.ImageReady nat Examples.tiny;
   @App.ClickTrain nat;
   @App.BatchEnd nat 1%nat; @App.EpochEnd nat (Some epoch_logs);
   @App.BatchEnd nat 2%nat; @App.EpochEnd nat (Some epoch_logs);
   @App.FitSettled nat; @App.ClickPredict nat; @App.ClickReset nat 3%nat;
   @App.ClickTrain nat; @App.BatchEnd nat 4%nat;
   @App.EpochEnd nat (Some epoch_logs); @App.FitSettled nat].

(** An activation of 2 rows, 2 columns and 2 filters. *)
Definition small_activation : FeatureMaps.Activation :=
  {| FeatureMaps.act_h := 2; FeatureMaps.act_w := 2;
     FeatureMaps.act_filters := 2;
     FeatureMaps.act_data := [0.5; 1; -1; 2; 3; 0; 0.25; 4]%float |}.

(** A renderer for which the layer conv2 cannot be read. *)
Definition demo_renderer : FeatureMaps.Renderer nat (list Z) :=
  {| FeatureMaps.getActivation := fun _ name _ =>
       if String.eqb name "conv2" then FeatureMaps.Thrown
       else FeatureMaps.Returned small_activation;
     FeatureMaps.toDataURL := fun _ _ bytes => bytes;
     FeatureMaps.context2d := true |}.

Definition layers_without_conv2 : list String.string :=
  ["conv1"; "pool1"; "pool2"]%string.

End Scenarios.

(* ================================================================== *)
(** * Loops                                                            *)
(* ================================================================== *)

Section Loops.
Import JS.
Context {S : Type}.

Lemma for_from_inv (P : Z -> S -> Prop) (body : Z -> S -> S) :
  forall count i s,
    P i s ->
    (forall k t, i <= k < i + Z.of_nat count -> P k t -> P (k + 1) (body k t)) ->
    P (i + Z.of_nat count) (for_from i count body s).
Proof.
  induction count as [|c IH]; intros i s Hs Hstep; simpl for_from.
  - now replace (i + Z.of_nat 0) with i by lia.
  - replace (i + Z.of_nat (Datatypes.S c)) with ((i + 1) + Z.of_nat c) by lia.
    apply IH.
    + apply Hstep; [lia | exact Hs].
    + intros k t Hk. apply Hstep. lia.
Qed.

Lemma for_lt_inv (P : Z -> S -> Prop) (body : Z -> S -> S) (n : Z) (s : S) :
  0 <= n ->
  P 0 s ->
  (forall k t, 0 <= k < n -> P k t -> P (k + 1) (body k t)) ->
  P n (for_lt n body s).
Proof.
  intros Hn H0 Hstep. unfold for_lt.
  replace n with (0 + Z.of_nat (Z.to_nat n)) at 1 by lia.
  apply for_from_inv; [exact H0 |].
  intros k t Hk. apply Hstep. lia.
Qed.

Lemma for_fromM_inv (P : Z -> S -> Prop) (body : Z -> S -> completion S) :
  forall count i s,
    P i s ->
    (forall k t, i <= k < i + Z.of_nat count -> P k t ->
       exists t', body k t = Normal t' /\ P (k + 1) t') ->
    exists s', for_fromM i count body s = Normal s' /\ P (i + Z.of_nat count) s'.
Proof.
  induction count as [|c IH]; intros i s Hs Hstep; simpl for_fromM.
  - exists s. split; [reflexivity |]. now replace (i + Z.of_nat 0) with i by lia.
  - destruct (Hstep i s) as (t' & Hb & Ht'); [lia | exact Hs |].
    rewrite Hb. simpl bind.
    replace (i + Z.of_nat (Datatypes.S c)) with ((i + 1) + Z.of_nat c) by lia.
    apply IH; [exact Ht' |].
    intros k t Hk. apply Hstep. lia.
Qed.

Lemma for_ltM_inv (P : Z -> S -> Prop) (body : Z -> S -> completion S)
    (n : Z) (s : S) :
  0 <= n ->
  P 0 s ->
  (forall k t, 0 <= k < n -> P k t ->
     exists t', body k t = Normal t' /\ P (k + 1) t') ->
  exists s', for_ltM n body s = Normal s' /\ P n s'.
Proof.
  intros Hn H0 Hstep. unfold for_ltM.
  destruct (for_fromM_inv P body (Z.to_nat n) 0 s H0) as (s' & Hrun & Hs').
  - intros k t Hk. apply Hstep. lia.
  - exists s'. split; [exact Hrun |].
    now replace (0 + Z.of_nat (Z.to_nat n)) with n in Hs' by lia.
Qed.

End Loops.

Section Ranges.
Import JS Spec.

Lemma range_succ (n : Z) : 0 <= n -> range (n + 1) = range n ++ [n].
Proof.
  intros Hn. unfold range.
  replace (Z.to_nat (n + 1)) with (Datatypes.S (Z.to_nat n)) by lia.
  rewrite seq_S, map_app. simpl. now rewrite Z2Nat.id.
Qed.

Lemma get_Some_range {A : Type} (l : list A) (i : Z) :
  0 <= i < JS.length l -> exists a, get l i = Some a.
Proof.
  unfold JS.length, get. intros Hi.
  destruct (Z.ltb_spec i 0) as [Hneg|_]; [lia |].
  destruct (nth_error l (Z.to_nat i)) as [a|] eqn:E; [now exists a |].
  apply nth_error_None in E. lia.
Qed.

Lemma get_In {A : Type} (l : list A) (i : Z) (a : A) :
  get l i = Some a -> In a l.
Proof.
  unfold get. destruct (i <? 0); [discriminate |]. apply nth_error_In.
Qed.

Lemma for_lt_nonpos {S : Type} (n : Z) (body : Z -> S -> S) (s : S) :
  n <= 0 -> for_lt n body s = s.
Proof.
  intros Hn. unfold for_lt. now replace (Z.to_nat n) with O by lia.
Qed.

Lemma range_nonpos (n : Z) : n <= 0 -> range n = [].
Proof.
  intros Hn. unfold range. now replace (Z.to_nat n) with O by lia.
Qed.

Lemma for_from_ext {S : Type} (body body' : Z -> S -> S) :
  (forall k s, body k s = body' k s) ->
  forall count i s, for_from i count body s = for_from i count body' s.
Proof.
  intros Hext. induction count as [|c IH]; intros i s; simpl; [reflexivity |].
  now rewrite Hext, IH.
Qed.

Lemma for_lt_ext {S : Type} (body body' : Z -> S -> S) (n : Z) (s : S) :
  (forall k t, body k t = body' k t) -> for_lt n body s = for_lt n body' s.
Proof.
  intros Hext. unfold for_lt. now apply for_from_ext.
Qed.

(** A loop that appends a chunk per iteration builds the concatenation. *)
Lemma for_lt_append {A : Type} (g : Z -> list A) (n : Z) (l : list A) :
  for_lt n (fun k acc => acc ++ g k) l = l ++ flat_map g (range n).
Proof.
  destruct (Z.le_gt_cases n 0) as [Hn|Hn].
  - rewrite for_lt_nonpos, range_nonpos by exact Hn. simpl. now rewrite app_nil_r.
  - apply (for_lt_inv (fun k acc => acc = l ++ flat_map g (range k))); [lia | |].
    + simpl. now rewrite app_nil_r.
    + intros k t Hk ->. rewrite range_succ, flat_map_app by lia.
      simpl. now rewrite app_nil_r, app_assoc.
Qed.

Lemma for_lt_push {A : Type} (g : Z -> A) (n : Z) (l : list A) :
  for_lt n (fun k acc => push acc (g k)) l = l ++ map g (range n).
Proof.
  unfold push. rewrite (for_lt_append (fun k => [g k])).
  f_equal.
Qed.

Lemma length_range (n : Z) : 0 <= n -> JS.length (range n) = n.
Proof.
  intros Hn. unfold JS.length, range. rewrite length_map, length_seq. lia.
Qed.

Lemma get_range (n i : Z) : 0 <= i < n -> get (range n) i = Some i.
Proof.
  intros Hi. unfold get, range.
  destruct (Z.ltb_spec i 0); [lia |].
  rewrite nth_error_map, nth_error_seq.
  destruct (Nat.ltb_spec (Z.to_nat i) (Z.to_nat n)); [| lia].
  simpl. f_equal. lia.
Qed.

Lemma get_map {A B : Type} (f : A -> B) (l : list A) (i : Z) :
  get (map f l) i = option_map f (get l i).
Proof.
  unfold get. destruct (i <? 0); [reflexivity |]. apply nth_error_map.
Qed.

Lemma In_range (n i : Z) : In i (range n) <-> 0 <= i < n.
Proof.
  unfold range. rewrite in_map_iff. split.
  - intros (k & <- & Hk). apply in_seq in Hk. lia.
  - intros Hi. exists (Z.to_nat i). split; [lia |]. apply in_seq. lia.
Qed.

Lemma get_app {A : Type} (l1 l2 : list A) (i : Z) :
  0 <= i ->
  get (l1 ++ l2) i =
  if i <? JS.length l1 then get l1 i else get l2 (i - JS.length l1).
Proof.
  intros Hi. unfold get, JS.length.
  destruct (Z.ltb_spec i 0); [lia |].
  destruct (Z.ltb_spec i (Z.of_nat (List.length l1))) as [Hlt|Hge].
  - apply nth_error_app1. lia.
  - destruct (Z.ltb_spec (i - Z.of_nat (List.length l1)) 0); [lia |].
    rewrite nth_error_app2 by lia. f_equal. lia.
Qed.

Lemma length_flat_map_chunks {A : Type} (g : Z -> list A) (sz n : Z) :
  0 <= n -> (forall i, 0 <= i < n -> JS.length (g i) = sz) ->
  JS.length (flat_map g (range n)) = n * sz.
Proof.
  intros Hn. pattern n. apply natlike_ind; [| | exact Hn].
  - intros _. reflexivity.
  - intros m Hm IH Hlen. unfold Z.succ. rewrite range_succ, flat_map_app by lia.
    unfold JS.length in *. rewrite length_app. simpl. rewrite app_nil_r.
    rewrite Nat2Z.inj_add, IH by (intros; apply Hlen; lia).
    rewrite (Hlen m) by lia. lia.
Qed.

Lemma get_flat_map_chunks {A : Type} (g : Z -> list A) (sz n k r : Z) :
  0 <= n -> (forall i, 0 <= i < n -> JS.length (g i) = sz) ->
  0 <= k < n -> 0 <= r < sz ->
  get (flat_map g (range n)) (k * sz + r) = get (g k) r.
Proof.
  intros Hn. revert k r. pattern n. apply natlike_ind; [| | exact Hn].
  - intros; lia.
  - intros m Hm IH k r Hlen Hk Hr. unfold Z.succ.
    rewrite range_succ, flat_map_app by lia. simpl. rewrite app_nil_r.
    rewrite get_app by nia.
    rewrite (length_flat_map_chunks g sz m) by (auto; intros; apply Hlen; lia).
    destruct (Z.ltb_spec (k * sz + r) (m * sz)) as [Hlt|Hge].
    + apply IH; [intros; apply Hlen; lia | nia | lia].
    + assert (k = m) by nia. subst k. f_equal. lia.
Qed.

End Ranges.

(* ================================================================== *)
(** * The convolution replay                                          *)
(* ================================================================== *)

Section Replay.
Import JS Spec ConvAnimation.

Lemma first_row_length {A : Type} (g : list (list A)) (h w : Z) :
  grid_shape g h w -> 1 <= h ->
  exists row0, get g 0 = Some row0 /\ JS.length row0 = w.
Proof.
  intros [Hlen Hrows] Hh.
  destruct (get_Some_range g 0) as [row0 E]; [lia |].
  exists row0. split; [exact E |].
  apply get_In in E. rewrite Forall_forall in Hrows. now apply Hrows.
Qed.

Lemma dimensions_of_shapes (p : props) (H W KH KW : Z) :
  grid_shape (inputData p) H W -> grid_shape (kernel p) KH KW ->
  1 <= H -> 1 <= KH ->
  dimensions p =
  Normal {| inputH := H; inputW := W; kernelH := KH; kernelW := KW;
            outputH := H - KH + 1; outputW := W - KW + 1;
            totalSteps := (H - KH + 1) * (W - KW + 1) |}.
Proof.
  intros Hin Hk HH HKH. unfold dimensions.
  destruct (first_row_length _ _ _ Hin HH) as (row0 & E0 & L0).
  destruct (first_row_length _ _ _ Hk HKH) as (krow0 & E1 & L1).
  rewrite E0, E1. simpl. rewrite L0, L1.
  destruct Hin as [-> _]. destruct Hk as [-> _]. reflexivity.
Qed.

Lemma current_position (d : dims) (step : Z) :
  0 < outputW d -> 0 <= step ->
  currentY d step = Some (step / outputW d) /\
  currentX d step = Some (step mod outputW d).
Proof.
  intros HW HS. unfold currentY, currentX.
  destruct (Z.eqb_spec (outputW d) 0) as [E|_]; [lia |].
  split; [reflexivity |]. f_equal. apply Z.rem_mod_nonneg; lia.
Qed.

Lemma position_in_grid (oh ow step : Z) :
  0 < ow -> 0 <= step < oh * ow ->
  0 <= step / ow < oh /\ 0 <= step mod ow < ow.
Proof.
  intros Hw Hs. split.
  - split; [apply Z.div_pos; lia |].
    apply Z.div_lt_upper_bound; [lia |]. rewrite Z.mul_comm. lia.
  - apply Z.mod_pos_bound. lia.
Qed.

(** C2. For an input grid of H rows and W columns and a kernel of KH rows
    and KW columns, the kernel non-empty and no larger than the input, the
    component computes outputH = H - KH + 1, outputW = W - KW + 1 and
    totalSteps = (H - KH + 1) * (W - KW + 1); for every step index S >= 0 the
    current output row is S div outputW and the current output column is
    S mod outputW, and for S < totalSteps this position lies in the output
    grid. *)
Theorem replay_dimensions_and_position (p : props) (H W KH KW : Z) :
  grid_shape (inputData p) H W -> grid_shape (kernel p) KH KW ->
  1 <= KH <= H -> 1 <= KW <= W ->
  exists d,
    dimensions p = Normal d /\
    outputH d = H - KH + 1 /\
    outputW d = W - KW + 1 /\
    totalSteps d = (H - KH + 1) * (W - KW + 1) /\
    forall S, 0 <= S ->
      currentY d S = Some (S / (W - KW + 1)) /\
      currentX d S = Some (S mod (W - KW + 1)) /\
      (S < totalSteps d ->
         0 <= S / (W - KW + 1) < outputH d /\
         0 <= S mod (W - KW + 1) < outputW d).
Proof.
  intros Hin Hk HKH HKW.
  eexists. split; [apply (dimensions_of_shapes p H W KH KW); auto; lia |].
  simpl. repeat split; try reflexivity.
  - apply (current_position
             {| inputH := H; inputW := W; kernelH := KH; kernelW := KW;
                outputH := H - KH + 1; outputW := W - KW + 1;
                totalSteps := (H - KH + 1) * (W - KW + 1) |}); simpl; lia.
  - apply (current_position
             {| inputH := H; inputW := W; kernelH := KH; kernelW := KW;
                outputH := H - KH + 1; outputW := W - KW + 1;
                totalSteps := (H - KH + 1) * (W - KW + 1) |}); simpl; lia.
  - apply (position_in_grid (H - KH + 1)); lia.
  - apply (position_in_grid (H - KH + 1)); lia.
  - apply (position_in_grid (H - KH + 1)); lia.
  - apply (position_in_grid (H - KH + 1)); lia.
Qed.


Lemma nested_sum_loop {St : Type} (proj : St -> float) (term : Z -> Z -> float)
    (body : Z -> Z -> St -> completion St) (KH KW : Z) :
  0 <= KH -> 0 <= KW ->
  (forall i j st, 0 <= i < KH -> 0 <= j < KW ->
     exists st', body i j st = Normal st' /\
                 proj st' = PrimFloat.add (proj st) (term i j)) ->
  forall st,
    exists st',
      for_ltM KH (fun i acc => for_ltM KW (body i) acc) st = Normal st' /\
      proj st' =
      fold_left PrimFloat.add
        (flat_map (fun i => map (term i) (range KW)) (range KH)) (proj st).
Proof.
  intros HKH HKW Hbody st.
  apply (for_ltM_inv
           (fun i t => proj t =
              fold_left PrimFloat.add
                (flat_map (fun i => map (term i) (range KW)) (range i)) (proj st)));
    [exact HKH | reflexivity |].
  intros i t Hi Ht.
  destruct (for_ltM_inv
              (fun j u => proj u =
                 fold_left PrimFloat.add (map (term i) (range j)) (proj t))
              (body i) KW t HKW eq_refl) as (u & Hrun & Hu).
  - intros j u Hj Hu.
    destruct (Hbody i j u Hi Hj) as (u' & Hb & Hu').
    exists u'. split; [exact Hb |].
    rewrite range_succ, map_app, fold_left_app by lia.
    simpl. now rewrite <- Hu.
  - exists u. split; [exact Hrun |].
    rewrite range_succ, flat_map_app, fold_left_app by lia.
    simpl. rewrite app_nil_r, <- Ht. exact Hu.
Qed.

Lemma row_exists (g : list (list float)) (h w y : Z) :
  grid_shape g h w -> 0 <= y < h -> exists row, get g y = Some row.
Proof.
  intros [Hlen _] Hy. apply get_Some_range. lia.
Qed.

Lemma entry_of_row (g : list (list float)) (y x : Z) (row : list float) :
  get g y = Some row -> to_number (get row x) = entry g y x.
Proof.
  intros E. unfold entry. now rewrite E.
Qed.

(** The accumulation of [calculateResult] at window (y, x). *)
Lemma calculateResult_at (p : props) (d : dims) (H W KH KW step y x : Z) :
  grid_shape (inputData p) H W -> grid_shape (kernel p) KH KW ->
  kernelH d = KH -> kernelW d = KW -> 0 <= KH -> 0 <= KW ->
  currentY d step = Some y -> currentX d step = Some x ->
  0 <= y -> y + KH <= H ->
  exists r,
    calculateResult p d step = Normal r /\
    final r =
    activate (act p) (weighted_sum (inputData p) (kernel p) (bias p) KH KW y x).
Proof.
  intros Hin Hk EKH EKW HKH HKW Ey Ex Hy0 Hy1.
  unfold calculateResult. rewrite EKH, EKW, Ey, Ex.
  destruct (nested_sum_loop (St := float * list detail) fst
              (fun i j => PrimFloat.mul (entry (inputData p) (y + i) (x + j))
                                        (entry (kernel p) i j))
              (fun i j '(s, ds) =>
                 row <- defined (get_at (inputData p) (offset (Some y) i)) ;;
                 let val := get_at row (offset (Some x) j) in
                 krow <- defined (get (kernel p) i) ;;
                 let w := get krow j in
                 Normal (PrimFloat.add s (PrimFloat.mul (to_number val) (to_number w)),
                         push ds {| d_i := i; d_j := j; d_val := val; d_w := w |}))
              KH KW HKH HKW) with (st := (PrimFloat.zero, @nil detail))
    as ([s ds] & Hrun & Hs).
  - intros i j [s ds] Hi Hj. simpl offset. simpl get_at.
    destruct (row_exists _ _ _ (y + i) Hin) as [row Erow]; [lia |].
    destruct (row_exists _ _ _ i Hk) as [krow Ekrow]; [lia |].
    rewrite Erow, Ekrow. simpl.
    eexists. split; [reflexivity |]. simpl.
    now rewrite (entry_of_row _ _ _ _ Erow), (entry_of_row _ _ _ _ Ekrow).
  - match goal with
    | |- exists r, JS.bind ?loop _ = _ /\ _ =>
        assert (Hrun' : loop = Normal (s, ds)) by exact Hrun; rewrite Hrun'
    end.
    simpl bind. eexists. split; [reflexivity |].
    simpl in Hs. simpl final. now rewrite Hs.
Qed.

(** The recomputation of a visited output cell (i, j). *)
Lemma cellVal_at (p : props) (d : dims) (H W KH KW step i j : Z) :
  grid_shape (inputData p) H W -> grid_shape (kernel p) KH KW ->
  kernelH d = KH -> kernelW d = KW -> 0 <= KH -> 0 <= KW ->
  isPast d step i j || isCurrent d step i j = true ->
  0 <= i -> i + KH <= H ->
  cellVal p d step i j =
  Normal (activate (act p)
            (weighted_sum (inputData p) (kernel p) (bias p) KH KW i j)).
Proof.
  intros Hin Hk EKH EKW HKH HKW Hvis Hi0 Hi1.
  unfold cellVal. rewrite Hvis, EKH, EKW.
  destruct (nested_sum_loop (St := float) (fun s => s)
              (fun ki kj => PrimFloat.mul (entry (inputData p) (i + ki) (j + kj))
                                          (entry (kernel p) ki kj))
              (fun ki kj s =>
                 row <- defined (get (inputData p) (i + ki)) ;;
                 krow <- defined (get (kernel p) ki) ;;
                 Normal (PrimFloat.add s
                           (PrimFloat.mul (to_number (get row (j + kj)))
                                          (to_number (get krow kj)))))
              KH KW HKH HKW) with (st := PrimFloat.zero)
    as (s & Hrun & Hs).
  - intros ki kj s Hki Hkj.
    destruct (row_exists _ _ _ (i + ki) Hin) as [row Erow]; [lia |].
    destruct (row_exists _ _ _ ki Hk) as [krow Ekrow]; [lia |].
    rewrite Erow, Ekrow. simpl.
    eexists. split; [reflexivity |].
    now rewrite (entry_of_row _ _ _ _ Erow), (entry_of_row _ _ _ _ Ekrow).
  - match goal with
    | |- JS.bind ?loop _ = _ =>
        assert (Hrun' : loop = Normal s) by exact Hrun; rewrite Hrun'
    end.
    simpl bind. now rewrite Hs.
Qed.

Lemma visited_flag (d : dims) (step i j : Z) :
  0 < outputW d -> 0 <= step ->
  i < step / outputW d \/ (i = step / outputW d /\ j <= step mod outputW d) ->
  isPast d step i j || isCurrent d step i j = true.
Proof.
  intros HW HS Hv.
  destruct (current_position d step HW HS) as [Ey Ex].
  unfold isPast, isCurrent. rewrite Ey, Ex. simpl.
  destruct Hv as [Hlt | [-> Hle]].
  - apply Z.ltb_lt in Hlt. now rewrite Hlt.
  - rewrite Z.eqb_refl. simpl.
    destruct (Z.ltb_spec j (step mod outputW d)) as [_|Hge];
      [now rewrite orb_true_r |].
    replace j with (step mod outputW d) by lia.
    rewrite Z.eqb_refl. now rewrite orb_true_r.
Qed.

(** C1. For a well-shaped input and kernel and every step S with
    0 <= S < totalSteps, [calculateResult] returns, as the final value of
    output position (S div outputW, S mod outputW), max(0, sum + bias) under
    'relu' and sum + bias under 'none', the sum running over the window's
    products input[row+i][col+j] * kernel[i][j]; and the value recomputed for
    every output cell at or before the current position is given by the same
    formula at that cell. *)
Theorem replay_value_matches_formula (p : props) (H W KH KW S : Z) :
  grid_shape (inputData p) H W -> grid_shape (kernel p) KH KW ->
  1 <= KH <= H -> 1 <= KW <= W ->
  0 <= S < (H - KH + 1) * (W - KW + 1) ->
  exists d,
    dimensions p = Normal d /\
    (exists r,
       calculateResult p d S = Normal r /\
       final r =
       match act p with
       | relu =>
           Math_max [PrimFloat.zero;
                     weighted_sum (inputData p) (kernel p) (bias p) KH KW
                       (S / outputW d) (S mod outputW d)]
       | none =>
           weighted_sum (inputData p) (kernel p) (bias p) KH KW
             (S / outputW d) (S mod outputW d)
       end) /\
    (forall i j,
       0 <= i < outputH d -> 0 <= j < outputW d ->
       i < S / outputW d \/ (i = S / outputW d /\ j <= S mod outputW d) ->
       cellVal p d S i j =
       Normal
         match act p with
         | relu =>
             Math_max [PrimFloat.zero;
                       weighted_sum (inputData p) (kernel p) (bias p) KH KW i j]
         | none => weighted_sum (inputData p) (kernel p) (bias p) KH KW i j
         end).
Proof.
  intros Hin Hk HKH HKW HS.
  eexists. split; [apply (dimensions_of_shapes p H W KH KW); auto; lia |].
  set (d := {| inputH := H; inputW := W; kernelH := KH; kernelW := KW;
               outputH := H - KH + 1; outputW := W - KW + 1;
               totalSteps := (H - KH + 1) * (W - KW + 1) |}).
  assert (HW : 0 < outputW d) by (simpl; lia).
  destruct (current_position d S HW) as [Ey Ex]; [lia |].
  destruct (position_in_grid (H - KH + 1) (outputW d) S HW) as [Hrow Hcol];
    [simpl; lia |].
  split.
  - destruct (calculateResult_at p d H W KH KW S
                (S / outputW d) (S mod outputW d) Hin Hk) as (r & Hr & Hf);
      try reflexivity; try assumption; try lia.
    exists r. split; [exact Hr |]. rewrite Hf. now destruct (act p).
  - intros i j Hi Hj Hv.
    simpl in Hi.
    rewrite (cellVal_at p d H W KH KW S i j Hin Hk);
      try reflexivity; try lia.
    apply visited_flag; [exact HW | lia | exact Hv].
Qed.

(** ** The player *)

Lemma advance_keeps_range (total : Z) (st : state) :
  1 <= total -> 0 <= step st <= total - 1 ->
  0 <= step (advance total st) <= total - 1.
Proof.
  intros Ht Hst. unfold advance.
  destruct (Z.leb_spec (total - 1) (step st)); simpl; lia.
Qed.

Lemma transition_keeps_range (total : Z) (st st' : state) (e : event) :
  1 <= total -> transition total st e st' ->
  0 <= step st <= total - 1 -> 0 <= step st' <= total - 1.
Proof.
  intros Ht Htr Hst. inversion Htr; subst; simpl; try lia.
  now apply advance_keeps_range.
Qed.

Lemma reachable_in_range (total : Z) (st : state) :
  1 <= total -> reachable total st -> 0 <= step st <= total - 1.
Proof.
  intros Ht Hr. induction Hr as [| st e st' _ IH Htr].
  - simpl. lia.
  - exact (transition_keeps_range total st st' e Ht Htr IH).
Qed.

Lemma advance_iter (total : Z) (st : state) (n : nat) :
  Z.of_nat n <= total - 1 ->
  step (Nat.iter n (advance total) (reset st)) = Z.of_nat n /\
  isPlaying (Nat.iter n (advance total) (reset st)) = isPlaying st.
Proof.
  induction n as [|n IH]; intros Hn.
  - split; reflexivity.
  - destruct IH as [IHs IHp]; [lia |].
    simpl Nat.iter. unfold advance at 1 3.
    destruct (Z.leb_spec (total - 1)
                (step (Nat.iter n (advance total) (reset st)))) as [Hle|Hlt].
    + lia.
    + simpl. split; [lia | exact IHp].
Qed.

(** C3. With at least one output position, the step index of every
    reachable player state lies in [0, totalSteps - 1]; from a reset state
    totalSteps - 1 applications of the timer's updater reach
    totalSteps - 1 (with auto-advance still as it was); one more application
    there leaves the step unchanged and switches auto-advance off; and reset
    sets the step to 0 from any state. *)
Theorem player_step_saturates (total : Z) :
  1 <= total ->
  (forall st, reachable total st -> 0 <= step st <= total - 1) /\
  (forall st,
     step (Nat.iter (Z.to_nat (total - 1)) (advance total) (reset st))
     = total - 1 /\
     isPlaying (Nat.iter (Z.to_nat (total - 1)) (advance total) (reset st))
     = isPlaying st) /\
  (forall st, step st = total - 1 ->
     step (advance total st) = total - 1 /\
     isPlaying (advance total st) = false) /\
  (forall st, step (reset st) = 0).
Proof.
  intros Ht. repeat split.
  - now apply (reachable_in_range total st Ht).
  - now apply (reachable_in_range total st Ht).
  - destruct (advance_iter total st (Z.to_nat (total - 1))) as [Hs _]; lia.
  - destruct (advance_iter total st (Z.to_nat (total - 1))) as [_ Hp];
      [lia | exact Hp].
  - unfold advance. rewrite H. now rewrite Z.leb_refl.
  - unfold advance. rewrite H. now rewrite Z.leb_refl.
Qed.

End Replay.

(* ================================================================== *)
(** * Prediction: the label is the first index of the maximum         *)
(* ================================================================== *)

Section Prediction.
Import FloatOrder.

Lemma SFcompare_ord (a b : spec_float) :
  SFcompare a b = cmp_keys (ord a) (ord b).
Proof.
  destruct a as [sa|sa| |sa ma ea], b as [sb|sb| |sb mb eb];
    try destruct sa; try destruct sb; try reflexivity.
  unfold SFcompare, cmp_keys, ord, lex. f_equal.
  change (-1 ?= -1) with Eq. cbv iota.
  rewrite Z.compare_opp, (Z.compare_antisym ea eb).
  destruct (ea ?= eb); reflexivity.
Qed.

Ltac lex_cases :=
  unfold lex in *;
  repeat match goal with
         | |- context [?x ?= ?y] => destruct (Z.compare_spec x y)
         | H : context [?x ?= ?y] |- _ => destruct (Z.compare_spec x y)
         end;
  cbv iota in *; subst; try discriminate; try reflexivity; try lia.

Lemma lex_refl a : lex a a = Eq.
Proof. destruct a as [[a1 a2] a3]. unfold lex. now rewrite !Z.compare_refl. Qed.

Lemma lex_antisym a b : lex b a = CompOpp (lex a b).
Proof.
  destruct a as [[a1 a2] a3], b as [[b1 b2] b3]. unfold lex.
  rewrite (Z.compare_antisym a1 b1), (Z.compare_antisym a2 b2), (Z.compare_antisym a3 b3).
  destruct (a1 ?= b1), (a2 ?= b2), (a3 ?= b3); reflexivity.
Qed.

Lemma lex_eq a b : lex a b = Eq -> a = b.
Proof.
  destruct a as [[a1 a2] a3], b as [[b1 b2] b3]. intros H. lex_cases.
Qed.

Lemma lex_le_lt_trans a b c : lex a b <> Gt -> lex b c = Lt -> lex a c = Lt.
Proof.
  destruct a as [[a1 a2] a3], b as [[b1 b2] b3], c as [[c1 c2] c3].
  intros H1 H2. revert H1 H2. lex_cases; intros; try congruence; try lia.
Qed.

(** Comparisons of doubles through their keys. *)
Lemma compare_keys (x y : float) :
  SFcompare (Prim2SF x) (Prim2SF y) = cmp_keys (key x) (key y).
Proof. apply SFcompare_ord. Qed.

Lemma ltb_keys x y :
  PrimFloat.ltb x y = match cmp_keys (key x) (key y) with Some Lt => true | _ => false end.
Proof. rewrite FloatAxioms.ltb_spec. unfold SFltb. now rewrite compare_keys. Qed.

Lemma eqb_keys x y :
  PrimFloat.eqb x y = match cmp_keys (key x) (key y) with Some Eq => true | _ => false end.
Proof. rewrite FloatAxioms.eqb_spec. unfold SFeqb. now rewrite compare_keys. Qed.

Lemma leb_keys x y :
  PrimFloat.leb x y =
  match cmp_keys (key x) (key y) with Some (Lt | Eq) => true | _ => false end.
Proof. rewrite FloatAxioms.leb_spec. unfold SFleb. now rewrite compare_keys. Qed.

Lemma not_nan_key x : PrimFloat.is_nan x = false -> exists k, key x = Some k.
Proof.
  unfold PrimFloat.is_nan. rewrite eqb_keys.
  destruct (key x) as [k|]; [now exists k | discriminate].
Qed.

Lemma key_not_nan x k : key x = Some k -> PrimFloat.is_nan x = false.
Proof.
  intros E. unfold PrimFloat.is_nan. rewrite eqb_keys, E. simpl.
  now rewrite lex_refl.
Qed.

Lemma eqb_same_key x y :
  PrimFloat.eqb x y = true -> exists k, key x = Some k /\ key y = Some k.
Proof.
  rewrite eqb_keys. destruct (key x) as [kx|], (key y) as [ky|]; try discriminate.
  simpl. destruct (lex kx ky) eqn:E; try discriminate.
  apply lex_eq in E. subst. now exists ky.
Qed.

Lemma same_key_eqb x y k :
  key x = Some k -> key y = Some k -> PrimFloat.eqb x y = true.
Proof.
  intros Ex Ey. rewrite eqb_keys, Ex, Ey. simpl. now rewrite lex_refl.
Qed.

Lemma ord_lower (f : spec_float) (k : Z * Z * Z) :
  ord f = Some k -> lex (-2, 0, 0) k <> Gt.
Proof.
  destruct f as [s|s| |s m e]; try destruct s; simpl; intros E;
    inversion E; subst; intros C; vm_compute in C; discriminate.
Qed.

Lemma key_neg_infinity : key PrimFloat.neg_infinity = Some (-2, 0, 0).
Proof. reflexivity. Qed.

Lemma pos_zero_key x : JS.is_pos_zero x = true -> key x = Some (0, 0, 0).
Proof.
  unfold JS.is_pos_zero, key. rewrite classify_spec. unfold SF64classify.
  destruct (Prim2SF x) as [s|s| |s m e]; try destruct s; simpl;
    try discriminate; try reflexivity.
  - match goal with |- context [if ?c then _ else _] => destruct c end;
      intros C; discriminate C.
  - match goal with |- context [if ?c then _ else _] => destruct c end;
      intros C; discriminate C.
Qed.

Lemma neg_zero_key x : JS.is_neg_zero x = true -> key x = Some (0, 0, 0).
Proof.
  unfold JS.is_neg_zero, key. rewrite classify_spec. unfold SF64classify.
  destruct (Prim2SF x) as [s|s| |s m e]; try destruct s; simpl;
    try discriminate; try reflexivity.
  - match goal with |- context [if ?c then _ else _] => destruct c end;
      intros C; discriminate C.
  - match goal with |- context [if ?c then _ else _] => destruct c end;
      intros C; discriminate C.
Qed.

Lemma max_inv_same_key seen h x k :
  max_inv seen h -> key h = Some k -> key x = Some k ->
  max_inv (seen ++ [x]) x.
Proof.
  intros (kh & Eh & Hall & _) Ek Ex. rewrite Eh in Ek. inversion Ek; subst kh.
  exists k. split; [exact Ex |]. split.
  - intros y Hy. apply in_app_or in Hy. destruct Hy as [Hy | [<- | []]].
    + now apply Hall.
    + exists k. split; [exact Ex |]. rewrite lex_refl. discriminate.
  - right. exists x. split; [apply in_or_app; right; now left | exact Ex].
Qed.

Lemma max_step_inv seen h x :
  max_inv seen h -> PrimFloat.is_nan x = false ->
  max_inv (seen ++ [x]) (JS.max_step h x).
Proof.
  intros Hinv Hx.
  pose proof Hinv as (kh & Eh & Hall & Hwit).
  destruct (not_nan_key x Hx) as [kx Ex].
  unfold JS.max_step. rewrite (key_not_nan h kh Eh), Hx. simpl.
  destruct (JS.is_pos_zero x && JS.is_neg_zero h) eqn:Ez.
  - apply andb_true_iff in Ez. destruct Ez as [Zx Zh].
    apply (max_inv_same_key seen h x (0, 0, 0)); auto using pos_zero_key, neg_zero_key.
  - rewrite ltb_keys, Eh, Ex. simpl.
    destruct (lex kh kx) eqn:Ecmp.
    + (* equal keys: highest stays *)
      apply lex_eq in Ecmp. subst kx.
      exists kh. split; [exact Eh |]. split.
      * intros y Hy. apply in_app_or in Hy. destruct Hy as [Hy | [<- | []]].
        -- now apply Hall.
        -- exists kh. split; [exact Ex |]. rewrite lex_refl. discriminate.
      * right. exists x. split; [apply in_or_app; right; now left | exact Ex].
    + (* strictly larger: the new number wins *)
      exists kx. split; [exact Ex |]. split.
      * intros y Hy. apply in_app_or in Hy. destruct Hy as [Hy | [<- | []]].
        -- destruct (Hall y Hy) as (ky & Ey & Hle). exists ky. split; [exact Ey |].
           rewrite (lex_le_lt_trans ky kh kx Hle Ecmp). discriminate.
        -- exists kx. split; [exact Ex |]. rewrite lex_refl. discriminate.
      * right. exists x. split; [apply in_or_app; right; now left | exact Ex].
    + (* smaller: highest stays, unless nothing was seen and x is -Infinity *)
      exists kh. split; [exact Eh |]. split.
      * intros y Hy. apply in_app_or in Hy. destruct Hy as [Hy | [<- | []]].
        -- now apply Hall.
        -- exists kx. split; [exact Ex |].
           rewrite (lex_antisym kh kx), Ecmp. discriminate.
      * destruct Hwit as [[-> ->] | (y & Hy & Ey)].
        -- exfalso. rewrite key_neg_infinity in Eh. inversion Eh; subst kh.
           now apply (ord_lower (Prim2SF x) kx Ex).
        -- right. exists y. split; [apply in_or_app; now left | exact Ey].
Qed.

Lemma fold_max_inv l : forall seen h,
  Forall (fun x => PrimFloat.is_nan x = false) l ->
  max_inv seen h -> max_inv (seen ++ l) (fold_left JS.max_step l h).
Proof.
  induction l as [|x l IH]; intros seen h Hl Hinv; simpl.
  - now rewrite app_nil_r.
  - inversion Hl; subst.
    replace (seen ++ x :: l) with ((seen ++ [x]) ++ l)
      by (now rewrite <- app_assoc).
    apply IH; [assumption |]. now apply max_step_inv.
Qed.

Lemma Math_max_inv l :
  Forall (fun x => PrimFloat.is_nan x = false) l -> max_inv l (JS.Math_max l).
Proof.
  intros Hl. unfold JS.Math_max.
  apply (fold_max_inv l [] PrimFloat.neg_infinity Hl).
  exists (-2, 0, 0). split; [reflexivity |]. split; [intros x [] |].
  left. split; reflexivity.
Qed.

Lemma get_cons_0 {A} (a : A) l : JS.get (a :: l) 0 = Some a.
Proof. reflexivity. Qed.

Lemma get_cons_pos {A} (a : A) l j : 0 < j -> JS.get (a :: l) j = JS.get l (j - 1).
Proof.
  intros Hj. unfold JS.get.
  destruct (Z.ltb_spec j 0), (Z.ltb_spec (j - 1) 0); try lia.
  replace (Z.to_nat j) with (Datatypes.S (Z.to_nat (j - 1))) by lia.
  reflexivity.
Qed.

Lemma indexOf_from_first l m : forall k0,
  (exists x, In x l /\ PrimFloat.eqb x m = true) ->
  exists y,
    k0 <= JS.indexOf_from l m k0 /\
    JS.get l (JS.indexOf_from l m k0 - k0) = Some y /\
    PrimFloat.eqb y m = true /\
    forall j x, 0 <= j < JS.indexOf_from l m k0 - k0 ->
      JS.get l j = Some x -> PrimFloat.eqb x m = false.
Proof.
  induction l as [|a l IH]; intros k0 (x & Hin & Hx); [destruct Hin |].
  simpl JS.indexOf_from. destruct (PrimFloat.eqb a m) eqn:Ea.
  - exists a. rewrite Z.sub_diag. repeat split; auto; try lia.
  - destruct Hin as [-> | Hin]; [congruence |].
    destruct (IH (k0 + 1)) as (y & Hk & Hy & Hym & Hbefore); [now exists x |].
    exists y. split; [lia |]. split.
    + rewrite get_cons_pos by lia.
      now replace (JS.indexOf_from l m (k0 + 1) - k0 - 1)
        with (JS.indexOf_from l m (k0 + 1) - (k0 + 1)) by lia.
    + split; [exact Hym |]. intros j z Hj Hz.
      destruct (Z.eq_dec j 0) as [-> | Hj0].
      * rewrite get_cons_0 in Hz. congruence.
      * rewrite get_cons_pos in Hz by lia. apply (Hbefore (j - 1)); [lia | exact Hz].
Qed.

(** C8. For a non-empty probability vector without NaN, the label computed
    by the prediction handler is an index of the vector, the entry there is
    at least every entry, and every entry at a lower index is strictly
    smaller: the label is the first index of the maximum. *)
Theorem label_is_first_argmax (probabilities : list float) :
  probabilities <> [] ->
  Forall (fun x => PrimFloat.is_nan x = false) probabilities ->
  exists top,
    JS.get probabilities (CNNDemo.predicted_label probabilities) = Some top /\
    (forall j x, JS.get probabilities j = Some x -> PrimFloat.leb x top = true) /\
    (forall j x, 0 <= j < CNNDemo.predicted_label probabilities ->
       JS.get probabilities j = Some x -> PrimFloat.ltb x top = true).
Proof.
  intros Hne Hnan.
  destruct (Math_max_inv probabilities Hnan) as (km & Em & Hall & Hwit).
  destruct Hwit as [[-> _] | (w & Hw & Ew)]; [congruence |].
  destruct (indexOf_from_first probabilities (JS.Math_max probabilities) 0)
    as (top & _ & Htop & Heq & Hbefore).
  { exists w. split; [exact Hw |]. now apply (same_key_eqb w _ km). }
  rewrite Z.sub_0_r in Htop, Hbefore. fold (JS.indexOf probabilities (JS.Math_max probabilities)) in *.
  fold (CNNDemo.predicted_label probabilities) in *.
  destruct (eqb_same_key _ _ Heq) as (k & Etop & Em').
  rewrite Em in Em'. inversion Em'; subst k.
  exists top. split; [exact Htop |]. split.
  - intros j x Hx. destruct (Hall x) as (kx & Ex & Hle).
    { unfold JS.get in Hx. destruct (j <? 0); [discriminate |].
      now apply nth_error_In in Hx. }
    rewrite leb_keys, Ex, Etop. simpl. now destruct (lex kx km).
  - intros j x Hj Hx. destruct (Hall x) as (kx & Ex & Hle).
    { unfold JS.get in Hx. destruct (j <? 0); [discriminate |].
      now apply nth_error_In in Hx. }
    specialize (Hbefore j x Hj Hx).
    rewrite eqb_keys, Ex, Em in Hbefore. simpl in Hbefore.
    rewrite ltb_keys, Ex, Etop. simpl.
    now destruct (lex kx km).
Qed.

End Prediction.

(* ================================================================== *)
(** * Grid extraction                                                 *)
(* ================================================================== *)

Section Grid.
Import JS Spec CnnModel Examples.

Lemma imageDataToGrid_eq (img : ImageData) (N : Z) :
  imageDataToGrid img N =
  Normal
    (map (fun i =>
       map (fun j =>
         normalize (red img ((width img - N) / 2 + j) ((height img - N) / 2 + i)))
         (range N))
       (range N)).
Proof.
  unfold imageDataToGrid. f_equal. cbv zeta.
  etransitivity;
    [exact (for_lt_push
              (fun i =>
                 for_lt N (fun j row =>
                   push row
                     (normalize
                        (get (data img)
                           ((((height img - N) / 2 + i) * width img
                             + ((width img - N) / 2 + j)) * 4))))
                   [])
              N []) |].
  simpl app. apply map_ext. intros i.
  exact (for_lt_push
           (fun j => normalize (red img ((width img - N) / 2 + j)
                                        ((height img - N) / 2 + i))) N []).
Qed.

Lemma grid_of_map_shape {A : Type} (f : Z -> Z -> A) (N : Z) :
  0 <= N ->
  grid_shape (map (fun i => map (fun j => f i j) (range N)) (range N)) N N.
Proof.
  intros HN. split.
  - unfold JS.length. rewrite length_map. now apply length_range.
  - apply Forall_forall. intros row Hrow. apply in_map_iff in Hrow.
    destruct Hrow as (i & <- & _).
    unfold JS.length. rewrite length_map. now apply length_range.
Qed.

Lemma entry_of_map (f : Z -> Z -> float) (N i j : Z) :
  0 <= i < N -> 0 <= j < N ->
  entry (map (fun i => map (fun j => f i j) (range N)) (range N)) i j = f i j.
Proof.
  intros Hi Hj. unfold entry.
  rewrite get_map, get_range by exact Hi. simpl.
  rewrite get_map, get_range by exact Hj. reflexivity.
Qed.

(** Every byte divided by 255 lies between 0 and 1 as a double. *)
Lemma normalize_byte_range (r : Z) :
  0 <= r <= 255 ->
  PrimFloat.leb PrimFloat.zero (PrimFloat.div (of_Z r) (of_Z 255)) = true /\
  PrimFloat.leb (PrimFloat.div (of_Z r) (of_Z 255)) PrimFloat.one = true.
Proof.
  intros Hr.
  assert (Hall :
    forallb (fun v =>
      PrimFloat.leb PrimFloat.zero (PrimFloat.div (of_Z v) (of_Z 255))
      && PrimFloat.leb (PrimFloat.div (of_Z v) (of_Z 255)) PrimFloat.one)
      (range 256) = true) by (vm_compute; reflexivity).
  rewrite forallb_forall in Hall.
  specialize (Hall r). apply andb_true_iff. apply Hall. apply In_range. lia.
Qed.

Lemma red_of_wf (img : ImageData) (x y : Z) :
  wf_ImageData img -> 0 <= x < width img -> 0 <= y < height img ->
  exists r, red img x y = Some r /\ 0 <= r <= 255.
Proof.
  intros (Hw & Hh & Hlen & Hbytes) Hx Hy. unfold red.
  destruct (get_Some_range (data img) ((y * width img + x) * 4)) as [r Er];
    [rewrite Hlen; nia |].
  exists r. split; [exact Er |].
  rewrite Forall_forall in Hbytes. apply Hbytes. now apply get_In in Er.
Qed.

(** C6. For every well-formed ImageData of width W and height H and every
    window size N with 0 <= N <= W and N <= H, [imageDataToGrid] returns a
    grid of exactly N rows of N columns; the value at (i, j) is the red
    channel of pixel (floor((W - N)/2) + j, floor((H - N)/2) + i) divided by
    255, and it lies in [0, 1]. *)
Theorem grid_extraction (img : ImageData) (N : Z) :
  wf_ImageData img -> 0 <= N -> N <= width img -> N <= height img ->
  exists g,
    imageDataToGrid img N = Normal g /\
    grid_shape g N N /\
    forall i j, 0 <= i < N -> 0 <= j < N ->
      exists r,
        red img ((width img - N) / 2 + j) ((height img - N) / 2 + i) = Some r /\
        entry g i j = PrimFloat.div (of_Z r) (of_Z 255) /\
        PrimFloat.leb PrimFloat.zero (entry g i j) = true /\
        PrimFloat.leb (entry g i j) PrimFloat.one = true.
Proof.
  intros Hwf HN HW HH. eexists. split; [apply imageDataToGrid_eq |].
  split.
  - exact (grid_of_map_shape
             (fun i j => normalize (red img ((width img - N) / 2 + j)
                                            ((height img - N) / 2 + i))) N HN).
  - intros i j Hi Hj.
    destruct (red_of_wf img ((width img - N) / 2 + j) ((height img - N) / 2 + i) Hwf)
      as (r & Er & Hr).
    { assert (0 <= (width img - N) / 2 <= width img - N)
        by (split; [apply Z.div_pos | apply Z.div_le_upper_bound]; lia). lia. }
    { assert (0 <= (height img - N) / 2 <= height img - N)
        by (split; [apply Z.div_pos | apply Z.div_le_upper_bound]; lia). lia. }
    exists r. split; [exact Er |].
    rewrite (entry_of_map
               (fun i j => normalize (red img ((width img - N) / 2 + j)
                                              ((height img - N) / 2 + i)))
               N i j Hi Hj).
    rewrite Er. simpl normalize.
    split; [reflexivity |]. now apply normalize_byte_range.
Qed.

(** C7, as the code has it.  [imageDataToGrid] checks nothing and never
    throws: for every image and every N >= 0, also when N exceeds the width
    or the height, it returns a grid of N rows of N columns; entry (i, j) is
    the byte at index ((startY + i) * W + startX + j) * 4 of the pixel buffer
    divided by 255, and NaN when that index lies outside the buffer. *)
Theorem grid_extraction_unchecked (img : ImageData) (N : Z) :
  0 <= N ->
  exists g,
    imageDataToGrid img N = Normal g /\
    grid_shape g N N /\
    forall i j, 0 <= i < N -> 0 <= j < N ->
      entry g i j =
      match red img ((width img - N) / 2 + j) ((height img - N) / 2 + i) with
      | Some r => PrimFloat.div (of_Z r) (of_Z 255)
      | None => PrimFloat.nan
      end.
Proof.
  intros HN. eexists. split; [apply imageDataToGrid_eq |].
  split.
  - exact (grid_of_map_shape
             (fun i j => normalize (red img ((width img - N) / 2 + j)
                                            ((height img - N) / 2 + i))) N HN).
  - intros i j Hi Hj.
    rewrite (entry_of_map
               (fun i j => normalize (red img ((width img - N) / 2 + j)
                                              ((height img - N) / 2 + i)))
               N i j Hi Hj).
    now destruct (red img _ _).
Qed.

(** C7 as stated fails: with N = 3 on a 2x2 image the call returns a grid,
    NaN where it read outside the buffer; no error is raised. *)
Lemma grid_extraction_no_rejection :
  3 > width tiny /\ 3 > height tiny /\
  (forall e, imageDataToGrid tiny 3 <> Throw e) /\
  imageDataToGrid tiny 3 =
  Normal [[PrimFloat.nan; PrimFloat.nan; PrimFloat.nan];
          [PrimFloat.nan; normalize (Some 10); normalize (Some 20)];
          [normalize (Some 20); normalize (Some 30); normalize (Some 255)]].
Proof.
  split; [reflexivity |]. split; [reflexivity |].
  split; [intros e; vm_compute; discriminate | vm_compute; reflexivity].
Qed.

End Grid.

(* ================================================================== *)
(** * Centring the drawn digit                                        *)
(* ================================================================== *)

Section Preprocess.
Import JS Spec CnnModel Centring Examples.

Lemma above_threshold_lit (img : ImageData) (x y : Z) :
  0 <= x < width img -> 0 <= y < height img ->
  (above_threshold (get (data img) ((y * width img + x) * 4)) = true
   <-> lit img x y).
Proof.
  intros Hx Hy. unfold lit, red, above_threshold. split.
  - destruct (get (data img) _) as [r|]; [| discriminate].
    intros Hr. apply Z.ltb_lt in Hr. repeat split; try lia. now exists r.
  - intros (_ & _ & r & -> & Hr). now apply Z.ltb_lt.
Qed.

Lemma scan_inv_ext (img : ImageData) (R R' : Z -> Z -> Prop) (b : bbox) :
  (forall x y, R x y <-> R' x y) -> scan_inv img R b -> scan_inv img R' b.
Proof.
  intros Hext [Hno Hyes]. split.
  - intros Hb. destruct (Hno Hb) as [-> Hnone]. split; [reflexivity |].
    intros x y Hr. apply (Hnone x y). now apply Hext.
  - intros Hb. destruct (Hyes Hb) as (Hin & [y0 H0] & [y1 H1] & [x2 H2] & [x3 H3]).
    repeat split; try (intros; apply (Hin x y); now apply Hext).
    + exists y0. now apply Hext.
    + exists y1. now apply Hext.
    + exists x2. now apply Hext.
    + exists x3. now apply Hext.
Qed.

Lemma scan_pixel_inv (img : ImageData) (R R' : Z -> Z -> Prop)
    (b : bbox) (x0 y0 : Z) :
  0 <= x0 < width img -> 0 <= y0 < height img ->
  (forall x y, R' x y <-> R x y \/ (x = x0 /\ y = y0 /\ lit img x0 y0)) ->
  scan_inv img R b -> scan_inv img R' (scan_pixel img y0 x0 b).
Proof.
  intros Hx0 Hy0 HR' Hinv. unfold scan_pixel.
  destruct (above_threshold _) eqn:Ea.
  - apply (above_threshold_lit img x0 y0 Hx0 Hy0) in Ea.
    assert (Hnew : R' x0 y0) by (apply HR'; right; auto).
    destruct Hinv as [Hno Hyes]. split; [discriminate |]. intros _. simpl.
    destruct (hasPixels b) eqn:Eb.
    + destruct (Hyes eq_refl) as (Hin & [ya Ha] & [yb Hb] & [xc Hc] & [xd Hd]).
      repeat split.
      * apply HR' in H. destruct H as [H | (-> & -> & _)].
        -- apply Hin in H. destruct (Z.ltb_spec x0 (minX b)); lia.
        -- destruct (Z.ltb_spec x0 (minX b)); lia.
      * apply HR' in H. destruct H as [H | (-> & -> & _)].
        -- apply Hin in H. destruct (Z.ltb_spec (maxX b) x0); lia.
        -- destruct (Z.ltb_spec (maxX b) x0); lia.
      * apply HR' in H. destruct H as [H | (-> & -> & _)].
        -- apply Hin in H. destruct (Z.ltb_spec y0 (minY b)); lia.
        -- destruct (Z.ltb_spec y0 (minY b)); lia.
      * apply HR' in H. destruct H as [H | (-> & -> & _)].
        -- apply Hin in H. destruct (Z.ltb_spec (maxY b) y0); lia.
        -- destruct (Z.ltb_spec (maxY b) y0); lia.
      * destruct (Z.ltb_spec x0 (minX b));
          [now exists y0 | exists ya; apply HR'; now left].
      * destruct (Z.ltb_spec (maxX b) x0);
          [now exists y0 | exists yb; apply HR'; now left].
      * destruct (Z.ltb_spec y0 (minY b));
          [now exists x0 | exists xc; apply HR'; now left].
      * destruct (Z.ltb_spec (maxY b) y0);
          [now exists x0 | exists xd; apply HR'; now left].
    + destruct (Hno eq_refl) as [-> Hnone]. simpl.
      assert (Hmin : (if x0 <? width img then x0 else width img) = x0)
        by (destruct (Z.ltb_spec x0 (width img)); lia).
      assert (Hmax : (if 0 <? x0 then x0 else 0) = x0)
        by (destruct (Z.ltb_spec 0 x0); lia).
      assert (Hminy : (if y0 <? height img then y0 else height img) = y0)
        by (destruct (Z.ltb_spec y0 (height img)); lia).
      assert (Hmaxy : (if 0 <? y0 then y0 else 0) = y0)
        by (destruct (Z.ltb_spec 0 y0); lia).
      rewrite Hmin, Hmax, Hminy, Hmaxy.
      repeat split;
        try (apply HR' in H; destruct H as [H | (-> & -> & _)];
             [now apply Hnone in H | lia]).
      * now exists y0.
      * now exists y0.
      * now exists x0.
      * now exists x0.
  - apply (scan_inv_ext img R R'); [| exact Hinv].
    intros x y. rewrite HR'. split; [now left |].
    intros [H | (_ & _ & Hl)]; [exact H |].
    apply (above_threshold_lit img x0 y0 Hx0 Hy0) in Hl. congruence.
Qed.

Lemma scan_row_inv (img : ImageData) (y0 : Z) (b : bbox) :
  0 <= y0 < height img ->
  scan_inv img (lit_before img y0 0) b ->
  scan_inv img (lit_before img (y0 + 1) 0)
    (for_lt (width img) (fun x b => scan_pixel img y0 x b) b).
Proof.
  intros Hy0 Hinv.
  destruct (Z.le_gt_cases (width img) 0) as [Hw|Hw].
  - rewrite for_lt_nonpos by exact Hw.
    apply (scan_inv_ext img (lit_before img y0 0)); [| exact Hinv].
    intros x y. unfold lit_before, lit. split; intros; exfalso; lia.
  - apply (scan_inv_ext img (lit_before img y0 (width img))).
    { intros x y. unfold lit_before, lit. split; intros (Hl & Hpos); (split; [exact Hl | lia]). }
    apply (for_lt_inv (fun x0 b => scan_inv img (lit_before img y0 x0) b));
      [lia | exact Hinv |].
    intros x0 t Hx0 Ht.
    apply (scan_pixel_inv img (lit_before img y0 x0)); auto.
    intros x y. unfold lit_before. split.
    + intros (Hl & Hpos).
      destruct (Z.eq_dec x x0) as [-> | Hne].
      * destruct (Z.eq_dec y y0) as [-> | Hney];
          [right; auto | left; split; [exact Hl | lia]].
      * left. split; [exact Hl | lia].
    + intros [(Hl & Hpos) | (-> & -> & Hl)]; (split; [exact Hl | lia]).
Qed.

Lemma scan_spec (img : ImageData) : scan_inv img (lit img) (scan img).
Proof.
  unfold scan.
  set (init := {| minX := width img; minY := height img;
                  maxX := 0; maxY := 0; hasPixels := false |}).
  assert (Hinit : scan_inv img (lit_before img 0 0) init).
  { split; [| discriminate]. intros _. split; [reflexivity |].
    intros x y (Hl & Hpos). unfold lit in Hl. lia. }
  destruct (Z.le_gt_cases (height img) 0) as [Hh|Hh].
  - rewrite for_lt_nonpos by exact Hh.
    apply (scan_inv_ext img (lit_before img 0 0)); [| exact Hinit].
    intros x y. unfold lit_before, lit. split; intros; exfalso; lia.
  - apply (scan_inv_ext img (lit_before img (height img) 0)).
    { intros x y. unfold lit_before. split; [now intros [Hl _] |].
      intros Hl. split; [exact Hl |]. unfold lit in Hl. lia. }
    apply (for_lt_inv (fun y0 b => scan_inv img (lit_before img y0 0) b));
      [lia | exact Hinit |].
    intros y0 t Hy0 Ht. now apply scan_row_inv.
Qed.

Lemma scan_no_foreground (img : ImageData) :
  (forall x y, ~ lit img x y) -> hasPixels (scan img) = false.
Proof.
  intros Hnone. destruct (scan_spec img) as [_ Hyes].
  destruct (hasPixels (scan img)); [| reflexivity].
  destruct (Hyes eq_refl) as (_ & [y Hy] & _). now apply Hnone in Hy.
Qed.

Lemma scan_foreground (img : ImageData) :
  (exists x y, lit img x y) ->
  hasPixels (scan img) = true /\
  tight_bbox img (minX (scan img)) (minY (scan img))
                 (maxX (scan img)) (maxY (scan img)).
Proof.
  intros (x & y & Hl). destruct (scan_spec img) as [Hno Hyes].
  destruct (hasPixels (scan img)) eqn:Eb.
  - split; [reflexivity |]. exact (Hyes eq_refl).
  - destruct (Hno eq_refl) as [_ Hnone]. now apply Hnone in Hl.
Qed.

Lemma tight_bbox_unique (img : ImageData) (x0 y0 x1 y1 x0' y0' x1' y1' : Z) :
  tight_bbox img x0 y0 x1 y1 -> tight_bbox img x0' y0' x1' y1' ->
  x0 = x0' /\ y0 = y0' /\ x1 = x1' /\ y1 = y1'.
Proof.
  intros (Hin & [a Ha] & [b Hb] & [c Hc] & [d Hd])
         (Hin' & [a' Ha'] & [b' Hb'] & [c' Hc'] & [d' Hd']).
  pose proof (Hin _ _ Ha'). pose proof (Hin _ _ Hb').
  pose proof (Hin _ _ Hc'). pose proof (Hin _ _ Hd').
  pose proof (Hin' _ _ Ha). pose proof (Hin' _ _ Hb).
  pose proof (Hin' _ _ Hc). pose proof (Hin' _ _ Hd). lia.
Qed.


(** *** Painting *)

Lemma paint_data (c : ImageData) (f : Z -> Z -> pixel -> pixel) :
  data (paint c f) =
  flat_map (fun y =>
    flat_map (fun x => pixel_bytes (f x y (pixel_at c x y))) (range (width c)))
    (range (height c)).
Proof.
  unfold paint. simpl data.
  etransitivity.
  - apply for_lt_ext. intros y acc.
    exact (for_lt_append
             (fun x => pixel_bytes (f x y (pixel_at c x y))) (width c) acc).
  - exact (for_lt_append
             (fun y => flat_map (fun x => pixel_bytes (f x y (pixel_at c x y)))
                         (range (width c)))
             (height c) []).
Qed.

Lemma length_pixel_bytes (p : pixel) : JS.length (pixel_bytes p) = 4.
Proof. now destruct p as [[[r g] b] a]. Qed.

Lemma length_paint (c : ImageData) (f : Z -> Z -> pixel -> pixel) :
  0 <= width c -> 0 <= height c ->
  JS.length (data (paint c f)) = 4 * width c * height c.
Proof.
  intros Hw Hh. rewrite paint_data.
  rewrite (length_flat_map_chunks _ (width c * 4)); [lia | exact Hh |].
  intros y _. apply length_flat_map_chunks; [exact Hw |].
  intros x _. apply length_pixel_bytes.
Qed.

Lemma channel_of_paint (c : ImageData) (f : Z -> Z -> pixel -> pixel)
    (x y k : Z) :
  0 <= x < width c -> 0 <= y < height c -> 0 <= k < 4 ->
  get (data (paint c f)) ((y * width c + x) * 4 + k) =
  get (pixel_bytes (f x y (pixel_at c x y))) k.
Proof.
  intros Hx Hy Hk. rewrite paint_data.
  replace ((y * width c + x) * 4 + k) with (y * (width c * 4) + (x * 4 + k))
    by lia.
  rewrite (get_flat_map_chunks _ (width c * 4)); try lia.
  - apply (get_flat_map_chunks
             (fun x => pixel_bytes (f x y (pixel_at c x y))) 4); try lia.
    intros i _. apply length_pixel_bytes.
  - intros i _. apply length_flat_map_chunks; [lia |].
    intros j _. apply length_pixel_bytes.
Qed.

Lemma pixel_at_paint (c : ImageData) (f : Z -> Z -> pixel -> pixel) (x y : Z) :
  0 <= x < width c -> 0 <= y < height c ->
  pixel_at (paint c f) x y = f x y (pixel_at c x y).
Proof.
  intros Hx Hy. unfold pixel_at at 1.
  change (width (paint c f)) with (width c).
  rewrite !(channel_of_paint c f x y) by lia.
  now destruct (f x y (pixel_at c x y)) as [[[r g] b] a].
Qed.

Lemma pixel_at_black_canvas (x y : Z) :
  0 <= x < 28 -> 0 <= y < 28 -> pixel_at black_canvas x y = black.
Proof.
  intros Hx Hy. unfold black_canvas, fillRect_black.
  rewrite pixel_at_paint by (simpl; lia).
  destruct (Z.leb_spec 0 x), (Z.ltb_spec x (0 + 28)),
           (Z.leb_spec 0 y), (Z.ltb_spec y (0 + 28)); try lia.
  reflexivity.
Qed.

Lemma preprocess_of_scan (B : Browser) (img : ImageData) :
  hasPixels (scan img) = true ->
  canvas_context B = true -> tempCanvas_context B = true ->
  preprocessImage B img =
  drawImage B black_canvas img
    (minX (scan img)) (minY (scan img))
    (maxX (scan img) - minX (scan img) + 1)
    (maxY (scan img) - minY (scan img) + 1)
    (centre_offset
       (scaled (maxX (scan img) - minX (scan img) + 1)
          (fit_scale (maxX (scan img) - minX (scan img) + 1)
                     (maxY (scan img) - minY (scan img) + 1))))
    (centre_offset
       (scaled (maxY (scan img) - minY (scan img) + 1)
          (fit_scale (maxX (scan img) - minX (scan img) + 1)
                     (maxY (scan img) - minY (scan img) + 1))))
    (scaled (maxX (scan img) - minX (scan img) + 1)
       (fit_scale (maxX (scan img) - minX (scan img) + 1)
                  (maxY (scan img) - minY (scan img) + 1)))
    (scaled (maxY (scan img) - minY (scan img) + 1)
       (fit_scale (maxX (scan img) - minX (scan img) + 1)
                  (maxY (scan img) - minY (scan img) + 1))).
Proof.
  intros Hb Hc Ht. unfold preprocessImage. rewrite Hb, Hc, Ht. reflexivity.
Qed.

(** C4. When no pixel of the image has a red channel above 50,
    [preprocessImage] returns the input image itself. *)
Theorem preprocess_blank_unchanged (B : Browser) (img : ImageData) :
  (forall x y r, 0 <= x < width img -> 0 <= y < height img ->
     red img x y = Some r -> r <= 50) ->
  preprocessImage B img = img.
Proof.
  intros Hlow. unfold preprocessImage.
  rewrite scan_no_foreground; [reflexivity |].
  intros x y (Hx & Hy & r & Er & Hr).
  specialize (Hlow x y r Hx Hy Er). lia.
Qed.

(** C5. When some pixel is above the threshold (and the browser hands out
    the two 2D contexts), [preprocessImage] takes the tight bounding box of
    the foreground, the scale min(20 / bboxWidth, 20 / bboxHeight), the
    scaled dimensions floor(dimension * scale) and the offsets
    floor((28 - scaledDimension) / 2), and draws the box into that
    destination rectangle of a black 28x28 canvas: the result is 28x28, its
    pixels outside the rectangle are background and those inside are the
    resampled content. *)
Theorem preprocess_scales_and_centres (B : Browser) (img : ImageData) :
  canvas_context B = true -> tempCanvas_context B = true ->
  (exists x y, lit img x y) ->
  exists x0 y0 x1 y1 scale,
    tight_bbox img x0 y0 x1 y1 /\
    scale = fit_scale (x1 - x0 + 1) (y1 - y0 + 1) /\
    preprocessImage B img =
    drawImage B black_canvas img x0 y0 (x1 - x0 + 1) (y1 - y0 + 1)
      (centre_offset (scaled (x1 - x0 + 1) scale))
      (centre_offset (scaled (y1 - y0 + 1) scale))
      (scaled (x1 - x0 + 1) scale) (scaled (y1 - y0 + 1) scale) /\
    width (preprocessImage B img) = 28 /\
    height (preprocessImage B img) = 28 /\
    JS.length (data (preprocessImage B img)) = 4 * 28 * 28 /\
    forall x y, 0 <= x < 28 -> 0 <= y < 28 ->
      pixel_at (preprocessImage B img) x y =
      if in_dest (centre_offset (scaled (x1 - x0 + 1) scale))
                 (centre_offset (scaled (y1 - y0 + 1) scale))
                 (scaled (x1 - x0 + 1) scale) (scaled (y1 - y0 + 1) scale) x y
      then resample B img (x0, y0, x1 - x0 + 1, y1 - y0 + 1)
             (centre_offset (scaled (x1 - x0 + 1) scale),
              centre_offset (scaled (y1 - y0 + 1) scale),
              scaled (x1 - x0 + 1) scale, scaled (y1 - y0 + 1) scale)
             x y black
      else black.
Proof.
  intros Hc Ht Hlit.
  destruct (scan_foreground img Hlit) as [Hb Htight].
  exists (minX (scan img)), (minY (scan img)), (maxX (scan img)), (maxY (scan img)).
  eexists. split; [exact Htight |]. split; [reflexivity |].
  rewrite (preprocess_of_scan B img Hb Hc Ht).
  assert (Hdims : 1 <= maxX (scan img) - minX (scan img) + 1 /\
                  1 <= maxY (scan img) - minY (scan img) + 1).
  { destruct Htight as (Hin & [ya Ha] & _ & [xc Hc'] & _).
    apply Hin in Ha. apply Hin in Hc'. lia. }
  split; [reflexivity |].
  unfold drawImage.
  destruct (Z.eqb_spec (maxX (scan img) - minX (scan img) + 1) 0); [lia |].
  destruct (Z.eqb_spec (maxY (scan img) - minY (scan img) + 1) 0); [lia |].
  simpl orb. cbv iota.
  split; [reflexivity |]. split; [reflexivity |].
  split; [apply length_paint; simpl; lia |].
  intros x y Hx Hy.
  rewrite pixel_at_paint by (simpl; lia).
  now rewrite pixel_at_black_canvas.
Qed.

Lemma black_canvas_dark (x y : Z) : ~ lit black_canvas x y.
Proof.
  destruct (scan_spec black_canvas) as [Hno _].
  assert (Hb : hasPixels (scan black_canvas) = false) by (vm_compute; reflexivity).
  destruct (Hno Hb) as [_ Hnone]. apply Hnone.
Qed.

Ltac split_cases H :=
  repeat match type of H with
         | _ \/ _ => destruct H as [H | H]
         end.

(** C10. When the foreground's tight bounding box is 1 wide and more than 20
    (at most 28) tall, or 1 tall and more than 20 (at most 28) wide, the
    image is not empty, the scale is 20 over the long side (20/28 for a
    1x28 box), the scaled short side is floor(1 * scale) = 0, and the
    returned image is the black 28x28 canvas: it has no pixel above the
    threshold. *)
Theorem preprocess_erases_thin_strokes (B : Browser) (img : ImageData)
    (x0 y0 x1 y1 : Z) :
  canvas_context B = true -> tempCanvas_context B = true ->
  tight_bbox img x0 y0 x1 y1 ->
  (x1 - x0 + 1 = 1 /\ 20 < y1 - y0 + 1 <= 28) \/
  (20 < x1 - x0 + 1 <= 28 /\ y1 - y0 + 1 = 1) ->
  (exists x y, lit img x y) /\
  fit_scale (x1 - x0 + 1) (y1 - y0 + 1) =
  PrimFloat.div (of_Z 20) (of_Z (Z.max (x1 - x0 + 1) (y1 - y0 + 1))) /\
  (scaled (x1 - x0 + 1) (fit_scale (x1 - x0 + 1) (y1 - y0 + 1)) = PrimFloat.zero \/
   scaled (y1 - y0 + 1) (fit_scale (x1 - x0 + 1) (y1 - y0 + 1)) = PrimFloat.zero) /\
  preprocessImage B img = black_canvas /\
  forall x y, ~ lit (preprocessImage B img) x y.
Proof.
  intros Hc Ht Htight Hthin.
  assert (Hlit : exists x y, lit img x y).
  { destruct Htight as (_ & [y Hy] & _). now exists x0, y. }
  destruct (scan_foreground img Hlit) as [Hb Hscan].
  destruct (tight_bbox_unique img _ _ _ _ _ _ _ _ Hscan Htight)
    as (E0 & E1 & E2 & E3).
  assert (Hcases :
    (x1 - x0 + 1 = 1 /\
     (y1 - y0 + 1 = 21 \/ y1 - y0 + 1 = 22 \/ y1 - y0 + 1 = 23 \/
      y1 - y0 + 1 = 24 \/ y1 - y0 + 1 = 25 \/ y1 - y0 + 1 = 26 \/
      y1 - y0 + 1 = 27 \/ y1 - y0 + 1 = 28)) \/
    (y1 - y0 + 1 = 1 /\
     (x1 - x0 + 1 = 21 \/ x1 - x0 + 1 = 22 \/ x1 - x0 + 1 = 23 \/
      x1 - x0 + 1 = 24 \/ x1 - x0 + 1 = 25 \/ x1 - x0 + 1 = 26 \/
      x1 - x0 + 1 = 27 \/ x1 - x0 + 1 = 28))) by lia.
  clear Hthin.
  assert (Hout : preprocessImage B img = black_canvas).
  { rewrite (preprocess_of_scan B img Hb Hc Ht). rewrite E0, E1, E2, E3.
    destruct Hcases as [[-> Hlong] | [-> Hlong]]; split_cases Hlong;
      rewrite Hlong; vm_compute; reflexivity. }
  split; [exact Hlit |].
  split; [destruct Hcases as [[-> Hlong] | [-> Hlong]]; split_cases Hlong;
          rewrite Hlong; vm_compute; reflexivity |].
  split; [destruct Hcases as [[-> Hlong] | [-> Hlong]]; split_cases Hlong;
          rewrite Hlong; [left | left | left | left | left | left | left | left
                          | right | right | right | right | right | right
                          | right | right]; vm_compute; reflexivity |].
  split; [exact Hout |].
  rewrite Hout. apply black_canvas_dark.
Qed.

End Preprocess.

(* ================================================================== *)
(** * The training log                                                *)
(* ================================================================== *)

Section TrainingLog.
Import JS Spec CNNDemo.

Lemma range_app (a b : Z) :
  0 <= a -> 0 <= b -> range (a + b) = range a ++ map (fun e => a + e) (range b).
Proof.
  intros Ha Hb. pattern b. apply natlike_ind; [| | exact Hb].
  - rewrite Z.add_0_r. simpl. now rewrite app_nil_r.
  - intros m Hm IH. unfold Z.succ.
    rewrite Z.add_assoc, !range_succ, IH, map_app by lia.
    simpl. now rewrite app_assoc.
Qed.

Lemma range_increasing (n : Z) : StronglySorted Z.lt (range n).
Proof.
  unfold range. generalize (Z.to_nat n) as len. generalize 0%nat as start.
  intros start len. revert start.
  induction len as [|len IH]; intros start; simpl; constructor.
  - apply IH.
  - apply Forall_forall. intros z Hz. apply in_map_iff in Hz.
    destruct Hz as (k & <- & Hk). apply in_seq in Hk. lia.
Qed.

Lemma length_epochs (logs : list LogEntry) :
  JS.length (epochs logs) = JS.length logs.
Proof. unfold JS.length, epochs. now rewrite length_map. Qed.

Lemma epochs_after_run (delivered : list (option Logs)) (logs : list LogEntry) :
  Forall (fun o => o <> None) delivered ->
  epochs (handleStartTraining true delivered logs) =
  epochs logs ++ map (fun e => JS.length logs + e) (range (JS.length delivered)).
Proof.
  intros Hall. unfold handleStartTraining, trainModel. simpl negb. cbv iota zeta.
  apply (for_lt_inv
           (fun k acc =>
              epochs acc =
              epochs logs ++ map (fun e => JS.length logs + e) (range k))).
  - unfold JS.length. lia.
  - simpl. now rewrite app_nil_r.
  - intros k t Hk Ht.
    destruct (get_Some_range delivered k Hk) as [o Eo].
    rewrite Eo. destruct o as [log|].
    + unfold appendLog, epochs in *. rewrite map_app, Ht. simpl.
      rewrite range_succ, map_app by lia. simpl. now rewrite app_assoc.
    + rewrite Forall_forall in Hall. now apply get_In, Hall in Eo.
Qed.

Lemma run_keeps_numbering (delivered : list (option Logs)) (logs : list LogEntry) :
  Forall (fun o => o <> None) delivered ->
  epochs logs = range (JS.length logs) ->
  epochs (handleStartTraining true delivered logs) =
  range (JS.length logs + JS.length delivered) /\
  JS.length (handleStartTraining true delivered logs) =
  JS.length logs + JS.length delivered.
Proof.
  intros Hall Hnum.
  assert (E : epochs (handleStartTraining true delivered logs) =
              range (JS.length logs + JS.length delivered)).
  { rewrite epochs_after_run, Hnum by exact Hall.
    symmetry. apply range_app; unfold JS.length; lia. }
  split; [exact E |].
  rewrite <- length_epochs, E. apply length_range. unfold JS.length. lia.
Qed.

(** C9. Starting from a log numbered 0, 1, ..., n-1 (empty at first),
    two training runs in succession, each delivering logs for every epoch it
    completes, leave a log whose epoch indices are 0, 1, ..., n + k1 + k2 - 1
    in this order: strictly increasing, without gap and without reset. *)
Theorem training_log_epochs_continue
    (run1 run2 : list (option Logs)) (logs : list LogEntry) :
  epochs logs = range (JS.length logs) ->
  Forall (fun o => o <> None) run1 ->
  Forall (fun o => o <> None) run2 ->
  epochs (handleStartTraining true run2 (handleStartTraining true run1 logs)) =
  range (JS.length logs + JS.length run1 + JS.length run2) /\
  StronglySorted Z.lt
    (epochs (handleStartTraining true run2 (handleStartTraining true run1 logs))).
Proof.
  intros Hnum H1 H2.
  destruct (run_keeps_numbering run1 logs H1 Hnum) as [E1 L1].
  destruct (run_keeps_numbering run2 (handleStartTraining true run1 logs) H2)
    as [E2 _].
  { now rewrite E1, L1. }
  rewrite L1 in E2. split; [exact E2 |]. rewrite E2. apply range_increasing.
Qed.

End TrainingLog.

(* ================================================================== *)
(** * The theorems at concrete inputs                                 *)
(* ================================================================== *)

Section Instances.
Import JS Spec Centring Examples.

Lemma small_replay_input_shape :
  grid_shape (ConvAnimation.inputData small_replay) 3 3.
Proof. split; [reflexivity | repeat constructor]. Qed.

Lemma small_replay_kernel_shape :
  grid_shape (ConvAnimation.kernel small_replay) 2 2.
Proof. split; [reflexivity | repeat constructor]. Qed.

(** Explicit values at three positions of the 3x3 example: top-left,
    top-right (clipped by the rectifier) and bottom-right. *)
Example small_replay_values :
  ConvAnimation.dimensions small_replay = Normal small_dims /\
  (exists r, ConvAnimation.calculateResult small_replay small_dims 0 = Normal r /\
             ConvAnimation.preActivation r = 1%float /\
             ConvAnimation.final r = 1%float) /\
  (exists r, ConvAnimation.calculateResult small_replay small_dims 1 = Normal r /\
             ConvAnimation.preActivation r = (-1.5)%float /\
             ConvAnimation.final r = 0%float) /\
  (exists r, ConvAnimation.calculateResult small_replay small_dims 3 = Normal r /\
             ConvAnimation.preActivation r = 0.75%float /\
             ConvAnimation.final r = 0.75%float) /\
  ConvAnimation.cellVal small_replay small_dims 1 0 0 = Normal 1%float /\
  ConvAnimation.cellVal small_replay small_dims 1 1 1 = Normal 0%float.
Proof.
  split; [reflexivity |].
  repeat split; try (eexists; repeat split; vm_compute; reflexivity);
    vm_compute; reflexivity.
Qed.

(** On the grids the demo can show (output width up to 28, fewer than 784
    steps) the double computation Math.floor(step / outputW) is the integer
    quotient. *)
Example floor_of_quotient_exact :
  forallb (fun w =>
    forallb (fun s =>
      PrimFloat.eqb (Math_floor (PrimFloat.div (of_Z s) (of_Z (w + 1))))
                    (of_Z (s / (w + 1))))
      (range 784))
    (range 28) = true.
Proof. vm_compute. reflexivity. Qed.

Lemma replay_value_witness :
  exists d r,
    ConvAnimation.dimensions small_replay = Normal d /\
    ConvAnimation.calculateResult small_replay d 3 = Normal r /\
    ConvAnimation.final r =
    Math_max [PrimFloat.zero;
              weighted_sum (ConvAnimation.inputData small_replay)
                (ConvAnimation.kernel small_replay)
                (ConvAnimation.bias small_replay) 2 2
                (3 / ConvAnimation.outputW d) (3 mod ConvAnimation.outputW d)].
Proof.
  destruct (replay_value_matches_formula small_replay 3 3 2 2 3
              small_replay_input_shape small_replay_kernel_shape)
    as (d & Hd & (r & Hr & Hf) & _); try lia.
  exists d, r. split; [exact Hd |]. split; [exact Hr | exact Hf].
Defined.

Lemma replay_dimensions_witness :
  exists d,
    ConvAnimation.dimensions small_replay = Normal d /\
    ConvAnimation.outputH d = 2 /\ ConvAnimation.outputW d = 2 /\
    ConvAnimation.totalSteps d = 4 /\
    ConvAnimation.currentY d 3 = Some 1 /\ ConvAnimation.currentX d 3 = Some 1.
Proof.
  destruct (replay_dimensions_and_position small_replay 3 3 2 2
              small_replay_input_shape small_replay_kernel_shape)
    as (d & Hd & Hh & Hw & Ht & Hpos); try lia.
  destruct (Hpos 3) as (Hy & Hx & _); [lia |].
  exists d. repeat split; assumption.
Defined.

Lemma player_step_saturates_witness :
  (forall st, ConvAnimation.reachable 36 st ->
     0 <= ConvAnimation.step st <= 36 - 1) /\
  (forall st,
     ConvAnimation.step
       (Nat.iter (Z.to_nat (36 - 1)) (ConvAnimation.advance 36)
          (ConvAnimation.reset st)) = 36 - 1 /\
     ConvAnimation.isPlaying
       (Nat.iter (Z.to_nat (36 - 1)) (ConvAnimation.advance 36)
          (ConvAnimation.reset st)) = ConvAnimation.isPlaying st) /\
  (forall st, ConvAnimation.step st = 36 - 1 ->
     ConvAnimation.step (ConvAnimation.advance 36 st) = 36 - 1 /\
     ConvAnimation.isPlaying (ConvAnimation.advance 36 st) = false) /\
  (forall st, ConvAnimation.step (ConvAnimation.reset st) = 0).
Proof.
  apply (player_step_saturates 36). lia.
Defined.

Lemma label_is_first_argmax_witness :
  CNNDemo.predicted_label tied_probabilities = 1 /\
  exists top,
    get tied_probabilities (CNNDemo.predicted_label tied_probabilities) = Some top /\
    (forall j x, get tied_probabilities j = Some x -> PrimFloat.leb x top = true) /\
    (forall j x, 0 <= j < CNNDemo.predicted_label tied_probabilities ->
       get tied_probabilities j = Some x -> PrimFloat.ltb x top = true).
Proof.
  split; [vm_compute; reflexivity |].
  apply (label_is_first_argmax tied_probabilities).
  - discriminate.
  - repeat constructor.
Defined.

Lemma tiny_wf : CnnModel.wf_ImageData tiny.
Proof.
  repeat split; try (simpl; lia). repeat constructor; lia.
Qed.

Lemma tiny_lit : exists x y, lit tiny x y.
Proof.
  exists 1, 1. repeat split; try (simpl; lia).
  exists 255. split; [reflexivity | lia].
Qed.

Lemma grid_extraction_witness :
  CnnModel.wf_ImageData tiny /\
  exists g,
    CnnModel.imageDataToGrid tiny 2 = Normal g /\ grid_shape g 2 2 /\
    PrimFloat.leb (entry g 1 1) PrimFloat.one = true.
Proof.
  split; [exact tiny_wf |].
  destruct (grid_extraction tiny 2 tiny_wf) as (g & Hg & Hshape & Hcells);
    try (simpl; lia).
  destruct (Hcells 1 1) as (r & _ & _ & _ & Hle); try lia.
  exists g. repeat split; try assumption; apply Hshape.
Defined.

Lemma grid_extraction_unchecked_witness :
  3 > CnnModel.width tiny /\
  exists g,
    CnnModel.imageDataToGrid tiny 3 = Normal g /\ grid_shape g 3 3 /\
    entry g 0 0 = PrimFloat.nan.
Proof.
  split; [reflexivity |].
  destruct (grid_extraction_unchecked tiny 3) as (g & Hg & Hshape & Hcells);
    [lia |].
  exists g. split; [exact Hg |]. split; [exact Hshape |].
  rewrite (Hcells 0 0) by lia. reflexivity.
Defined.

Lemma dim_image_low (x y r : Z) :
  0 <= x < CnnModel.width dim_image -> 0 <= y < CnnModel.height dim_image ->
  red dim_image x y = Some r -> r <= 50.
Proof.
  simpl. intros Hx Hy.
  assert (Cx : x = 0 \/ x = 1) by lia. assert (Cy : y = 0 \/ y = 1) by lia.
  destruct Cx as [-> | ->], Cy as [-> | ->]; vm_compute; intros E;
    inversion E; discriminate.
Qed.

Lemma preprocess_blank_unchanged_witness :
  CnnModel.preprocessImage white_browser dim_image = dim_image.
Proof.
  apply (preprocess_blank_unchanged white_browser dim_image).
  exact dim_image_low.
Defined.

Lemma preprocess_scales_and_centres_witness :
  CnnModel.width (CnnModel.preprocessImage white_browser tiny) = 28 /\
  CnnModel.height (CnnModel.preprocessImage white_browser tiny) = 28 /\
  JS.length (CnnModel.data (CnnModel.preprocessImage white_browser tiny))
  = 4 * 28 * 28.
Proof.
  destruct (preprocess_scales_and_centres white_browser tiny eq_refl eq_refl
              tiny_lit)
    as (x0 & y0 & x1 & y1 & scale & _ & _ & _ & Hw & Hh & Hlen & _).
  repeat split; assumption.
Defined.

Lemma thin_stroke_bbox : tight_bbox thin_stroke 5 0 5 27.
Proof.
  assert (Hlit : exists x y, lit thin_stroke x y).
  { exists 5, 0. repeat split; try (simpl; lia).
    exists 255. split; [vm_compute; reflexivity | lia]. }
  destruct (scan_foreground thin_stroke Hlit) as [_ Hbox].
  assert (E : CnnModel.scan thin_stroke =
              {| CnnModel.minX := 5; CnnModel.minY := 0;
                 CnnModel.maxX := 5; CnnModel.maxY := 27;
                 CnnModel.hasPixels := true |}) by (vm_compute; reflexivity).
  now rewrite E in Hbox.
Qed.

Lemma preprocess_erases_thin_strokes_witness :
  tight_bbox thin_stroke 5 0 5 27 /\
  CnnModel.preprocessImage white_browser thin_stroke = black_canvas /\
  (forall x y, ~ lit (CnnModel.preprocessImage white_browser thin_stroke) x y).
Proof.
  split; [exact thin_stroke_bbox |].
  destruct (preprocess_erases_thin_strokes white_browser thin_stroke 5 0 5 27
              eq_refl eq_refl thin_stroke_bbox)
    as (_ & _ & _ & Hout & Hdark).
  - left. split; [reflexivity | lia].
  - split; [exact Hout | exact Hdark].
Defined.

(** The same on the transposed stroke: a full-width row one pixel tall. *)
Example flat_stroke_erased :
  CnnModel.preprocessImage white_browser flat_stroke = black_canvas.
Proof. vm_compute. reflexivity. Qed.

Lemma five_epochs_defined : Forall (fun o => o <> None) five_epochs.
Proof. repeat constructor; discriminate. Qed.

Lemma training_log_epochs_continue_witness :
  epochs (CNNDemo.handleStartTraining true five_epochs
            (CNNDemo.handleStartTraining true five_epochs []))
  = [0; 1; 2; 3; 4; 5; 6; 7; 8; 9] /\
  StronglySorted Z.lt
    (epochs (CNNDemo.handleStartTraining true five_epochs
               (CNNDemo.handleStartTraining true five_epochs []))).
Proof.
  destruct (training_log_epochs_continue five_epochs five_epochs []
              eq_refl five_epochs_defined five_epochs_defined) as [E S].
  split; [| exact S]. rewrite E. reflexivity.
Defined.

End Instances.

(* ================================================================== *)
(** * More on the replay: display, failures, the timer                *)
(* ================================================================== *)

Section ReplayMore.
Import JS Spec ConvAnimation ConvAnimationView ReplaySpec FloatOrder.

(** ** The rectifier *)

Lemma activate_relu_cases (s : float) :
  activate relu s =
  if PrimFloat.is_nan s then PrimFloat.nan
  else if PrimFloat.ltb PrimFloat.zero s then s else PrimFloat.zero.
Proof.
  unfold activate, Math_max. simpl fold_left.
  change (max_step PrimFloat.neg_infinity PrimFloat.zero) with PrimFloat.zero.
  unfold max_step.
  change (PrimFloat.is_nan PrimFloat.zero) with false.
  change (is_neg_zero PrimFloat.zero) with false.
  simpl orb. rewrite andb_false_r. reflexivity.
Qed.

Lemma ltb_asym (a b : float) :
  PrimFloat.ltb a b = true -> PrimFloat.ltb b a = false.
Proof.
  rewrite !ltb_keys. destruct (key a) as [ka|], (key b) as [kb|]; try discriminate.
  simpl. rewrite (lex_antisym ka kb). now destruct (lex ka kb).
Qed.

Lemma calculateResult_fields (p : props) (d : dims) (step : Z) (r : result) :
  calculateResult p d step = Normal r ->
  sum r = preActivation r /\ final r = activate (act p) (preActivation r).
Proof.
  unfold calculateResult.
  match goal with |- JS.bind ?loop _ = _ -> _ => destruct loop as [[s ds]|e] end;
    simpl; [| discriminate].
  intros E. inversion E; subst. simpl. split; reflexivity.
Qed.

(** X1. Under 'relu' the final value is NaN exactly when the pre-activation
    is, equals the pre-activation when that is positive and is +0 otherwise;
    it is never negative. *)
Theorem relu_final_never_negative (p : props) (d : dims) (step : Z) (r : result) :
  act p = relu ->
  calculateResult p d step = Normal r ->
  PrimFloat.ltb (final r) PrimFloat.zero = false /\
  (PrimFloat.is_nan (preActivation r) = true -> final r = PrimFloat.nan) /\
  (PrimFloat.ltb PrimFloat.zero (preActivation r) = true ->
     final r = preActivation r) /\
  (PrimFloat.is_nan (preActivation r) = false ->
   PrimFloat.ltb PrimFloat.zero (preActivation r) = false ->
     final r = PrimFloat.zero).
Proof.
  intros Hact Hr. destruct (calculateResult_fields p d step r Hr) as [_ Hf].
  rewrite Hact, activate_relu_cases in Hf. rewrite Hf.
  destruct (PrimFloat.is_nan (preActivation r)) eqn:En.
  - repeat split; try reflexivity; try discriminate.
    intros Hpos. unfold PrimFloat.is_nan in En.
    rewrite ltb_keys in Hpos. rewrite eqb_keys in En.
    destruct (key (preActivation r)); [| now destruct (key PrimFloat.zero)].
    simpl in En. now rewrite lex_refl in En.
  - destruct (PrimFloat.ltb PrimFloat.zero (preActivation r)) eqn:Ep.
    + repeat split; try reflexivity; try discriminate. now apply ltb_asym.
    + repeat split; try reflexivity; try discriminate.
Qed.

(** ** The cells already revealed *)

(** X2. A cell of the output grid is shown with its value exactly when its
    row-major index is at most the step. *)
Theorem revealed_cells_row_major (d : dims) (step i j : Z) :
  0 < outputW d -> 0 <= step -> 0 <= j < outputW d ->
  (isPast d step i j || isCurrent d step i j = true
   <-> i * outputW d + j <= step).
Proof.
  intros HW HS Hj.
  destruct (current_position d step HW HS) as [Ey Ex].
  unfold isPast, isCurrent, lt_num, eq_num. rewrite Ey, Ex.
  pose proof (Z.div_mod step (outputW d) ltac:(lia)) as Hdm.
  pose proof (Z.mod_pos_bound step (outputW d) HW) as Hm.
  set (q := step / outputW d) in *. set (m := step mod outputW d) in *.
  rewrite !orb_true_iff, !andb_true_iff, !Z.ltb_lt, !Z.eqb_eq.
  split.
  - intros [[Hlt | [-> Hlt]] | [-> ->]]; nia.
  - intros Hle.
    destruct (Z.lt_trichotomy i q) as [Hlt | [-> | Hgt]].
    + left. now left.
    + destruct (Z.eq_dec j m) as [-> | Hne]; [now right | left; right; split; [reflexivity | nia]].
    + nia.
Qed.

(** ** The player after n ticks *)

(** X3. N ticks of the timer from a state within range move the step to
    min(step + n, total - 1); auto-advance survives exactly while
    step + n <= total - 1. *)
Theorem player_after_ticks (total : Z) (st : state) (n : nat) :
  0 <= step st <= total - 1 ->
  step (Nat.iter n (advance total) st) = Z.min (step st + Z.of_nat n) (total - 1) /\
  isPlaying (Nat.iter n (advance total) st)
  = isPlaying st && (step st + Z.of_nat n <=? total - 1).
Proof.
  intros Hst. induction n as [|n [IHs IHp]].
  - simpl Nat.iter. change (Z.of_nat 0) with 0. rewrite Z.add_0_r.
    split; [lia |].
    destruct (Z.leb_spec (step st) (total - 1)); [| lia].
    now destruct (isPlaying st).
  - simpl Nat.iter. unfold advance at 1 3. rewrite IHs, IHp.
    destruct (Z.leb_spec (total - 1) (Z.min (step st + Z.of_nat n) (total - 1)))
      as [Hend|Hmid]; cbn [step isPlaying].
    + split; [lia |].
      destruct (Z.leb_spec (step st + Z.of_nat (Datatypes.S n)) (total - 1));
        [lia | now destruct (isPlaying st)].
    + split; [lia |].
      destruct (Z.leb_spec (step st + Z.of_nat n) (total - 1)); [| lia].
      destruct (Z.leb_spec (step st + Z.of_nat (Datatypes.S n)) (total - 1));
        [reflexivity | lia].
Qed.

(** ** Empty props *)

(** X4. The component throws while computing its dimensions exactly when
    the input or the kernel has no row. *)
Theorem dimensions_throw_iff_empty (p : props) :
  (dimensions p = Throw TypeError <-> inputData p = [] \/ kernel p = []) /\
  (inputData p <> [] -> kernel p <> [] ->
   exists d, dimensions p = Normal d /\
             inputH d = JS.length (inputData p) /\
             kernelH d = JS.length (kernel p) /\
             totalSteps d = outputH d * outputW d).
Proof.
  unfold dimensions.
  destruct (inputData p) as [|row0 rows], (kernel p) as [|k0 ks]; simpl.
  - split; [split; auto | intros H; now destruct H].
  - split; [split; auto | intros H; now destruct H].
  - split; [split; auto | intros _ H; now destruct H].
  - split.
    + split; [discriminate | intros [H | H]; discriminate].
    + intros _ _. eexists. split; [reflexivity |]. simpl. repeat split.
Qed.


(** ** The calculation panel *)

Lemma positions_succ (kh kw : Z) :
  0 <= kh ->
  positions (kh + 1) kw = positions kh kw ++ map (fun j => (kh, j)) (range kw).
Proof.
  intros Hk. unfold positions. rewrite range_succ, flat_map_app by lia.
  simpl. now rewrite app_nil_r.
Qed.

Lemma In_positions (kh kw i j : Z) :
  In (i, j) (positions kh kw) <-> 0 <= i < kh /\ 0 <= j < kw.
Proof.
  unfold positions. rewrite in_flat_map. split.
  - intros (i' & Hi & Hj). apply in_map_iff in Hj.
    destruct Hj as (j' & E & Hj). inversion E; subst.
    apply In_range in Hi. apply In_range in Hj. lia.
  - intros [Hi Hj]. exists i. split; [now apply In_range |].
    apply in_map_iff. exists j. split; [reflexivity | now apply In_range].
Qed.

Lemma length_positions (kh kw : Z) :
  0 <= kh -> 0 <= kw -> JS.length (positions kh kw) = kh * kw.
Proof.
  intros Hh Hw. unfold positions.
  apply length_flat_map_chunks; [exact Hh |].
  intros i _. unfold JS.length. rewrite length_map. now apply length_range.
Qed.

(** Two nested loops whose body never throws fold their body over the
    positions in row-major order. *)
Lemma nested_loop_positions {St : Type} (f : St -> Z * Z -> St)
    (body : Z -> Z -> St -> completion St) (KH KW : Z) :
  0 <= KH -> 0 <= KW ->
  (forall i j st, 0 <= i < KH -> 0 <= j < KW ->
     body i j st = Normal (f st (i, j))) ->
  forall st,
    for_ltM KH (fun i acc => for_ltM KW (body i) acc) st
    = Normal (fold_left f (positions KH KW) st).
Proof.
  intros HKH HKW Hbody st.
  destruct (for_ltM_inv
              (fun i t => t = fold_left f (positions i KW) st)
              (fun i acc => for_ltM KW (body i) acc) KH st HKH eq_refl)
    as (t & Hrun & ->); [| exact Hrun].
  intros i t Hi ->.
  destruct (for_ltM_inv
              (fun j u => u = fold_left f (map (fun j => (i, j)) (range j))
                                (fold_left f (positions i KW) st))
              (body i) KW (fold_left f (positions i KW) st) HKW eq_refl)
    as (u & Hrun & ->).
  - intros j u Hj ->. eexists. split; [apply Hbody; assumption |].
    rewrite range_succ, map_app, fold_left_app by lia. reflexivity.
  - exists (fold_left f (map (fun j => (i, j)) (range KW))
              (fold_left f (positions i KW) st)).
    split; [exact Hrun |].
    now rewrite positions_succ, fold_left_app by lia.
Qed.

Lemma accumulate_details (p : props) (y x : Z) (l : list (Z * Z)) :
  forall acc,
    snd (fold_left (accumulate p y x) l acc) = snd acc ++ map (detail_of p y x) l.
Proof.
  induction l as [|ij l IH]; intros acc; simpl.
  - now rewrite app_nil_r.
  - rewrite IH. unfold accumulate, push. simpl. now rewrite <- app_assoc.
Qed.

Lemma accumulate_sum (p : props) (y x : Z) (l : list (Z * Z)) :
  forall acc,
    fst (fold_left (accumulate p y x) l acc) =
    fold_left (fun s d =>
      PrimFloat.add s (PrimFloat.mul (to_number (d_val d)) (to_number (d_w d))))
      (map (detail_of p y x) l) (fst acc).
Proof.
  induction l as [|ij l IH]; intros acc; simpl; [reflexivity |].
  now rewrite IH.
Qed.

Lemma calculateResult_fold (p : props) (d : dims) (step y x : Z) :
  currentY d step = Some y -> currentX d step = Some x ->
  (forall i, 0 <= i < kernelH d ->
     (exists row, get (inputData p) (y + i) = Some row) /\
     (exists krow, get (kernel p) i = Some krow)) ->
  0 <= kernelH d -> 0 <= kernelW d ->
  exists r,
    calculateResult p d step = Normal r /\
    details r = map (detail_of p y x) (positions (kernelH d) (kernelW d)) /\
    preActivation r = PrimFloat.add (sum_of_details (details r)) (bias p).
Proof.
  intros Ey Ex Hrows HKH HKW. unfold calculateResult. rewrite Ey, Ex.
  pose proof (nested_loop_positions (accumulate p y x)
                (fun i j '(s, ds) =>
                   row <- defined (get_at (inputData p) (offset (Some y) i)) ;;
                   let val := get_at row (offset (Some x) j) in
                   krow <- defined (get (kernel p) i) ;;
                   let w := get krow j in
                   Normal (PrimFloat.add s (PrimFloat.mul (to_number val) (to_number w)),
                           push ds {| d_i := i; d_j := j; d_val := val; d_w := w |}))
                (kernelH d) (kernelW d) HKH HKW) as Hloop.
  match goal with
  | |- exists r, JS.bind ?loop _ = _ /\ _ =>
      assert (Hrun : loop = Normal (fold_left (accumulate p y x)
                                      (positions (kernelH d) (kernelW d))
                                      (PrimFloat.zero, [])))
  end.
  { apply Hloop. intros i j [s ds] Hi Hj. simpl offset. simpl get_at.
    destruct (Hrows i Hi) as [[row Erow] [krow Ekrow]].
    rewrite Erow, Ekrow. simpl. unfold accumulate, detail_of, cell. simpl.
    now rewrite Erow, Ekrow. }
  rewrite Hrun. simpl bind.
  destruct (fold_left (accumulate p y x) (positions (kernelH d) (kernelW d))
              (PrimFloat.zero, [])) as [s ds] eqn:Efold.
  eexists. split; [reflexivity |]. simpl.
  pose proof (accumulate_details p y x (positions (kernelH d) (kernelW d))
                (PrimFloat.zero, [])) as Hd.
  pose proof (accumulate_sum p y x (positions (kernelH d) (kernelW d))
                (PrimFloat.zero, [])) as Hs.
  rewrite Efold in Hd, Hs. simpl in Hd, Hs. subst ds.
  split; [reflexivity |]. unfold sum_of_details. now rewrite Hs.
Qed.

Lemma cell_defined (g : list (list float)) (h w y x : Z) :
  grid_shape g h w -> 0 <= y < h -> 0 <= x < w ->
  exists v, cell g y x = Some v.
Proof.
  intros [Hlen Hrows] Hy Hx. unfold cell.
  destruct (get_Some_range g y) as [row Erow]; [lia |]. rewrite Erow.
  apply get_Some_range. rewrite Forall_forall in Hrows.
  rewrite (Hrows row); [lia |]. now apply get_In in Erow.
Qed.

Lemma rows_of_window (p : props) (d : dims) (H W KH KW y : Z) :
  grid_shape (inputData p) H W -> grid_shape (kernel p) KH KW ->
  kernelH d = KH -> 0 <= y -> y + KH <= H ->
  forall i, 0 <= i < kernelH d ->
    (exists row, get (inputData p) (y + i) = Some row) /\
    (exists krow, get (kernel p) i = Some krow).
Proof.
  intros Hin Hk EKH Hy0 Hy1 i Hi. split.
  - apply (row_exists _ _ _ _ Hin). lia.
  - apply (row_exists _ _ _ _ Hk). lia.
Qed.

(** X5. The calculation panel lists one line per kernel position, in
    row-major order, each with a defined pixel and weight, and the listed
    products add up (in that order, plus the bias) to the displayed
    pre-activation. *)
Theorem calculation_panel_adds_up (p : props) (H W KH KW S : Z) :
  grid_shape (inputData p) H W -> grid_shape (kernel p) KH KW ->
  1 <= KH <= H -> 1 <= KW <= W ->
  0 <= S < (H - KH + 1) * (W - KW + 1) ->
  exists d r,
    dimensions p = Normal d /\
    calculateResult p d S = Normal r /\
    details r =
    map (detail_of p (S / outputW d) (S mod outputW d)) (positions KH KW) /\
    JS.length (details r) = KH * KW /\
    Forall (fun dt => d_val dt <> None /\ d_w dt <> None) (details r) /\
    preActivation r = PrimFloat.add (sum_of_details (details r)) (bias p).
Proof.
  intros Hin Hk HKH HKW HS.
  set (d := {| inputH := H; inputW := W; kernelH := KH; kernelW := KW;
               outputH := H - KH + 1; outputW := W - KW + 1;
               totalSteps := (H - KH + 1) * (W - KW + 1) |}).
  assert (HW : 0 < outputW d) by (simpl; lia).
  destruct (current_position d S HW) as [Ey Ex]; [lia |].
  destruct (position_in_grid (H - KH + 1) (outputW d) S HW) as [Hrow Hcol];
    [simpl; lia |].
  destruct (calculateResult_fold p d S _ _ Ey Ex) as (r & Hr & Hd & Hs);
    try (simpl; lia).
  { apply (rows_of_window p d H W KH KW); auto; lia. }
  exists d, r. split; [apply (dimensions_of_shapes p H W KH KW); auto; lia |].
  split; [exact Hr |]. split; [exact Hd |].
  split; [| split; [| exact Hs]].
  - rewrite Hd. unfold JS.length. rewrite length_map.
    apply (length_positions KH KW); lia.
  - rewrite Hd. apply Forall_forall. intros dt Hdt.
    apply in_map_iff in Hdt. destruct Hdt as ([i j] & <- & Hij).
    apply In_positions in Hij.
    change (kernelH d) with KH in Hij. change (kernelW d) with KW in Hij.
    unfold detail_of. cbn [d_val d_w fst snd].
    assert (Hcol' : 0 <= S mod outputW d < W - KW + 1) by exact Hcol.
    destruct (cell_defined _ H W (S / outputW d + i) (S mod outputW d + j) Hin)
      as [v Ev]; try lia.
    destruct (cell_defined _ KH KW i j Hk) as [w Ew]; try lia.
    rewrite Ev, Ew. split; discriminate.
Qed.

(** X6. The highlighted input cells are exactly the cells the current
    result was computed from. *)
Theorem window_highlight_matches_details (p : props) (H W KH KW S i j : Z) :
  grid_shape (inputData p) H W -> grid_shape (kernel p) KH KW ->
  1 <= KH <= H -> 1 <= KW <= W ->
  0 <= S < (H - KH + 1) * (W - KW + 1) ->
  exists d r,
    dimensions p = Normal d /\
    calculateResult p d S = Normal r /\
    (isInWindow d S i j = true <->
     exists dt, In dt (details r) /\
                S / outputW d + d_i dt = i /\ S mod outputW d + d_j dt = j).
Proof.
  intros Hin Hk HKH HKW HS.
  set (d := {| inputH := H; inputW := W; kernelH := KH; kernelW := KW;
               outputH := H - KH + 1; outputW := W - KW + 1;
               totalSteps := (H - KH + 1) * (W - KW + 1) |}).
  assert (HW : 0 < outputW d) by (simpl; lia).
  destruct (current_position d S HW) as [Ey Ex]; [lia |].
  destruct (position_in_grid (H - KH + 1) (outputW d) S HW) as [Hrow Hcol];
    [simpl; lia |].
  destruct (calculateResult_fold p d S _ _ Ey Ex) as (r & Hr & Hd & _);
    try (simpl; lia).
  { apply (rows_of_window p d H W KH KW); auto; lia. }
  exists d, r. split; [apply (dimensions_of_shapes p H W KH KW); auto; lia |].
  split; [exact Hr |].
  unfold isInWindow, ge_num, lt_offset. rewrite Ey, Ex, Hd.
  rewrite !andb_true_iff, !Z.leb_le, !Z.ltb_lt.
  change (kernelH d) with KH. change (kernelW d) with KW.
  split.
  - intros [[[H1 H2] H3] H4].
    exists (detail_of p (S / outputW d) (S mod outputW d)
              (i - S / outputW d, j - S mod outputW d)).
    split; [| cbn [detail_of d_i d_j fst snd]; lia].
    apply in_map. apply In_positions. lia.
  - intros (dt & Hdt & Ei & Ej). apply in_map_iff in Hdt.
    destruct Hdt as ([ki kj] & <- & Hij). apply In_positions in Hij.
    cbn [detail_of d_i d_j fst snd] in Ei, Ej. lia.
Qed.

(** ** Windows that leave the input *)

Lemma for_fromM_throws {St : Type} (body : Z -> St -> completion St) (k : Z) :
  (forall t, body k t = Throw TypeError) ->
  forall count i s,
    i <= k < i + Z.of_nat count ->
    for_fromM i count body s = Throw TypeError.
Proof.
  intros Hk. induction count as [|c IH]; intros i s Hi; [lia |].
  simpl for_fromM. destruct (Z.eq_dec i k) as [-> | Hne].
  - now rewrite Hk.
  - destruct (body i s) as [s' | e]; simpl.
    + apply IH. lia.
    + now destruct e.
Qed.

Lemma for_ltM_throws {St : Type} (body : Z -> St -> completion St)
    (n k : Z) (s : St) :
  0 <= k < n -> (forall t, body k t = Throw TypeError) ->
  for_ltM n body s = Throw TypeError.
Proof.
  intros Hk Hthrow. unfold for_ltM.
  apply (for_fromM_throws body k Hthrow). lia.
Qed.

(** X7. With a kernel of more rows than the input (and at least one
    column) [calculateResult] throws a TypeError at every step. *)
Theorem calculateResult_throws_on_tall_kernel (p : props) (d : dims) (S : Z) :
  dimensions p = Normal d ->
  inputH d < kernelH d -> 1 <= kernelW d ->
  calculateResult p d S = Throw TypeError.
Proof.
  intros Hd Htall Hwide.
  assert (EH : inputH d = JS.length (inputData p)).
  { unfold dimensions in Hd.
    destruct (get (inputData p) 0); simpl in Hd; [| discriminate].
    destruct (get (kernel p) 0); simpl in Hd; [| discriminate].
    inversion Hd. reflexivity. }
  assert (Hmiss : exists i0, 0 <= i0 < kernelH d /\
                    get_at (inputData p) (offset (currentY d S) i0) = None).
  { assert (0 <= JS.length (inputData p)) by (unfold JS.length; lia).
    destruct (currentY d S) as [y|]; simpl.
    - assert (Hnone : forall k, k < 0 \/ JS.length (inputData p) <= k ->
                        get (inputData p) k = None).
      { intros k Hk. unfold get, JS.length in *.
        destruct (Z.ltb_spec k 0); [reflexivity |].
        apply nth_error_None. lia. }
      destruct (Z.lt_ge_cases y 0) as [Hneg | Hpos];
        [exists 0; split; [lia | apply Hnone; lia] |].
      destruct (Z.le_gt_cases (JS.length (inputData p)) y) as [Hbig | Hsmall];
        [exists 0; split; [lia | apply Hnone; lia] |].
      exists (JS.length (inputData p) - y). split; [lia | apply Hnone; lia].
    - exists 0. split; [lia | reflexivity]. }
  destruct Hmiss as (i0 & Hi0 & Hnone).
  unfold calculateResult.
  rewrite (for_ltM_throws _ (kernelH d) i0); [reflexivity | exact Hi0 |].
  intros acc. apply (for_ltM_throws _ (kernelW d) 0); [lia |].
  intros [s ds]. now rewrite Hnone.
Qed.

Lemma prim_of_nan (x : float) : Prim2SF x = S754_nan -> x = PrimFloat.nan.
Proof.
  intros E. rewrite <- (SF2Prim_Prim2SF x), E. reflexivity.
Qed.

Lemma add_nan_r (x : float) : PrimFloat.add x PrimFloat.nan = PrimFloat.nan.
Proof.
  apply prim_of_nan. rewrite FloatAxioms.add_spec.
  change (Prim2SF PrimFloat.nan) with S754_nan.
  now destruct (Prim2SF x).
Qed.

Lemma add_nan_l (x : float) : PrimFloat.add PrimFloat.nan x = PrimFloat.nan.
Proof.
  apply prim_of_nan. rewrite FloatAxioms.add_spec.
  change (Prim2SF PrimFloat.nan) with S754_nan. reflexivity.
Qed.

Lemma mul_nan_l (x : float) : PrimFloat.mul PrimFloat.nan x = PrimFloat.nan.
Proof.
  apply prim_of_nan. rewrite FloatAxioms.mul_spec.
  change (Prim2SF PrimFloat.nan) with S754_nan. reflexivity.
Qed.

Lemma mul_nan_r (x : float) : PrimFloat.mul x PrimFloat.nan = PrimFloat.nan.
Proof.
  apply prim_of_nan. rewrite FloatAxioms.mul_spec.
  change (Prim2SF PrimFloat.nan) with S754_nan.
  now destruct (Prim2SF x).
Qed.

Lemma sum_with_nan_term (l : list detail) (dt : detail) :
  In dt l -> d_val dt = None \/ d_w dt = None ->
  forall s,
    fold_left (fun s d =>
      PrimFloat.add s (PrimFloat.mul (to_number (d_val d)) (to_number (d_w d))))
      l s = PrimFloat.nan.
Proof.
  intros Hin Hmiss.
  assert (Hstay : forall l' : list detail,
            fold_left (fun s d =>
              PrimFloat.add s
                (PrimFloat.mul (to_number (d_val d)) (to_number (d_w d))))
              l' PrimFloat.nan = PrimFloat.nan).
  { induction l' as [|d' l' IH]; simpl; [reflexivity |]. now rewrite add_nan_l. }
  induction l as [|d0 l IH]; intros s; [destruct Hin |].
  simpl. destruct Hin as [-> | Hin]; [| now apply IH].
  assert (E : PrimFloat.mul (to_number (d_val dt)) (to_number (d_w dt))
              = PrimFloat.nan).
  { destruct Hmiss as [-> | ->]; simpl; [apply mul_nan_l | apply mul_nan_r]. }
  rewrite E, add_nan_r. apply Hstay.
Qed.

(** X8. When every row of the window exists but some cell of the window
    (or of the kernel) lies beyond the end of its row, [calculateResult]
    does not throw: it returns NaN, as pre-activation and as final value. *)
Theorem calculateResult_nan_on_missing_column (p : props) (d : dims)
    (S y x i0 j0 : Z) :
  currentY d S = Some y -> currentX d S = Some x ->
  0 <= kernelH d -> 0 <= kernelW d ->
  (forall i, 0 <= i < kernelH d ->
     (exists row, get (inputData p) (y + i) = Some row) /\
     (exists krow, get (kernel p) i = Some krow)) ->
  0 <= i0 < kernelH d -> 0 <= j0 < kernelW d ->
  cell (inputData p) (y + i0) (x + j0) = None \/ cell (kernel p) i0 j0 = None ->
  exists r,
    calculateResult p d S = Normal r /\
    preActivation r = PrimFloat.nan /\ final r = PrimFloat.nan.
Proof.
  intros Ey Ex HKH HKW Hrows Hi0 Hj0 Hmiss.
  destruct (calculateResult_fold p d S y x Ey Ex Hrows HKH HKW)
    as (r & Hr & Hd & Hs).
  exists r. split; [exact Hr |].
  assert (Hpre : preActivation r = PrimFloat.nan).
  { rewrite Hs. unfold sum_of_details.
    rewrite (sum_with_nan_term (details r) (detail_of p y x (i0, j0))).
    - apply add_nan_l.
    - rewrite Hd. apply in_map. now apply In_positions.
    - exact Hmiss. }
  split; [exact Hpre |].
  destruct (calculateResult_fields p d S r Hr) as [_ ->]. rewrite Hpre.
  now destruct (act p).
Qed.

End ReplayMore.

(* ================================================================== *)
(** * The label, the log and the kernel                               *)
(* ================================================================== *)

Section PredictionEdge.
Import JS Spec CNNDemo FloatOrder.

Lemma eqb_nan_r (y : float) : PrimFloat.eqb y PrimFloat.nan = false.
Proof.
  rewrite eqb_keys. change (key PrimFloat.nan) with (@None (Z * Z * Z)).
  now destruct (key y).
Qed.

Lemma indexOf_from_nan (l : list float) :
  forall k, indexOf_from l PrimFloat.nan k = -1.
Proof.
  induction l as [|y l IH]; intros k; simpl; [reflexivity |].
  now rewrite eqb_nan_r.
Qed.

Lemma max_step_nan_l (x : float) : max_step PrimFloat.nan x = PrimFloat.nan.
Proof. reflexivity. Qed.

Lemma fold_max_nan (l : list float) :
  fold_left max_step l PrimFloat.nan = PrimFloat.nan.
Proof.
  induction l as [|x l IH]; simpl; [reflexivity |]. now rewrite max_step_nan_l.
Qed.

Lemma Math_max_with_nan (l : list float) :
  Exists (fun x => PrimFloat.is_nan x = true) l -> Math_max l = PrimFloat.nan.
Proof.
  unfold Math_max. generalize PrimFloat.neg_infinity as h.
  induction l as [|x l IH]; intros h Hex; [inversion Hex |].
  simpl. inversion Hex as [? ? Hx | ? ? Hl]; subst.
  - unfold max_step at 2. rewrite Hx, orb_true_r. apply fold_max_nan.
  - now apply IH.
Qed.

(** X9. The label is -1, no digit, exactly when the probability vector is
    empty or contains a NaN. *)
Theorem label_minus_one_iff (probabilities : list float) :
  predicted_label probabilities = -1 <->
  probabilities = [] \/ Exists (fun x => PrimFloat.is_nan x = true) probabilities.
Proof.
  split.
  - intros Hlabel.
    destruct probabilities as [|p0 ps]; [now left | right].
    destruct (Exists_dec (fun x => PrimFloat.is_nan x = true) (p0 :: ps))
      as [Hex | Hno]; [intros x; apply bool_dec | exact Hex |].
    exfalso.
    assert (Hnan : Forall (fun x => PrimFloat.is_nan x = false) (p0 :: ps)).
    { apply Forall_forall. intros x Hx.
      destruct (PrimFloat.is_nan x) eqn:E; [| reflexivity].
      exfalso. apply Hno. apply Exists_exists. now exists x. }
    destruct (Math_max_inv (p0 :: ps) Hnan) as (km & Em & _ & Hwit).
    destruct Hwit as [[E _] | (w & Hw & Ew)]; [discriminate |].
    destruct (indexOf_from_first (p0 :: ps) (Math_max (p0 :: ps)) 0)
      as (top & Hge & _).
    { exists w. split; [exact Hw |]. now apply (same_key_eqb w _ km). }
    unfold predicted_label, indexOf in Hlabel. lia.
  - intros [-> | Hex]; [reflexivity |].
    unfold predicted_label, indexOf.
    rewrite (Math_max_with_nan _ Hex). apply indexOf_from_nan.
Qed.

End PredictionEdge.

Section TrainingGaps.
Import JS Spec CNNDemo.

(** X10. A run appends, for every epoch whose logs are defined, the entry
    numbered log length + epoch, in epoch order, and nothing for an epoch
    delivered without logs; without a model or data it appends nothing. *)
Theorem training_run_appends_defined_epochs
    (delivered : list (option Logs)) (logs : list LogEntry) :
  epochs (handleStartTraining true delivered logs) =
  epochs logs ++
  map (fun e => JS.length logs + e)
      (filter (fun e => match get delivered e with
                        | Some (Some _) => true
                        | _ => false
                        end)
         (range (JS.length delivered))) /\
  handleStartTraining false delivered logs = logs.
Proof.
  split; [| reflexivity].
  unfold handleStartTraining, trainModel. simpl negb. cbv iota zeta.
  apply (for_lt_inv
           (fun k acc =>
              epochs acc =
              epochs logs ++
              map (fun e => JS.length logs + e)
                  (filter (fun e => match get delivered e with
                                    | Some (Some _) => true
                                    | _ => false
                                    end) (range k)))).
  - unfold JS.length. lia.
  - simpl. now rewrite app_nil_r.
  - intros k t Hk Ht. rewrite range_succ, filter_app by lia. simpl.
    destruct (get delivered k) as [[log|]|].
    + unfold appendLog, epochs in *. rewrite !map_app, Ht. simpl.
      now rewrite app_assoc.
    + now rewrite app_nil_r.
    + now rewrite app_nil_r.
Qed.

End TrainingGaps.

Section WeightsFacts.
Import JS Spec Weights WeightsSpec.

Lemma kernel_rows (kernelData : list float) :
  for_lt 5 (fun i kernel =>
    let row :=
      for_lt 5 (fun j row =>
        let idx := (i * 5 + j) * 8 in push row (get kernelData idx)) [] in
    push kernel row) []
  = map (fun i => map (fun j => get kernelData ((i * 5 + j) * 8)) (range 5))
        (range 5).
Proof.
  cbv zeta.
  etransitivity;
    [exact (for_lt_push
              (fun i => for_lt 5 (fun j row =>
                          push row (get kernelData ((i * 5 + j) * 8))) [])
              5 []) |].
  rewrite app_nil_l. apply map_ext. intros i.
  exact (for_lt_push (fun j => get kernelData ((i * 5 + j) * 8)) 5 []).
Qed.

(** X11. [getConv1Weights] answers null exactly when the layer has fewer
    than two weight tensors; otherwise the kernel has 5 rows of 5 entries,
    entry (i, j) being element (i, j, 0, 0) of the [5, 5, 1, 8] kernel
    buffer, defined as soon as the buffer has 193 elements, and the bias is
    the first element of the second tensor. *)
Theorem conv1_weights_first_filter (weights : option (list (list float))) :
  (getConv1Weights weights = None <->
   weights = None \/ exists ws, weights = Some ws /\ JS.length ws < 2) /\
  forall kernelData biasData rest,
    weights = Some (kernelData :: biasData :: rest) ->
    exists cw,
      getConv1Weights weights = Some cw /\
      grid_shape (kernel cw) 5 5 /\
      bias cw = get biasData 0 /\
      forall i j, 0 <= i < 5 -> 0 <= j < 5 ->
        kernel_entry (kernel cw) i j = tensor_at kernelData i j 0 0 /\
        (193 <= JS.length kernelData -> kernel_entry (kernel cw) i j <> None).
Proof.
  split.
  - destruct weights as [ws|]; simpl; [| split; auto].
    destruct ws as [|k [|b rest]]; simpl.
    + split; [intros _; right; exists []; split; reflexivity
             | reflexivity].
    + split; [intros _; right; exists [k]; split; reflexivity
             | reflexivity].
    + assert (E : (JS.length (k :: b :: rest) <? 2) = false).
      { apply Z.ltb_ge. unfold JS.length. simpl List.length. lia. }
      rewrite E. split; [discriminate |].
      intros [H | (ws & H & Hlen)]; [discriminate |].
      inversion H; subst. apply Z.ltb_ge in E. lia.
  - intros kernelData biasData rest ->. unfold getConv1Weights.
    assert (E : (JS.length (kernelData :: biasData :: rest) <? 2) = false).
    { apply Z.ltb_ge. unfold JS.length. simpl List.length. lia. }
    rewrite E. change (get (kernelData :: biasData :: rest) 0) with (Some kernelData).
    change (get (kernelData :: biasData :: rest) 1) with (Some biasData).
    eexists. split; [reflexivity |]. cbn [kernel bias]. rewrite kernel_rows.
    split; [| split; [reflexivity |]].
    + exact (grid_of_map_shape (fun i j => get kernelData ((i * 5 + j) * 8)) 5
               ltac:(lia)).
    + intros i j Hi Hj. unfold kernel_entry, tensor_at.
      rewrite get_map, get_range by exact Hi. cbn [option_map].
      rewrite get_map, get_range by exact Hj. cbn [option_map].
      replace (((i * 5 + j) * 1 + 0) * 8 + 0) with ((i * 5 + j) * 8) by lia.
      split; [reflexivity |]. intros Hlen.
      destruct (get_Some_range kernelData ((i * 5 + j) * 8)) as [v ->];
        [lia | discriminate].
Qed.

End WeightsFacts.

(* ================================================================== *)
(** * Centring on 28x28 and the whole animation pipeline              *)
(* ================================================================== *)

Section Centred.
Import JS Spec CnnModel Centring CentralBox.

Lemma boxes_checked :
  forallb (fun bw =>
    forallb (fun bh =>
      columns_central (bw + 1) (bh + 1) && rows_central (bw + 1) (bh + 1)
      && long_side_20 (bw + 1) (bh + 1))
      (range 28))
    (range 28) = true.
Proof. vm_compute. reflexivity. Qed.

Lemma box_checked (bw bh : Z) :
  1 <= bw <= 28 -> 1 <= bh <= 28 ->
  columns_central bw bh = true /\ rows_central bw bh = true /\
  long_side_20 bw bh = true.
Proof.
  intros Hw Hh. pose proof boxes_checked as Hall.
  rewrite forallb_forall in Hall.
  specialize (Hall (bw - 1) ltac:(apply In_range; lia)).
  rewrite forallb_forall in Hall.
  specialize (Hall (bh - 1) ltac:(apply In_range; lia)).
  replace (bw - 1 + 1) with bw in Hall by lia.
  replace (bh - 1 + 1) with bh in Hall by lia.
  apply andb_true_iff in Hall. destruct Hall as [Hall Hl].
  apply andb_true_iff in Hall. tauto.
Qed.

Lemma bbox_inside_image (img : ImageData) (x0 y0 x1 y1 : Z) :
  tight_bbox img x0 y0 x1 y1 ->
  0 <= x0 <= x1 /\ x1 < width img /\ 0 <= y0 <= y1 /\ y1 < height img.
Proof.
  intros (Hin & [a Ha] & [b Hb] & [c Hc] & [e He]).
  pose proof (Hin _ _ Ha). pose proof (Hin _ _ Hb).
  pose proof (Hin _ _ Hc). pose proof (Hin _ _ He).
  unfold lit in *. lia.
Qed.

(** X12. For a 28x28 input the output is 28x28 whatever the browser does,
    and a full pixel buffer stays a full pixel buffer. *)
Theorem preprocess_keeps_28x28 (B : Browser) (img : ImageData) :
  width img = 28 -> height img = 28 ->
  width (preprocessImage B img) = 28 /\
  height (preprocessImage B img) = 28 /\
  (JS.length (data img) = 4 * 28 * 28 ->
   JS.length (data (preprocessImage B img)) = 4 * 28 * 28).
Proof.
  intros Hw Hh. unfold preprocessImage.
  destruct (hasPixels (scan img)); cbn [negb]; [| auto].
  destruct (canvas_context B); cbn [negb]; [| auto].
  destruct (tempCanvas_context B); cbn [negb]; [| auto].
  unfold drawImage.
  destruct (_ || _).
  - split; [reflexivity |]. split; [reflexivity |].
    intros _. vm_compute. reflexivity.
  - split; [reflexivity |]. split; [reflexivity |]. intros _.
    apply (length_paint (fillRect_black (createCanvas 28 28) 0 0 28 28));
      simpl; lia.
Qed.

(** X13. For a 28x28 input with foreground, every pixel of the output
    outside the central 20x20 box [4, 24) x [4, 24) is background, and the
    longer side of the bounding box is scaled to exactly 20 pixels. *)
Theorem preprocess_content_in_central_box (B : Browser) (img : ImageData) :
  width img = 28 -> height img = 28 ->
  canvas_context B = true -> tempCanvas_context B = true ->
  (exists x y, lit img x y) ->
  (forall x y, 0 <= x < 28 -> 0 <= y < 28 ->
     x < 4 \/ 24 <= x \/ y < 4 \/ 24 <= y ->
     pixel_at (preprocessImage B img) x y = black) /\
  exists x0 y0 x1 y1,
    tight_bbox img x0 y0 x1 y1 /\
    PrimFloat.eqb
      (scaled (Z.max (x1 - x0 + 1) (y1 - y0 + 1))
              (fit_scale (x1 - x0 + 1) (y1 - y0 + 1)))
      (of_Z 20) = true.
Proof.
  intros Hw Hh Hc Ht Hlit.
  destruct (scan_foreground img Hlit) as [Hb Htight].
  pose proof (bbox_inside_image img _ _ _ _ Htight) as Hbox.
  rewrite Hw, Hh in Hbox.
  destruct (box_checked (maxX (scan img) - minX (scan img) + 1)
                        (maxY (scan img) - minY (scan img) + 1))
    as (Hcols & Hrows & Hlong); try lia.
  split.
  - intros x y Hx Hy Hout.
    rewrite (preprocess_of_scan B img Hb Hc Ht). unfold drawImage.
    destruct (Z.eqb_spec (maxX (scan img) - minX (scan img) + 1) 0); [lia |].
    destruct (Z.eqb_spec (maxY (scan img) - minY (scan img) + 1) 0); [lia |].
    cbn [orb]. rewrite pixel_at_paint by (simpl; lia).
    rewrite pixel_at_black_canvas by lia.
    destruct (in_dest _ _ _ _ x y) eqn:Ein; [| reflexivity].
    exfalso. unfold in_dest in Ein.
    apply andb_true_iff in Ein. destruct Ein as [Ein Ey2].
    apply andb_true_iff in Ein. destruct Ein as [Ein Ey1].
    unfold columns_central in Hcols. unfold rows_central in Hrows.
    cbv zeta in Hcols, Hrows.
    rewrite forallb_forall in Hcols, Hrows.
    specialize (Hcols x ltac:(apply In_range; lia)).
    specialize (Hrows y ltac:(apply In_range; lia)).
    rewrite Ein in Hcols. rewrite Ey1, Ey2 in Hrows.
    cbn [andb implb] in Hcols, Hrows.
    apply andb_true_iff in Hcols. apply andb_true_iff in Hrows.
    rewrite Z.leb_le, Z.ltb_lt in Hcols, Hrows. lia.
  - exists (minX (scan img)), (minY (scan img)), (maxX (scan img)), (maxY (scan img)).
    split; [exact Htight | exact Hlong].
Qed.

End Centred.

Section Pipeline.
Import JS Spec CnnModel ConvAnimation Weights.

(** X14. The grid cut from any image of at least 10x10 pixels and the
    first filter of a full conv1 kernel buffer always give the animation
    36 steps on a 6x6 output grid, and at no reachable step does the
    calculation throw. *)
Theorem animation_never_throws (img : ImageData)
    (kernelData biasData : list float) (rest : list (list float)) :
  wf_ImageData img -> 10 <= width img -> 10 <= height img ->
  JS.length kernelData = 200 -> 1 <= JS.length biasData ->
  exists g K b d,
    imageDataToGrid img 10 = Normal g /\
    getConv1Weights (Some (kernelData :: biasData :: rest)) =
    Some {| Weights.kernel := map (map Some) K; Weights.bias := Some b |} /\
    dimensions (animation_props g K b) = Normal d /\
    outputH d = 6 /\ outputW d = 6 /\ totalSteps d = 36 /\
    forall st, reachable (totalSteps d) st ->
      exists r, calculateResult (animation_props g K b) d (step st) = Normal r.
Proof.
  intros Hwf Hw Hh Hk Hb.
  set (g := map (fun i =>
              map (fun j =>
                normalize (red img ((width img - 10) / 2 + j)
                                   ((height img - 10) / 2 + i)))
                (range 10)) (range 10)).
  set (K := map (fun i =>
              map (fun j => to_number (get kernelData ((i * 5 + j) * 8)))
                (range 5)) (range 5)).
  destruct (get_Some_range biasData 0) as [b Eb]; [lia |].
  assert (Hg : grid_shape g 10 10).
  { exact (grid_of_map_shape
             (fun i j => normalize (red img ((width img - 10) / 2 + j)
                                            ((height img - 10) / 2 + i))) 10
             ltac:(lia)). }
  assert (HK : grid_shape K 5 5).
  { exact (grid_of_map_shape
             (fun i j => to_number (get kernelData ((i * 5 + j) * 8))) 5
             ltac:(lia)). }
  set (d := {| inputH := 10; inputW := 10; kernelH := 5; kernelW := 5;
               outputH := 10 - 5 + 1; outputW := 10 - 5 + 1;
               totalSteps := (10 - 5 + 1) * (10 - 5 + 1) |}).
  exists g, K, b, d.
  split; [apply imageDataToGrid_eq |].
  split.
  { unfold getConv1Weights.
    assert (E : (JS.length (kernelData :: biasData :: rest) <? 2) = false).
    { apply Z.ltb_ge. unfold JS.length. simpl List.length. lia. }
    rewrite E.
    change (get (kernelData :: biasData :: rest) 0) with (Some kernelData).
    change (get (kernelData :: biasData :: rest) 1) with (Some biasData).
    cbv beta iota. rewrite kernel_rows, Eb. do 2 f_equal. unfold K.
    rewrite map_map. apply map_ext_in. intros i Hi. apply In_range in Hi.
    rewrite map_map. apply map_ext_in. intros j Hj. apply In_range in Hj.
    destruct (get_Some_range kernelData ((i * 5 + j) * 8)) as [v ->];
      [lia | reflexivity]. }
  split.
  { exact (dimensions_of_shapes (animation_props g K b) 10 10 5 5 Hg HK
             ltac:(lia) ltac:(lia)). }
  split; [reflexivity |]. split; [reflexivity |]. split; [reflexivity |].
  intros st Hst.
  assert (Hrange : 0 <= step st <= 36 - 1).
  { apply (reachable_in_range 36); [lia | exact Hst]. }
  assert (HW : 0 < outputW d) by (simpl; lia).
  destruct (current_position d (step st) HW) as [Ey Ex]; [lia |].
  destruct (position_in_grid 6 (outputW d) (step st) HW) as [Hrow Hcol];
    [simpl; lia |].
  destruct (calculateResult_at (animation_props g K b) d 10 10 5 5 (step st)
              (step st / outputW d) (step st mod outputW d) Hg HK)
    as (r & Hr & _); try reflexivity; try assumption; try lia.
  now exists r.
Qed.

End Pipeline.

(* ================================================================== *)
(** * Invariants of the component                                     *)
(* ================================================================== *)

Section AppFacts.
Import JS Spec CnnModel CNNDemo Weights App.
Variables Model FM : Type.
Variable lib : Library Model FM.
Variable B : Browser.


Ltac unfold_handlers :=
  unfold dispatch, dataLoaded, handleImageReady, handlePredict, handleReset,
    handleStartTraining, onBatchEnd, onEpochEnd, onFitSettled.

Ltac break_matches :=
  repeat match goal with
         | |- context [match ?x with _ => _ end] =>
             match type of x with
             | sumbool _ _ => fail 1
             | _ => destruct x eqn:?
             end
         end.

Lemma run_invariant (P : State Model FM -> Prop) (ok : event Model -> Prop) (m0 : Model) :
  P (mounted lib m0) ->
  (forall st e, ok e -> P st -> P (dispatch lib B st e)) ->
  forall events, Forall ok events -> P (run lib B m0 events).
Proof.
  intros Hinit Hstep events Hok. unfold run.
  generalize dependent (mounted lib m0).
  induction Hok as [|e events He _ IH]; intros st Hst; simpl; [exact Hst |].
  apply IH. now apply Hstep.
Qed.

Lemma paired_step (st : State Model FM) (e : event Model) :
  paired lib B st -> paired lib B (dispatch lib B st e).
Proof.
  intros [Hpred Hgrid].
  destruct e; unfold_handlers; rewrite ?imageDataToGrid_eq;
    break_matches; try (split; assumption);
    unfold paired; cbn [prediction featureMaps currentImage inputGrid];
    try match goal with H : currentImage st = _ |- _ => rewrite H end;
    try (split; assumption).
  - (* a new image *)
    split; [reflexivity |]. eexists. split; [reflexivity |].
    apply imageDataToGrid_eq.
  - (* reset *)
    split; [reflexivity | exact Hgrid].
  - (* predict *)
    split; [| exact Hgrid].
    eexists. eexists. repeat split; reflexivity.
Qed.

(** X15. Whatever the user and the library do, a prediction on screen was
    computed from the image currently held (after the same preprocessing),
    its label is the arg-max of its probabilities and the feature maps were
    rendered from the same model and image; without a prediction there are
    no feature maps; and the animation's grid is the centre of the current
    image. *)
Theorem prediction_belongs_to_current_image (m0 : Model) (events : list (event Model)) :
  match prediction (run lib B m0 events) with
  | Some (label, probabilities) =>
      exists m img,
        currentImage (run lib B m0 events) = Some img /\
        probabilities = predict lib m (preprocessImage B img) /\
        label = predicted_label probabilities /\
        featureMaps (run lib B m0 events)
        = generateFeatureMaps lib m (preprocessImage B img)
  | None => featureMaps (run lib B m0 events) = noFeatureMaps lib
  end /\
  match currentImage (run lib B m0 events) with
  | Some img =>
      exists grid, inputGrid (run lib B m0 events) = Some grid /\
                   imageDataToGrid img 10 = Normal grid
  | None => inputGrid (run lib B m0 events) = None
  end.
Proof.
  apply (run_invariant (paired lib B) (fun _ => True)).
  - split; reflexivity.
  - intros st e _. apply paired_step.
  - apply Forall_forall. intros; exact I.
Qed.

Ltac use_equations :=
  repeat match goal with
         | H : ?x = _ |- context [match ?x with _ => _ end] => rewrite H
         end.

Lemma numbered_step (st : State Model FM) (e : event Model) :
  @with_logs Model e ->
  @numbered Model FM st -> @numbered Model FM (dispatch lib B st e).
Proof.
  intros He [Hnum Hfit].
  destruct e; unfold_handlers; break_matches; try (split; assumption);
    unfold numbered; cbn [logs fit isTraining]; use_equations;
    try (split; [exact Hnum | exact Hfit]);
    try (split; [exact Hnum | exact I]);
    try (destruct He).
  - (* the start of a run *)
    split; [exact Hnum |]. repeat split; lia.
  - (* reset refused: training *)
    split; [exact Hnum |].
    destruct (fit st) as [[ie ep]|]; [| exact I].
    destruct Hfit as (_ & Hep & Hlen). repeat split; assumption.
  - (* reset *)
    split; [reflexivity |].
    destruct (fit st) as [[ie ep]|]; [| exact I].
    destruct Hfit as (Ht & _). discriminate Ht.
  - (* an epoch delivered with logs *)
    destruct Hfit as (Ht & Hep & Hlen).
    assert (Hlen' : JS.length (appendLog z z0 l (logs st))
                    = JS.length (logs st) + 1).
    { unfold appendLog, JS.length. rewrite length_app. simpl. lia. }
    split.
    + rewrite Hlen'. unfold appendLog, epochs in *. rewrite map_app, Hnum.
      simpl. rewrite Hlen.
      rewrite range_succ by (unfold JS.length; lia). reflexivity.
    + repeat split; [exact Ht | lia | lia].
Qed.

(** X16. As long as every completed epoch is delivered with its logs, the
    training log is numbered 0, 1, 2, ... without gap at every moment,
    across continued runs and resets, also in the middle of a run. *)
Theorem log_numbering_invariant (m0 : Model) (events : list (event Model)) :
  Forall (@with_logs Model) events ->
  epochs (logs (run lib B m0 events)) = range (JS.length (logs (run lib B m0 events))).
Proof.
  intros Hok.
  apply (run_invariant (@numbered Model FM) (@with_logs Model) m0); auto.
  - split; [reflexivity | exact I].
  - intros st e. apply numbered_step.
Qed.

Lemma kernel_current_step (st : State Model FM) (e : event Model) :
  (exists m, model st = Some m) /\ kernel_current lib st ->
  (exists m, model (dispatch lib B st e) = Some m) /\
  kernel_current lib (dispatch lib B st e).
Proof.
  intros [[m Hm] Hk].
  destruct e; unfold_handlers; break_matches;
    unfold kernel_current in *; cbn [model fit conv1Weights];
    use_equations;
    try (split; [now exists m | exact Hk]);
    try (split; [eexists; reflexivity | intros; discriminate]);
    try (split; [eexists; reflexivity
                | intros _; eexists; split; reflexivity]);
    (split;
     [ first [eexists; eassumption | eexists; reflexivity]
     | intros Hf; destruct (Hk Hf) as (m' & Hm' & Hc);
       exists m'; split; [congruence | exact Hc] ]).
Qed.

(** X17. Whenever no training run is outstanding, the kernel handed to the
    animation is the first filter of the model the component holds. *)
Theorem kernel_current_at_rest (m0 : Model) (events : list (event Model)) :
  fit (run lib B m0 events) = None ->
  exists m,
    model (run lib B m0 events) = Some m /\
    conv1Weights (run lib B m0 events) = getConv1Weights (conv1_buffers lib m).
Proof.
  assert (H : (exists m, model (run lib B m0 events) = Some m) /\
              kernel_current lib (run lib B m0 events)).
  { apply (run_invariant
             (fun st => (exists m, model st = Some m) /\
                        kernel_current lib st)
             (fun _ => True)).
    - split; [eexists; reflexivity |]. intros _. eexists. split; reflexivity.
    - intros st e _. apply kernel_current_step.
    - apply Forall_forall. intros; exact I. }
  exact (proj2 H).
Qed.

End AppFacts.

(* ================================================================== *)
(** * Feature maps                                                    *)
(* ================================================================== *)

Section FeatureMapFacts.
Import JS Spec FloatOrder FeatureMaps.

Lemma round_half_even_nonneg (m : positive) (e : Z) : 0 <= round_half_even m e.
Proof.
  unfold round_half_even.
  destruct (0 <=? e) eqn:He.
  - apply Z.leb_le in He. apply Z.mul_nonneg_nonneg; [lia |].
    apply Z.pow_nonneg. lia.
  - apply Z.leb_gt in He.
    assert (Hp : 0 < 2 ^ (- e)) by (apply Z.pow_pos_nonneg; lia).
    assert (Hq : 0 <= Z.pos m / 2 ^ (- e)) by (apply Z.div_pos; lia).
    repeat match goal with |- context [if ?c then _ else _] => destruct c end; lia.
Qed.

Lemma to_uint8_clamp_byte (x : float) : 0 <= to_uint8_clamp x <= 255.
Proof.
  unfold to_uint8_clamp.
  destruct (Prim2SF x) as [s|s| |s m e]; try destruct s; try lia.
  pose proof (round_half_even_nonneg m e). lia.
Qed.

Lemma update_nth_app {A : Type} (l1 l2 : list A) (k : nat) (v : A) :
  update_nth (List.length l1 + k) v (l1 ++ l2) = l1 ++ update_nth k v l2.
Proof.
  induction l1 as [|x l1 IH]; simpl; [reflexivity |]. now rewrite IH.
Qed.

Lemma set_at_app {A : Type} (l1 l2 : list A) (idx j : Z) (v : A) :
  0 <= j -> idx = JS.length l1 + j ->
  set_at (l1 ++ l2) idx v = l1 ++ set_at l2 j v.
Proof.
  intros Hj ->. unfold set_at, JS.length.
  destruct (Z.ltb_spec (Z.of_nat (List.length l1) + j) 0); [lia |].
  destruct (Z.ltb_spec j 0); [lia |].
  replace (Z.to_nat (Z.of_nat (List.length l1) + j))
    with (List.length l1 + Z.to_nat j)%nat by lia.
  apply update_nth_app.
Qed.

Lemma repeat_four {A : Type} (z : A) (n : nat) :
  repeat z (4 * Datatypes.S n) = z :: z :: z :: z :: repeat z (4 * n).
Proof.
  replace (4 * Datatypes.S n)%nat with (Datatypes.S (Datatypes.S (Datatypes.S (Datatypes.S (4 * n))))) by lia.
  reflexivity.
Qed.

Lemma length_flat_map_four {A : Type} (g : Z -> list A) (l : list Z) :
  (forall i, List.length (g i) = 4%nat) ->
  JS.length (flat_map g l) = 4 * JS.length l.
Proof.
  intros Hg. unfold JS.length. induction l as [|x l IH]; simpl; [reflexivity |].
  rewrite length_app, Hg. lia.
Qed.

(** One pass of the second loop fills the next pixel of the buffer. *)
Lemma write_pixel (done_ : list Z) (i : Z) (n : Z) (left_ : nat) :
  JS.length done_ = 4 * i ->
  set_at (set_at (set_at (set_at (done_ ++ repeat 0 (4 * Datatypes.S left_))
    (i * 4 + 0) n) (i * 4 + 1) n) (i * 4 + 2) n) (i * 4 + 3) 255
  = (done_ ++ [n; n; n; 255]) ++ repeat 0 (4 * left_).
Proof.
  intros Hlen. rewrite repeat_four.
  rewrite (set_at_app done_ _ (i * 4 + 0) 0) by lia.
  rewrite (set_at_app done_ _ (i * 4 + 1) 1) by lia.
  rewrite (set_at_app done_ _ (i * 4 + 2) 2) by lia.
  rewrite (set_at_app done_ _ (i * 4 + 3) 3) by lia.
  rewrite <- app_assoc. reflexivity.
Qed.

Lemma length_grey_pixel (a : Activation) (f i : Z) :
  List.length (grey_pixel a f i) = 4%nat.
Proof. unfold grey_pixel. now destruct (min_max a f). Qed.

(** X18. Every feature-map image is completely painted, opaque and grey:
    for an activation of [h] rows and [w] columns the buffer put on the
    canvas holds [4 * w * h] bytes, pixel [i] being [n, n, n, 255] for a
    byte [n] between 0 and 255, whatever numbers the activation holds. *)
Theorem feature_map_opaque_grey (a : Activation) (f : Z) :
  0 <= act_h a -> 0 <= act_w a ->
  filterImage a f = flat_map (grey_pixel a f) (range (act_h a * act_w a))
  /\ JS.length (filterImage a f) = 4 * act_w a * act_h a
  /\ forall i, exists n,
       grey_pixel a f i = [n; n; n; 255] /\ 0 <= n <= 255.
Proof.
  intros Hh Hw.
  assert (Hn : 0 <= act_h a * act_w a) by (apply Z.mul_nonneg_nonneg; lia).
  assert (Himg : filterImage a f
                 = flat_map (grey_pixel a f) (range (act_h a * act_w a))).
  { unfold filterImage, grey_pixel. destruct (min_max a f) as [mn mx].
    set (px := fun i => _ :: _).
    set (body := fun (i : Z) (data : list Z) => _).
    assert (Inv : for_lt (act_h a * act_w a) body
                    (repeat 0 (Z.to_nat (4 * act_w a * act_h a)))
                  = flat_map px (range (act_h a * act_w a))
                    ++ repeat 0 (4 * Z.to_nat (act_h a * act_w a - act_h a * act_w a))).
    { apply (for_lt_inv (fun k data =>
               data = flat_map px (range k)
                      ++ repeat 0 (4 * Z.to_nat (act_h a * act_w a - k)))).
      - exact Hn.
      - change (range 0) with (@nil Z). cbn [flat_map app]. f_equal.
        rewrite Z.sub_0_r. replace (4 * act_w a * act_h a) with (4 * (act_h a * act_w a)) by ring.
        lia.
      - intros k t Hk ->.
        replace (Z.to_nat (act_h a * act_w a - k))
          with (Datatypes.S (Z.to_nat (act_h a * act_w a - (k + 1)))) by lia.
        unfold body. rewrite write_pixel.
        + rewrite range_succ by lia. rewrite flat_map_app.
          cbn [flat_map]. rewrite app_nil_r. reflexivity.
        + rewrite length_flat_map_four by (intros; reflexivity).
          rewrite length_range; lia. }
    rewrite Inv, Z.sub_diag. simpl. now rewrite app_nil_r. }
  split; [exact Himg |]. split.
  - rewrite Himg, length_flat_map_four by apply length_grey_pixel.
    rewrite length_range; lia.
  - intros i. unfold grey_pixel. destruct (min_max a f) as [mn mx].
    eexists. split; [reflexivity | apply to_uint8_clamp_byte].
Qed.

Ltac lex_solve :=
  unfold below, above, lex in *;
  repeat match goal with
         | |- context [?x ?= ?y] => destruct (Z.compare_spec x y)
         | H : context [?x ?= ?y] |- _ => destruct (Z.compare_spec x y)
         end;
  cbv iota in *; subst; try discriminate; try reflexivity; try lia;
  try congruence.

Lemma lex_lt_le_trans a b c : lex a b = Lt -> lex b c <> Gt -> lex a c <> Gt.
Proof.
  destruct a as [[a1 a2] a3], b as [[b1 b2] b3], c as [[c1 c2] c3].
  intros H1 H2. revert H1 H2. lex_solve; intros; try congruence; try lia.
Qed.

Lemma ord_upper (s : spec_float) (k : Z * Z * Z) :
  ord s = Some k -> lex k (2, 0, 0) <> Gt.
Proof.
  destruct s as [b|b| |b m e]; try destruct b; simpl; intros E;
    inversion E; subst; intros C; vm_compute in C; discriminate.
Qed.

Lemma lowest_step (a : Activation) (f k : Z) (mn : float) :
  0 <= k ->
  extreme_so_far below PrimFloat.infinity a f k mn ->
  extreme_so_far below PrimFloat.infinity a f (k + 1) (lower (sample a f k) mn).
Proof.
  intros Hk (km & Ekm & Hall & Hwit). unfold lower.
  destruct (sample a f k) as [v|] eqn:Ev.
  - rewrite ltb_keys, Ekm.
    destruct (key v) as [kv|] eqn:Ekv; simpl.
    + destruct (lex kv km) eqn:Ecmp.
      * exists km. split; [exact Ekm |]. split.
        -- intros i w kw Hi Ew Ekw.
           destruct (Z.eq_dec i k) as [-> | Hne].
           ++ rewrite Ev in Ew. inversion Ew; subst w.
              rewrite Ekv in Ekw. inversion Ekw; subst kw.
              unfold below. rewrite (lex_antisym kv km), Ecmp. discriminate.
           ++ apply (Hall i w kw); [lia | assumption | assumption].
        -- destruct Hwit as [[-> Hsame] | (i & Hi & Ei)].
           ++ left. split; [reflexivity |].
              intros i w kw Hi Ew Ekw.
              destruct (Z.eq_dec i k) as [-> | Hne].
              ** rewrite Ev in Ew. inversion Ew; subst w.
                 rewrite Ekv in Ekw. inversion Ekw; subst kw.
                 apply lex_eq in Ecmp. now subst.
              ** apply (Hsame i w kw); [lia | assumption | assumption].
           ++ right. exists i. split; [lia | exact Ei].
      * exists kv. split; [exact Ekv |]. split.
        -- intros i w kw Hi Ew Ekw.
           destruct (Z.eq_dec i k) as [-> | Hne].
           ++ rewrite Ev in Ew. inversion Ew; subst w.
              rewrite Ekv in Ekw. inversion Ekw; subst kw.
              unfold below. now rewrite lex_refl.
           ++ apply (lex_lt_le_trans kv km kw Ecmp).
              apply (Hall i w kw); [lia | assumption | assumption].
        -- right. exists k. split; [lia | exact Ev].
      * exists km. split; [exact Ekm |]. split.
        -- intros i w kw Hi Ew Ekw.
           destruct (Z.eq_dec i k) as [-> | Hne].
           ++ rewrite Ev in Ew. inversion Ew; subst w.
              rewrite Ekv in Ekw. inversion Ekw; subst kw.
              unfold below. rewrite (lex_antisym kv km), Ecmp. discriminate.
           ++ apply (Hall i w kw); [lia | assumption | assumption].
        -- destruct Hwit as [[-> Hsame] | (i & Hi & Ei)].
           ++ exfalso. change (key PrimFloat.infinity) with (Some (2, 0, 0)) in Ekm.
              inversion Ekm; subst km.
              now apply (ord_upper (Prim2SF v) kv Ekv).
           ++ right. exists i. split; [lia | exact Ei].
    + exists km. split; [exact Ekm |]. split.
      * intros i w kw Hi Ew Ekw.
        destruct (Z.eq_dec i k) as [-> | Hne]; [congruence |].
        apply (Hall i w kw); [lia | assumption | assumption].
      * destruct Hwit as [[-> Hsame] | (i & Hi & Ei)].
        -- left. split; [reflexivity |].
           intros i w kw Hi Ew Ekw.
           destruct (Z.eq_dec i k) as [-> | Hne]; [congruence |].
           apply (Hsame i w kw); [lia | assumption | assumption].
        -- right. exists i. split; [lia | exact Ei].
  - exists km. split; [exact Ekm |]. split.
    + intros i w kw Hi Ew Ekw.
      destruct (Z.eq_dec i k) as [-> | Hne]; [congruence |].
      apply (Hall i w kw); [lia | assumption | assumption].
    + destruct Hwit as [[-> Hsame] | (i & Hi & Ei)].
      * left. split; [reflexivity |].
        intros i w kw Hi Ew Ekw.
        destruct (Z.eq_dec i k) as [-> | Hne]; [congruence |].
        apply (Hsame i w kw); [lia | assumption | assumption].
      * right. exists i. split; [lia | exact Ei].
Qed.

Lemma highest_step (a : Activation) (f k : Z) (mx : float) :
  0 <= k ->
  extreme_so_far above PrimFloat.neg_infinity a f k mx ->
  extreme_so_far above PrimFloat.neg_infinity a f (k + 1)
    (higher (sample a f k) mx).
Proof.
  intros Hk (km & Ekm & Hall & Hwit). unfold higher.
  destruct (sample a f k) as [v|] eqn:Ev.
  - rewrite ltb_keys, Ekm.
    destruct (key v) as [kv|] eqn:Ekv; simpl.
    + destruct (lex km kv) eqn:Ecmp.
      * exists km. split; [exact Ekm |]. split.
        -- intros i w kw Hi Ew Ekw.
           destruct (Z.eq_dec i k) as [-> | Hne].
           ++ rewrite Ev in Ew. inversion Ew; subst w.
              rewrite Ekv in Ekw. inversion Ekw; subst kw.
              unfold above. apply lex_eq in Ecmp. subst.
              now rewrite lex_refl.
           ++ apply (Hall i w kw); [lia | assumption | assumption].
        -- destruct Hwit as [[-> Hsame] | (i & Hi & Ei)].
           ++ left. split; [reflexivity |].
              intros i w kw Hi Ew Ekw.
              destruct (Z.eq_dec i k) as [-> | Hne].
              ** rewrite Ev in Ew. inversion Ew; subst w.
                 rewrite Ekv in Ekw. inversion Ekw; subst kw.
                 apply lex_eq in Ecmp. now subst.
              ** apply (Hsame i w kw); [lia | assumption | assumption].
           ++ right. exists i. split; [lia | exact Ei].
      * exists kv. split; [exact Ekv |]. split.
        -- intros i w kw Hi Ew Ekw.
           destruct (Z.eq_dec i k) as [-> | Hne].
           ++ rewrite Ev in Ew. inversion Ew; subst w.
              rewrite Ekv in Ekw. inversion Ekw; subst kw.
              unfold above. now rewrite lex_refl.
           ++ assert (Hlt : lex kw kv = Lt).
              { apply (lex_le_lt_trans kw km kv); [| exact Ecmp].
                apply (Hall i w kw); [lia | assumption | assumption]. }
              unfold above. rewrite Hlt. discriminate.
        -- right. exists k. split; [lia | exact Ev].
      * exists km. split; [exact Ekm |]. split.
        -- intros i w kw Hi Ew Ekw.
           destruct (Z.eq_dec i k) as [-> | Hne].
           ++ rewrite Ev in Ew. inversion Ew; subst w.
              rewrite Ekv in Ekw. inversion Ekw; subst kw.
              unfold above. rewrite (lex_antisym km kv), Ecmp. discriminate.
           ++ apply (Hall i w kw); [lia | assumption | assumption].
        -- destruct Hwit as [[-> Hsame] | (i & Hi & Ei)].
           ++ exfalso. change (key PrimFloat.neg_infinity) with (Some (-2, 0, 0)) in Ekm.
              inversion Ekm; subst km.
              now apply (ord_lower (Prim2SF v) kv Ekv).
           ++ right. exists i. split; [lia | exact Ei].
    + exists km. split; [exact Ekm |]. split.
      * intros i w kw Hi Ew Ekw.
        destruct (Z.eq_dec i k) as [-> | Hne]; [congruence |].
        apply (Hall i w kw); [lia | assumption | assumption].
      * destruct Hwit as [[-> Hsame] | (i & Hi & Ei)].
        -- left. split; [reflexivity |].
           intros i w kw Hi Ew Ekw.
           destruct (Z.eq_dec i k) as [-> | Hne]; [congruence |].
           apply (Hsame i w kw); [lia | assumption | assumption].
        -- right. exists i. split; [lia | exact Ei].
  - exists km. split; [exact Ekm |]. split.
    + intros i w kw Hi Ew Ekw.
      destruct (Z.eq_dec i k) as [-> | Hne]; [congruence |].
      apply (Hall i w kw); [lia | assumption | assumption].
    + destruct Hwit as [[-> Hsame] | (i & Hi & Ei)].
      * left. split; [reflexivity |].
        intros i w kw Hi Ew Ekw.
        destruct (Z.eq_dec i k) as [-> | Hne]; [congruence |].
        apply (Hsame i w kw); [lia | assumption | assumption].
      * right. exists i. split; [lia | exact Ei].
Qed.

Lemma min_max_inv (a : Activation) (f : Z) :
  0 <= act_h a * act_w a ->
  extreme_so_far below PrimFloat.infinity a f (act_h a * act_w a)
    (fst (min_max a f))
  /\ extreme_so_far above PrimFloat.neg_infinity a f (act_h a * act_w a)
       (snd (min_max a f)).
Proof.
  intros Hn. unfold min_max.
  apply (for_lt_inv (fun k (s : float * float) =>
           extreme_so_far below PrimFloat.infinity a f k (fst s)
           /\ extreme_so_far above PrimFloat.neg_infinity a f k (snd s))).
  - exact Hn.
  - split.
    + exists (2, 0, 0). split; [reflexivity |]. split; [intros; lia |].
      left. split; [reflexivity | intros; lia].
    + exists (-2, 0, 0). split; [reflexivity |]. split; [intros; lia |].
      left. split; [reflexivity | intros; lia].
  - intros k [mn mx] Hk [Hlo Hhi]. cbn [fst snd]. split.
    + now apply lowest_step.
    + now apply highest_step.
Qed.

(** X19. The first loop over a filter finds its range: [min] is below and
    [max] above every number of the filter (NaN and missing entries are
    skipped); when the filter holds a number, both are equal to one of its
    values; when it holds none, they stay at [Infinity] and [-Infinity]. *)
Theorem min_max_bounds (a : Activation) (f : Z) :
  0 <= act_h a -> 0 <= act_w a ->
  (forall i v, 0 <= i < act_h a * act_w a -> sample a f i = Some v ->
     PrimFloat.is_nan v = false ->
     PrimFloat.leb (fst (min_max a f)) v = true
     /\ PrimFloat.leb v (snd (min_max a f)) = true)
  /\ ((exists i v, 0 <= i < act_h a * act_w a /\ sample a f i = Some v
                   /\ PrimFloat.is_nan v = false) ->
      (exists i v, 0 <= i < act_h a * act_w a /\ sample a f i = Some v
                   /\ PrimFloat.eqb v (fst (min_max a f)) = true)
      /\ (exists i v, 0 <= i < act_h a * act_w a /\ sample a f i = Some v
                      /\ PrimFloat.eqb v (snd (min_max a f)) = true))
  /\ ((forall i v, 0 <= i < act_h a * act_w a -> sample a f i = Some v ->
         PrimFloat.is_nan v = true) ->
      min_max a f = (PrimFloat.infinity, PrimFloat.neg_infinity)).
Proof.
  intros Hh Hw.
  assert (Hn : 0 <= act_h a * act_w a) by (apply Z.mul_nonneg_nonneg; lia).
  destruct (min_max_inv a f Hn)
    as [(kmn & Emn & Hlo & Wlo) (kmx & Emx & Hhi & Whi)].
  split; [| split].
  - intros i v Hi Ev Hv. destruct (not_nan_key v Hv) as (kv & Ekv).
    rewrite !leb_keys, Emn, Emx, Ekv. simpl.
    pose proof (Hlo i v kv Hi Ev Ekv) as H1.
    pose proof (Hhi i v kv Hi Ev Ekv) as H2.
    unfold below, above in *.
    destruct (lex kmn kv), (lex kv kmx); try congruence; now split.
  - intros (i & v & Hi & Ev & Hv). destruct (not_nan_key v Hv) as (kv & Ekv).
    split.
    + destruct Wlo as [[E Hsame] | (j & Hj & Ej)].
      * exists i, v. split; [exact Hi |]. split; [exact Ev |].
        apply (same_key_eqb v _ kv Ekv). rewrite E.
        apply (Hsame i v kv Hi Ev Ekv).
      * exists j, (fst (min_max a f)). split; [exact Hj |]. split; [exact Ej |].
        now apply (same_key_eqb _ _ kmn).
    + destruct Whi as [[E Hsame] | (j & Hj & Ej)].
      * exists i, v. split; [exact Hi |]. split; [exact Ev |].
        apply (same_key_eqb v _ kv Ekv). rewrite E.
        apply (Hsame i v kv Hi Ev Ekv).
      * exists j, (snd (min_max a f)). split; [exact Hj |]. split; [exact Ej |].
        now apply (same_key_eqb _ _ kmx).
  - intros Hnan.
    assert (E1 : fst (min_max a f) = PrimFloat.infinity).
    { destruct Wlo as [[E _] | (j & Hj & Ej)]; [exact E |].
      pose proof (Hnan j _ Hj Ej) as C.
      rewrite (key_not_nan _ kmn Emn) in C. discriminate. }
    assert (E2 : snd (min_max a f) = PrimFloat.neg_infinity).
    { destruct Whi as [[E _] | (j & Hj & Ej)]; [exact E |].
      pose proof (Hnan j _ Hj Ej) as C.
      rewrite (key_not_nan _ kmx Emx) in C. discriminate. }
    destruct (min_max a f) as [mn mx]. cbn [fst snd] in *. now subst.
Qed.

End FeatureMapFacts.

Section LayerFacts.
Import JS Spec FeatureMaps.
Variables Model URL : Type.
Variable R : Renderer Model URL.

Lemma fold_left_append {A B : Type} (step : list B -> A -> list B)
    (g : A -> list B) (l : list A) :
  (forall acc x, step acc x = acc ++ g x) ->
  forall init, fold_left step l init = init ++ flat_map g l.
Proof.
  intros Hstep. induction l as [|x l IH]; intros init; simpl.
  - now rewrite app_nil_r.
  - now rewrite IH, Hstep, app_assoc.
Qed.

Lemma layerMaps_returned (a : Activation) (maps : list URL) :
  layerMaps R a = Returned maps ->
  maps = (if context2d R
          then map (fun f => toDataURL R (act_w a) (act_h a) (filterImage a f))
                 (range (Z.min (act_filters a) 8))
          else []).
Proof.
  unfold layerMaps.
  destruct (_ && _ && _); [discriminate |].
  intros E. inversion E as [E']. clear E E'.
  destruct (context2d R).
  - now rewrite for_lt_push.
  - rewrite (for_lt_ext _ (fun k acc => acc ++ (fun _ => []) k))
      by (intros; now rewrite app_nil_r).
    rewrite for_lt_append. simpl.
    induction (range _); [reflexivity | assumption].
Qed.

Lemma layerMaps_positive (a : Activation) :
  0 < act_h a -> 0 < act_w a -> exists maps, layerMaps R a = Returned maps.
Proof.
  intros Hh Hw. unfold layerMaps.
  destruct (Z.leb_spec (act_w a) 0); [lia |].
  destruct (Z.leb_spec (act_h a) 0); [lia |].
  rewrite andb_false_r. eexists. reflexivity.
Qed.

(** X20. Rendering the feature maps never fails as a whole: the result
    lists, in the order conv1, pool1, conv2, pool2, exactly the layers whose
    activation could be read and drawn; a layer that fails is left out
    without touching the others, and a layer with a non-empty activation is
    always kept.  Each kept layer shows its first [min(filters, 8)] filters,
    one image per filter in filter order (none when no 2D context is
    available). *)
Theorem feature_maps_layers (model : Model) (imageData : CnnModel.ImageData) :
  map fst (generateFeatureMaps R model imageData)
  = filter (rendered R model imageData) layersToVisualize
  /\ (forall name maps,
        In (name, maps) (generateFeatureMaps R model imageData) ->
        exists a, getActivation R model name imageData = Returned a
          /\ JS.length maps
             = (if context2d R then Z.max 0 (Z.min (act_filters a) 8) else 0)
          /\ forall f, 0 <= f < JS.length maps ->
               get maps f
               = Some (toDataURL R (act_w a) (act_h a) (filterImage a f)))
  /\ (forall name a,
        In name layersToVisualize ->
        getActivation R model name imageData = Returned a ->
        0 < act_h a -> 0 < act_w a ->
        exists maps, In (name, maps) (generateFeatureMaps R model imageData)).
Proof.
  set (g := fun name =>
    match getActivation R model name imageData with
    | Thrown => []
    | Returned a =>
        match layerMaps R a with
        | Thrown => []
        | Returned maps => [(name, maps)]
        end
    end).
  assert (Efold : generateFeatureMaps R model imageData
                  = flat_map g layersToVisualize).
  { unfold generateFeatureMaps.
    rewrite (fold_left_append _ g); [reflexivity |].
    intros acc name. unfold g.
    destruct (getActivation R model name imageData) as [a|];
      [destruct (layerMaps R a) |]; now rewrite ?app_nil_r. }
  rewrite Efold. clear Efold. split; [| split].
  - induction layersToVisualize as [|name l IH]; [reflexivity |].
    cbn [flat_map filter]. rewrite map_app, IH.
    unfold g at 1, rendered at 2.
    destruct (getActivation R model name imageData) as [a|];
      [destruct (layerMaps R a) |]; reflexivity.
  - intros name maps Hin. apply in_flat_map in Hin.
    destruct Hin as (name' & _ & Hin). unfold g in Hin.
    destruct (getActivation R model name' imageData) as [a|] eqn:Ea;
      [| contradiction].
    destruct (layerMaps R a) as [maps'|] eqn:El; [| contradiction].
    destruct Hin as [Hin | []]. inversion Hin; subst name' maps'.
    exists a. split; [exact Ea |].
    apply layerMaps_returned in El.
    destruct (context2d R).
    + subst maps.
      assert (Hlen : JS.length (map (fun f => toDataURL R (act_w a) (act_h a)
                                               (filterImage a f))
                                  (range (Z.min (act_filters a) 8)))
                     = Z.max 0 (Z.min (act_filters a) 8)).
      { unfold JS.length. rewrite length_map.
        destruct (Z.le_gt_cases (Z.min (act_filters a) 8) 0) as [Hn|Hn].
        - rewrite range_nonpos by exact Hn. simpl. lia.
        - pose proof (length_range (Z.min (act_filters a) 8)) as L.
          unfold JS.length in L. rewrite L; lia. }
      split; [exact Hlen |].
      intros f Hf. rewrite Hlen in Hf.
      rewrite get_map, get_range by lia. reflexivity.
    + subst maps. split; [reflexivity |].
      intros f Hf. unfold JS.length in Hf. simpl in Hf. lia.
  - intros name a Hin Ea Hh Hw.
    destruct (layerMaps_positive a Hh Hw) as (maps & El).
    exists maps. apply in_flat_map. exists name. split; [exact Hin |].
    unfold g. rewrite Ea, El. now left.
Qed.

End LayerFacts.


(* ================================================================== *)
(** * More instances                                                  *)
(* ================================================================== *)

Section MoreInstances.
Import JS Spec Centring Examples Scenarios.

Lemma relu_final_never_negative_witness :
  exists r,
    ConvAnimation.calculateResult small_replay small_dims 0 = Normal r /\
    PrimFloat.ltb (ConvAnimation.final r) PrimFloat.zero = false.
Proof.
  eexists. split; [vm_compute; reflexivity |].
  apply (relu_final_never_negative small_replay small_dims 0 _
           eq_refl eq_refl).
Defined.

Lemma revealed_cells_row_major_witness :
  ConvAnimation.isPast small_dims 2 1 0
  || ConvAnimation.isCurrent small_dims 2 1 0 = true
  <-> 1 * ConvAnimation.outputW small_dims + 0 <= 2.
Proof.
  apply (revealed_cells_row_major small_dims 2 1 0); simpl; lia.
Defined.

Lemma player_after_ticks_witness :
  ConvAnimation.step
    (Nat.iter 5 (ConvAnimation.advance 4)
       {| ConvAnimation.step := 1; ConvAnimation.isPlaying := true;
          ConvAnimation.speed := 500 |}) = 3 /\
  ConvAnimation.isPlaying
    (Nat.iter 5 (ConvAnimation.advance 4)
       {| ConvAnimation.step := 1; ConvAnimation.isPlaying := true;
          ConvAnimation.speed := 500 |}) = false.
Proof.
  destruct (player_after_ticks 4
              {| ConvAnimation.step := 1; ConvAnimation.isPlaying := true;
                 ConvAnimation.speed := 500 |} 5) as [Hs Hp];
    [simpl; lia |].
  split; [rewrite Hs | rewrite Hp]; reflexivity.
Defined.

Lemma calculation_panel_adds_up_witness :
  exists d r,
    ConvAnimation.dimensions small_replay = Normal d /\
    ConvAnimation.calculateResult small_replay d 1 = Normal r /\
    JS.length (ConvAnimation.details r) = 2 * 2 /\
    ConvAnimation.preActivation r
    = PrimFloat.add (ReplaySpec.sum_of_details (ConvAnimation.details r))
        (ConvAnimation.bias small_replay).
Proof.
  destruct (calculation_panel_adds_up small_replay 3 3 2 2 1
              small_replay_input_shape small_replay_kernel_shape)
    as (d & r & Hd & Hr & _ & Hlen & _ & Hsum); try lia.
  exists d, r. repeat split; assumption.
Defined.

Lemma window_highlight_matches_details_witness :
  exists d r,
    ConvAnimation.dimensions small_replay = Normal d /\
    ConvAnimation.calculateResult small_replay d 3 = Normal r /\
    (ConvAnimationView.isInWindow d 3 2 1 = true <->
     exists dt, In dt (ConvAnimation.details r) /\
                3 / ConvAnimation.outputW d + ConvAnimation.d_i dt = 2 /\
                3 mod ConvAnimation.outputW d + ConvAnimation.d_j dt = 1).
Proof.
  apply (window_highlight_matches_details small_replay 3 3 2 2 3 2 1
           small_replay_input_shape small_replay_kernel_shape); lia.
Defined.

Lemma calculateResult_throws_on_tall_kernel_witness :
  ConvAnimation.dimensions tall_kernel_replay = Normal tall_kernel_dims /\
  ConvAnimation.calculateResult tall_kernel_replay tall_kernel_dims 0
  = Throw TypeError.
Proof.
  split; [reflexivity |].
  apply (calculateResult_throws_on_tall_kernel tall_kernel_replay
           tall_kernel_dims 0 eq_refl); simpl; lia.
Defined.

Lemma ragged_rows_exist (i : Z) :
  0 <= i < ConvAnimation.kernelH ragged_dims ->
  (exists row, get (ConvAnimation.inputData ragged_replay) (0 + i) = Some row)
  /\ (exists krow, get (ConvAnimation.kernel ragged_replay) i = Some krow).
Proof.
  simpl. intros Hi. assert (C : i = 0 \/ i = 1) by lia.
  destruct C as [-> | ->]; split; eexists; reflexivity.
Qed.

Lemma calculateResult_nan_on_missing_column_witness :
  ConvAnimation.dimensions ragged_replay = Normal ragged_dims /\
  exists r,
    ConvAnimation.calculateResult ragged_replay ragged_dims 0 = Normal r /\
    ConvAnimation.preActivation r = PrimFloat.nan /\
    ConvAnimation.final r = PrimFloat.nan.
Proof.
  split; [reflexivity |].
  apply (calculateResult_nan_on_missing_column ragged_replay ragged_dims
           0 0 0 1 1 eq_refl eq_refl); try (simpl; lia).
  - exact ragged_rows_exist.
  - left. reflexivity.
Defined.

Lemma corner_blob_wf : CnnModel.wf_ImageData corner_blob.
Proof.
  split; [simpl; lia |]. split; [simpl; lia |].
  split; [vm_compute; reflexivity |].
  apply Forall_forall. intros v Hv.
  assert (Hall : forallb (fun v => (0 <=? v) && (v <=? 255))
                   (CnnModel.data corner_blob) = true)
    by (vm_compute; reflexivity).
  rewrite forallb_forall in Hall. specialize (Hall v Hv).
  apply andb_true_iff in Hall. lia.
Qed.

Lemma corner_blob_lit : exists x y, lit corner_blob x y.
Proof.
  exists 0, 0. repeat split; try (simpl; lia).
  exists 255. split; [vm_compute; reflexivity | lia].
Qed.

Lemma preprocess_keeps_28x28_witness :
  CnnModel.width (CnnModel.preprocessImage white_browser corner_blob) = 28 /\
  CnnModel.height (CnnModel.preprocessImage white_browser corner_blob) = 28 /\
  JS.length (CnnModel.data (CnnModel.preprocessImage white_browser corner_blob))
  = 4 * 28 * 28.
Proof.
  destruct (preprocess_keeps_28x28 white_browser corner_blob eq_refl eq_refl)
    as (Hw & Hh & Hlen).
  split; [exact Hw |]. split; [exact Hh |].
  apply Hlen. vm_compute. reflexivity.
Defined.

Lemma preprocess_content_in_central_box_witness :
  CnnModel.pixel_at (CnnModel.preprocessImage white_browser corner_blob) 3 10
  = CnnModel.black /\
  CnnModel.pixel_at (CnnModel.preprocessImage white_browser corner_blob) 12 24
  = CnnModel.black.
Proof.
  destruct (preprocess_content_in_central_box white_browser corner_blob
              eq_refl eq_refl eq_refl eq_refl corner_blob_lit) as [Hout _].
  split; apply Hout; lia.
Defined.

Lemma length_conv1_kernel_buffer : JS.length conv1_kernel_buffer = 200.
Proof. reflexivity. Qed.

Lemma animation_never_throws_witness :
  exists g K b d,
    CnnModel.imageDataToGrid corner_blob 10 = Normal g /\
    Weights.getConv1Weights (Some [conv1_kernel_buffer; conv1_bias_buffer]) =
    Some {| Weights.kernel := map (map Some) K; Weights.bias := Some b |} /\
    ConvAnimation.dimensions (Weights.animation_props g K b) = Normal d /\
    ConvAnimation.totalSteps d = 36 /\
    exists r,
      ConvAnimation.calculateResult (Weights.animation_props g K b) d 0
      = Normal r.
Proof.
  destruct (animation_never_throws corner_blob conv1_kernel_buffer
              conv1_bias_buffer [] corner_blob_wf)
    as (g & K & b & d & Hg & Hk & Hd & _ & _ & Ht & Hr);
    try (simpl; lia); try reflexivity; try (vm_compute; discriminate).
  exists g, K, b, d. repeat split; try assumption.
  apply (Hr ConvAnimation.initial). constructor.
Defined.

Lemma session_with_logs : Forall (@App.with_logs nat) session.
Proof. repeat constructor. Qed.

Lemma log_numbering_invariant_witness :
  epochs (App.logs (App.run demo_library white_browser 0%nat session)) = [0].
Proof.
  rewrite (log_numbering_invariant nat nat demo_library white_browser 0%nat
             session session_with_logs).
  reflexivity.
Defined.

Lemma kernel_current_at_rest_witness :
  exists m,
    App.model (App.run demo_library white_browser 0%nat session) = Some m /\
    App.conv1Weights (App.run demo_library white_browser 0%nat session)
    = Weights.getConv1Weights (App.conv1_buffers demo_library m).
Proof.
  apply (kernel_current_at_rest nat nat demo_library white_browser 0%nat
           session).
  reflexivity.
Defined.

Lemma feature_map_opaque_grey_witness :
  FeatureMaps.filterImage small_activation 0
  = [95; 95; 95; 255;  0; 0; 0; 255;  254; 254; 254; 255;  79; 79; 79; 255]
  /\ JS.length (FeatureMaps.filterImage small_activation 0) = 4 * 2 * 2.
Proof.
  assert (Hh : 0 <= FeatureMaps.act_h small_activation) by (simpl; lia).
  assert (Hw : 0 <= FeatureMaps.act_w small_activation) by (simpl; lia).
  destruct (feature_map_opaque_grey small_activation 0 Hh Hw)
    as (Himg & Hlen & _).
  split; [rewrite Himg; vm_compute; reflexivity | exact Hlen].
Defined.

Lemma min_max_bounds_witness :
  FeatureMaps.min_max small_activation 1 = (0, 4)%float /\
  PrimFloat.leb (fst (FeatureMaps.min_max small_activation 1)) 2 = true /\
  PrimFloat.leb 2 (snd (FeatureMaps.min_max small_activation 1)) = true.
Proof.
  split; [vm_compute; reflexivity |].
  assert (Hh : 0 <= FeatureMaps.act_h small_activation) by (simpl; lia).
  assert (Hw : 0 <= FeatureMaps.act_w small_activation) by (simpl; lia).
  destruct (min_max_bounds small_activation 1 Hh Hw) as (Hb & _ & _).
  apply (Hb 1 2%float); [simpl; lia | reflexivity | reflexivity].
Defined.

Lemma feature_maps_layers_witness :
  map fst (FeatureMaps.generateFeatureMaps demo_renderer 0%nat tiny)
  = layers_without_conv2.
Proof.
  rewrite (proj1 (feature_maps_layers nat (list Z) demo_renderer 0%nat tiny)).
  reflexivity.
Defined.

End MoreInstances.
